(** * MikroEvent: target registry, dispatch engine and inbound adapter

    A shallow embedding of [src/MikroEvent.ts].  The class keeps three
    private fields: [targets] (a plain object used as a map from target
    name to target), [emitter] (a Node [EventEmitter]) and [options]
    (the configured error handler).  Every method is embedded as a
    function on that state; what a method prints, calls or sends is
    returned next to its result as a list of effects.

    Conventions.
    - [undefined] in an optional position is [None].
    - A plain object that the program enumerates ([Object.values]) is
      a [JSObject.t]: an association list kept in the order in which
      JavaScript enumerates own string keys.  What a lookup finds
      beyond the own properties of the registry, up the prototype
      chain, is given to each registry method as its [realm].
    - A header object is only ever spread and looked up, so it is a
      [gmap string string].
    - An array stored in a target is modelled by its contents: no
      property below is about two targets sharing one array.
    - A call that can throw returns the thrown value explicitly.  A
      listener or an error handler is a function that returns or
      throws; one that returns a promise has returned. *)

From stdpp Require Import base gmap strings list.
From Stdlib Require Import ZArith String List Lia Permutation Ascii Bool DecimalString Sorted.
Import ListNotations.
Local Open Scope string_scope.
Local Open Scope list_scope.

(** ** JavaScript values *)

(** The payloads the program passes around.  A number is kept as its
    canonical rendering, the program never computes with one. *)
#[local] Unset Elimination Schemes.
Inductive JSValue : Type :=
| VUndefined
| VNull
| VBool (b : bool)
| VNum (rendering : string)
| VStr (s : string)
| VArr (items : list JSValue)
| VObj (props : list (string * JSValue)).
#[local] Set Elimination Schemes.

(** An instance of [Error]. *)
Record JSError := { err_name : string; message : string }.

(** [new Error(msg)] *)
Definition new_Error (msg : string) : JSError :=
  {| err_name := "Error"; message := msg |}.

(** What a [throw] carries: an [Error] instance, or any other value,
    of which the program only ever uses [String(value)]. *)
Inductive Thrown : Type :=
| ThrownError (e : JSError)
| ThrownOther (rendered : string).

(** [error instanceof Error ? error : new Error(String(error))] *)
Definition actualError (error : Thrown) : JSError :=
  match error with
  | ThrownError e => e
  | ThrownOther s => new_Error s
  end.

(** [String(value)], which is also how a value becomes a property key
    or an event name. *)
Fixpoint ToString (v : JSValue) : string :=
  match v with
  | VUndefined => "undefined"
  | VNull => "null"
  | VBool true => "true"
  | VBool false => "false"
  | VNum rendering => rendering
  | VStr s => s
  | VArr items =>
      let element x :=
        match x with
        | VUndefined | VNull => ""
        | _ => ToString x
        end in
      (fix join (l : list JSValue) : string :=
         match l with
         | [] => ""
         | [x] => element x
         | x :: rest => element x +:+ "," +:+ join rest
         end) items
  | VObj _ => "[object Object]"
  end.

(** [Array.prototype.includes] on an array of strings. *)
Definition includes (xs : list string) (x : string) : bool :=
  existsb (String.eqb x) xs.

(** ** Plain objects in enumeration order *)

Module JSObject.

Definition t (V : Type) : Type := list (string * V).

Definition digit (c : ascii) : option N :=
  let n := N_of_ascii c in
  if ((48 <=? n) && (n <=? 57))%N then Some (n - 48)%N else None.

Fixpoint digits (s : string) (acc : N) : option N :=
  match s with
  | EmptyString => Some acc
  | String c rest =>
      match digit c with
      | Some d => digits rest (10 * acc + d)%N
      | None => None
      end
  end.

(** A key is an array index when it is the canonical decimal
    rendering of an integer between 0 and 2^32 - 2. *)
Definition array_index (key : string) : option N :=
  match key with
  | EmptyString => None
  | String "0" EmptyString => Some 0%N
  | String "0" _ => None
  | _ =>
      match digits key 0 with
      | Some n => if (n <=? 4294967294)%N then Some n else None
      | None => None
      end
  end.

Section WithValue.
Context {V : Type}.

(** [obj[key]] among own properties. *)
Fixpoint get (key : string) (o : t V) : option V :=
  match o with
  | [] => None
  | (k, v) :: rest => if String.eqb key k then Some v else get key rest
  end.

Definition has (key : string) (o : t V) : bool :=
  match get key o with Some _ => true | None => false end.

(** [Object.keys(obj)], [Object.values(obj)] *)
Definition keys (o : t V) : list string := map fst o.
Definition values (o : t V) : list V := map snd o.

(** Assignment to a property the object already owns keeps its
    place in the enumeration. *)
Fixpoint replace (key : string) (v : V) (o : t V) : t V :=
  match o with
  | [] => []
  | (k, w) :: rest =>
      if String.eqb key k then (k, v) :: rest
      else (k, w) :: replace key v rest
  end.

(** A new array-index key goes among the array-index keys, which
    come first and in ascending order. *)
Fixpoint place_index (i : N) (key : string) (v : V) (o : t V) : t V :=
  match o with
  | [] => [(key, v)]
  | (k, w) :: rest =>
      match array_index k with
      | Some j =>
          if (i <? j)%N then (key, v) :: o
          else (k, w) :: place_index i key v rest
      | None => (key, v) :: o
      end
  end.

(** Any other new key goes last. *)
Definition define (key : string) (v : V) (o : t V) : t V :=
  match array_index key with
  | Some i => place_index i key v o
  | None => o ++ [(key, v)]
  end.

(** [obj[key] = v] *)
Definition set (key : string) (v : V) (o : t V) : t V :=
  if has key o then replace key v o else define key v o.

(** [delete obj[key]] *)
Definition delete (key : string) (o : t V) : t V :=
  List.filter (fun kv => negb (String.eqb key (fst kv))) o.

End WithValue.

End JSObject.

(** ** Data model ([src/interfaces/index.ts]) *)

Abbreviation Headers := (gmap string string).

(** A target as the registry stores it: [addTarget] always writes the
    four properties, [url] possibly holding [undefined]. *)
Record Target := {
  name : string;
  url : option string;
  headers : Headers;
  events : list string
}.

(** A target as a caller hands it to [addTarget]: [headers] is
    optional, and [addTarget] also tolerates a missing [events]. *)
Record NewTarget := {
  new_name : string;
  new_url : option string;
  new_headers : option Headers;
  new_events : option (list string)
}.

Record TargetUpdate := {
  update_url : option string;
  update_headers : option Headers;
  update_events : option (list string)
}.

(** The arguments of one [fetch] call. *)
Record Request := {
  req_url : option string;
  req_method : string;
  req_headers : Headers;
  req_body : string
}.

Record EmitError := {
  target : string;
  event : string;
  error : JSError
}.

Record EmitResult := {
  success : bool;
  errors : list EmitError
}.

(** [private targets: Record<string, Target>] *)
Definition Targets : Type := JSObject.t Target.

(** ** What the registry inherits

    [targets] starts as the literal [{}], so [this.targets[name]]
    finds, for a name the registry does not own, what
    [Object.prototype] holds under it: one of its twelve members
    (eleven functions and, under [__proto__], the prototype itself),
    or whatever has been written onto the prototype.  The methods of
    the registry test what they find for truthiness, assign [url],
    [headers] and [events] to it, and read and extend its [events];
    a value found is described that far and no further. *)
Inductive Inherited : Type :=
| NotInherited
    (* [undefined], or another falsy value *)
| InheritedPrimitive (described : string) (its_events : option (list string))
    (* a truthy primitive, as the engine describes it in a message
       (a type and a rendering), and what its [events] evaluates to:
       [undefined] or an array of strings *)
| InheritedObject (its_events : option (list string)).
    (* an object or a function, and what its [events] evaluates to *)

(** The members of [Object.prototype]. *)
Definition Object_prototype : list string :=
  ["constructor"; "__defineGetter__"; "__defineSetter__"; "hasOwnProperty";
   "__lookupGetter__"; "__lookupSetter__"; "isPrototypeOf";
   "propertyIsEnumerable"; "toString"; "valueOf"; "__proto__";
   "toLocaleString"].

(** What lies up the prototype chain is not in the dispatcher's
    hands.  Every call of a registry method is given it as a [realm]:
    what has been written under a name, or onto the member of that
    name, by the time of the call, by these methods (they return
    their writes) or by any other code. *)
Definition Realm : Type := string -> Inherited.

(** A realm nothing has been written to. *)
Definition pristine : Realm := fun _ => NotInherited.

(** What [this.targets[n]] finds when the registry does not own [n];
    the members of the prototype are there in every realm. *)
Definition inherited (realm : Realm) (n : string) : Inherited :=
  match realm n with
  | NotInherited =>
      if includes Object_prototype n then InheritedObject None else NotInherited
  | found => found
  end.

Definition is_inherited (found : Inherited) : bool :=
  match found with
  | NotInherited => false
  | _ => true
  end.

(** ** Target registry *)

(** Lines written with [console.error]. *)
Definition Console : Type := list string.

(** An assignment or a [push] that lands on the value found under
    [n] up the prototype chain, outside the registry. *)
Inductive Write : Type :=
| WriteUrl (n : string) (u : string)
| MergeHeaders (n : string) (h : Headers)
| WriteEvents (n : string) (es : list string)
| PushEvent (n : string) (e : string).

(** How a call of a registry method ends. *)
Inductive Ended : Type :=
| Returns (value : bool)
| Throws (thrown : Thrown).

(** What a call of a registry method gives: how it ends, the registry
    it leaves, what it prints and what it writes outside the
    registry. *)
Definition MethodResult : Type := Ended * Targets * Console * list Write.

Definition returned (r : MethodResult) : Ended := fst (fst (fst r)).
Definition registry_of (r : MethodResult) : Targets := snd (fst (fst r)).
Definition printed (r : MethodResult) : Console := snd (fst r).
Definition written (r : MethodResult) : list Write := snd r.

Definition TypeError (msg : string) : JSError :=
  {| err_name := "TypeError"; message := msg |}.

Definition already_exists (n : string) : string :=
  "Target with name '" +:+ n +:+ "' already exists.".

Definition does_not_exist (n : string) : string :=
  "Target with name '" +:+ n +:+ "' does not exist.".

(** [x || fallback] for an optional object or array (both are truthy
    whenever present). *)
Definition or_default {A : Type} (x : option A) (fallback : A) : A :=
  match x with Some a => a | None => fallback end.

(** The callback of [targets.map] in [addTarget].  The guard
    [if (this.targets[target.name])] holds for a name the registry owns
    and for a name under which it inherits a truthy value. *)
Definition addTarget_one (realm : Realm) (t : NewTarget) (reg : Targets)
  : bool * Targets * Console :=
  if JSObject.has (new_name t) reg || is_inherited (inherited realm (new_name t)) then
    (false, reg, [already_exists (new_name t)])
  else
    (true,
     JSObject.set (new_name t)
       {| name := new_name t;
          url := new_url t;
          headers := or_default (new_headers t) ∅;
          events := or_default (new_events t) [] |} reg,
     []).

(** [targets.map(...)], threading the registry from one entry to the
    next and collecting the callback's results. *)
Fixpoint addTarget_map (realm : Realm) (batch : list NewTarget) (reg : Targets)
  : list bool * Targets * Console :=
  match batch with
  | [] => ([], reg, [])
  | t :: rest =>
      let '(r, reg1, out1) := addTarget_one realm t reg in
      let '(rs, reg2, out2) := addTarget_map realm rest reg1 in
      (r :: rs, reg2, out1 ++ out2)
  end.

(** [addTarget(target: Target | Target[])]; a single target is the
    one-element batch. *)
Definition addTarget (realm : Realm) (batch : list NewTarget) (reg : Targets)
  : MethodResult :=
  let '(results, reg', out) := addTarget_map realm batch reg in
  (Returns (forallb (fun result => Bool.eqb result true) results), reg', out, []).

(** The three conditional assignments of [updateTarget], on a target
    the registry owns. *)
Definition apply_update (update : TargetUpdate) (t : Target) : Target :=
  let t1 :=
    match update_url update with
    | Some u => {| name := name t; url := Some u;
                   headers := headers t; events := events t |}
    | None => t
    end in
  let t2 :=
    match update_headers update with
    | Some h => {| name := name t1; url := url t1;
                   headers := h ∪ headers t1; events := events t1 |}
    | None => t1
    end in
  match update_events update with
  | Some es => {| name := name t2; url := url t2;
                  headers := headers t2; events := es |}
  | None => t2
  end.

(** The same three assignments on an inherited object. *)
Definition update_writes (n : string) (update : TargetUpdate) : list Write :=
  match update_url update with Some u => [WriteUrl n u] | None => [] end
    ++ match update_headers update with Some h => [MergeHeaders n h] | None => [] end
    ++ match update_events update with Some es => [WriteEvents n es] | None => [] end.

(** The property the first of the three assignments sets, if any. *)
Definition first_assigned (update : TargetUpdate) : option string :=
  match update_url update, update_headers update, update_events update with
  | Some _, _, _ => Some "url"
  | None, Some _, _ => Some "headers"
  | None, None, Some _ => Some "events"
  | None, None, None => None
  end.

(** [updateTarget(name, update)].  The guard lets an inherited truthy
    value through as the target.  An object takes the assignments; a
    primitive does not, and in the strict code of a class body the
    first assignment throws. *)
Definition updateTarget (realm : Realm) (n : string) (update : TargetUpdate)
  (reg : Targets) : MethodResult :=
  match JSObject.get n reg with
  | Some t =>
      (Returns true, JSObject.replace n (apply_update update t) reg, [], [])
  | None =>
      match inherited realm n with
      | NotInherited => (Returns false, reg, [does_not_exist n], [])
      | InheritedObject _ => (Returns true, reg, [], update_writes n update)
      | InheritedPrimitive described _ =>
          match first_assigned update with
          | Some p =>
              (Throws (ThrownError
                         (TypeError ("Cannot create property '" +:+ p
                                       +:+ "' on " +:+ described))),
               reg, [], [])
          | None => (Returns true, reg, [], [])
          end
      end
  end.

(** [removeTarget(name)].  [delete] on a name the registry does not
    own removes nothing and the call still returns true. *)
Definition removeTarget (realm : Realm) (n : string) (reg : Targets)
  : MethodResult :=
  if JSObject.has n reg then (Returns true, JSObject.delete n reg, [], [])
  else if is_inherited (inherited realm n) then (Returns true, reg, [], [])
  else (Returns false, reg, [does_not_exist n], []).

(** [eventsArray.forEach(event => { if (!target.events.includes(event))
    target.events.push(event) })] *)
Fixpoint push_missing (eventsArray : list string) (evs : list string)
  : list string :=
  match eventsArray with
  | [] => evs
  | e :: rest =>
      push_missing rest (if includes evs e then evs else evs ++ [e])
  end.

(** The names that loop pushes. *)
Definition pushed (eventsArray : list string) (evs : list string) : list string :=
  skipn (length evs) (push_missing eventsArray evs).

(** [addEventToTarget(name, events: string | string[])]; a single
    event name is the one-element array.  The names are pushed onto
    the array the target holds, here the contents of that array.  For
    an inherited value the loop reads [target.events] at its first
    round: with no round nothing is read, and reading [includes] of
    [undefined] throws. *)
Definition addEventToTarget (realm : Realm) (n : string)
  (eventsArray : list string) (reg : Targets) : MethodResult :=
  match JSObject.get n reg with
  | Some t =>
      (Returns true,
       JSObject.replace n
         {| name := name t; url := url t; headers := headers t;
            events := push_missing eventsArray (events t) |} reg,
       [], [])
  | None =>
      match inherited realm n with
      | NotInherited => (Returns false, reg, [does_not_exist n], [])
      | InheritedPrimitive _ its_events | InheritedObject its_events =>
          match eventsArray, its_events with
          | [], _ => (Returns true, reg, [], [])
          | _ :: _, None =>
              (Throws (ThrownError
                         (TypeError
                            "Cannot read properties of undefined (reading 'includes')")),
               reg, [], [])
          | _ :: _, Some evs =>
              (Returns true, reg, [], map (PushEvent n) (pushed eventsArray evs))
          end
      end
  end.

(** The first statement of [emit]:
    [Object.values(this.targets).filter(target =>
       target.events.includes(eventName) || target.events.includes('*'))] *)
Definition matches (eventName : string) (t : Target) : bool :=
  includes (events t) eventName || includes (events t) "*".

Definition resolveTargets (eventName : string) (reg : Targets) : list Target :=
  List.filter (matches eventName) (JSObject.values reg).

(** ** Local notifier: Node's [EventEmitter]

    The class is the platform's, not the repository's; the model
    follows its documented behaviour.  The listeners of an event are
    called synchronously in registration order; one added with [once]
    is taken out just before it is called; an exception thrown by a
    listener is not caught, so the listeners after it are not called;
    emitting ['error'] without a listener throws.  A handler is a
    function of the payload that returns or throws: it has no access
    to the emitter, so one pass over the listeners in registration
    order is what [emit] amounts to.  The events ['newListener'] and
    ['removeListener'] that the emitter raises about itself are left
    out. *)

Record Handler := {
  handler_id : nat;
  run : JSValue -> option Thrown
}.

Record Listener := {
  on_event : string;
  listener : Handler;
  is_once : bool
}.

Definition EventEmitter : Type := list Listener.

Definition new_EventEmitter : EventEmitter := [].

Definition addListener (once_flag : bool) (eventName : string) (h : Handler)
  (em : EventEmitter) : EventEmitter :=
  em ++ [{| on_event := eventName; listener := h; is_once := once_flag |}].

Definition registered (eventName : string) (h : Handler) (l : Listener) : bool :=
  String.eqb eventName (on_event l) && Nat.eqb (handler_id h) (handler_id (listener l)).

(** Drop the first listener of [ls] registered for the handler. *)
Fixpoint drop_first (eventName : string) (h : Handler) (ls : list Listener)
  : list Listener :=
  match ls with
  | [] => []
  | l :: rest =>
      if registered eventName h l then rest
      else l :: drop_first eventName h rest
  end.

(** [removeListener] takes out the most recently added instance. *)
Definition removeListener (eventName : string) (h : Handler)
  (em : EventEmitter) : EventEmitter :=
  rev (drop_first eventName h (rev em)).

Inductive Effect : Type :=
| Publish (eventName : string) (data : JSValue)
| Invoke (handler : nat) (data : JSValue)
| Report (err : JSError) (eventName data : JSValue)
| Fetch (index : nat) (request : Request)
| Settle (index : nat).

Definition listeners_of (eventName : string) (em : EventEmitter) : list Listener :=
  List.filter (fun l => String.eqb eventName (on_event l)) em.

Definition invoke (data : JSValue) (l : Listener) : Effect :=
  Invoke (handler_id (listener l)) data.

(** Calls the listeners of the event in order, up to the first that
    throws; returns the listeners that remain registered, the calls
    made and what was thrown. *)
Fixpoint call_listeners (eventName : string) (data : JSValue)
  (ls : list Listener) : list Listener * list Effect * option Thrown :=
  match ls with
  | [] => ([], [], None)
  | l :: rest =>
      if String.eqb eventName (on_event l) then
        match run (listener l) data with
        | Some thrown =>
            (if is_once l then rest else l :: rest, [invoke data l], Some thrown)
        | None =>
            let '(rest', calls, thrown) := call_listeners eventName data rest in
            (if is_once l then rest' else l :: rest', invoke data l :: calls, thrown)
        end
      else
        let '(rest', calls, thrown) := call_listeners eventName data rest in
        (l :: rest', calls, thrown)
  end.

(** What the program takes from the platform besides [EventEmitter]
    and [fetch]. *)
Record Platform := {
  (** [util.inspect], used in the message of an unhandled ['error'] *)
  inspect : JSValue -> string;
  (** [JSON.parse]; the left case is the [SyntaxError] it throws *)
  JSON_parse : string -> JSError + JSValue;
  (** [JSON.stringify] of an envelope built from tree-shaped data *)
  JSON_stringify : JSValue -> string
}.

(** ** The network, as one [emit] sees it *)

Inductive FetchOutcome : Type :=
| Responded (status : N) (statusText : string)
| Failed (reason : Thrown).

(** What happens to the request issued as number [index], and when. *)
Record Reply := {
  outcome : FetchOutcome;
  latency : nat
}.

Definition Network : Type := nat -> Request -> Reply.

(** [response.ok] *)
Definition ok (status : N) : bool := ((200 <=? status) && (status <=? 299))%N.

(** A string-or-undefined used as a condition. *)
Definition truthy (u : option string) : bool :=
  match u with
  | Some s => negb (String.eqb s "")
  | None => false
  end.

(** ** Dispatcher state *)

Definition ErrorHandler : Type := JSError -> JSValue -> JSValue -> option Thrown.

Record MikroEventOptions := {
  errorHandler : ErrorHandler
}.

Record MikroEvent := {
  emitter : EventEmitter;
  targets : Targets;
  options : MikroEventOptions
}.

(** [(error) => console.error(error)] *)
Definition console_error : ErrorHandler := fun _ _ _ => None.

(** The constructor.  [maxListeners] only moves the threshold of a
    warning, so it leaves no trace in the state. *)
Definition new_MikroEvent (handler : option ErrorHandler) : MikroEvent :=
  {| emitter := new_EventEmitter;
     targets := [];
     options := {| errorHandler := or_default handler console_error |} |}.

Definition with_emitter (self : MikroEvent) (em : EventEmitter) : MikroEvent :=
  {| emitter := em; targets := targets self; options := options self |}.

Definition on (eventName : string) (h : Handler) (self : MikroEvent) : MikroEvent :=
  with_emitter self (addListener false eventName h (emitter self)).

Definition once (eventName : string) (h : Handler) (self : MikroEvent) : MikroEvent :=
  with_emitter self (addListener true eventName h (emitter self)).

Definition off (eventName : string) (h : Handler) (self : MikroEvent) : MikroEvent :=
  with_emitter self (removeListener eventName h (emitter self)).

(** How a promise settles. *)
Inductive Completion (A : Type) : Type :=
| Resolves (a : A)
| Rejects (reason : Thrown).
Arguments Resolves {A} a.
Arguments Rejects {A} reason.

Definition makeError (targetName eventName : string) (err : JSError) : EmitError :=
  {| target := targetName; event := eventName; error := err |}.

(** [result.errors.push(e)] and [result.success = false] *)
Definition push_error (result : EmitResult) (e : EmitError) : EmitResult :=
  {| success := success result; errors := errors result ++ [e] |}.

Definition mark_failed (result : EmitResult) : EmitResult :=
  {| success := false; errors := errors result |}.

Definition status_text (status : N) : string :=
  NilZero.string_of_uint (N.to_uint status).

Definition http_error (status : N) (statusText : string) : JSError :=
  new_Error ("HTTP error! Status: " +:+ status_text status +:+ ": " +:+ statusText).

(** Insertion by latency: the order in which replies arrive. *)
Fixpoint arrive {A : Type} (x : A * Reply) (queue : list (A * Reply))
  : list (A * Reply) :=
  match queue with
  | [] => [x]
  | y :: rest =>
      if Nat.ltb (latency (snd x)) (latency (snd y)) then x :: queue
      else y :: arrive x rest
  end.

Definition completion_order {A : Type} (issued : list (A * Reply))
  : list (A * Reply) :=
  fold_right arrive [] issued.

Section Dispatch.
Context (platform : Platform).

Definition unhandled_error (data : JSValue) : JSError :=
  new_Error ("Unhandled error. (" +:+ inspect platform data +:+ ")").

(** [EventEmitter.prototype.emit(eventName, data)] *)
Definition EventEmitter_emit (eventName : string) (data : JSValue)
  (em : EventEmitter) : EventEmitter * list Effect * option Thrown :=
  if String.eqb eventName "error" && Nat.eqb (length (listeners_of eventName em)) 0
  then (em, [], Some (ThrownError (unhandled_error data)))
  else call_listeners eventName data em.

(** The [forEach] over the targets without a url.  The first
    component is the exception that leaves the loop, if any. *)
Fixpoint emit_local (handler : ErrorHandler) (eventName : string)
  (data : JSValue) (locals : list Target) (em : EventEmitter)
  (result : EmitResult)
  : option Thrown * EventEmitter * EmitResult * list Effect :=
  match locals with
  | [] => (None, em, result, [])
  | t :: rest =>
      let '(em1, calls, thrown) := EventEmitter_emit eventName data em in
      let published := Publish eventName data :: calls in
      match thrown with
      | None =>
          let '(escaped, em2, result2, trace) :=
            emit_local handler eventName data rest em1 result in
          (escaped, em2, result2, published ++ trace)
      | Some caught =>
          let err := actualError caught in
          let result1 := push_error result (makeError (name t) eventName err) in
          let report := Report err (VStr eventName) data in
          match handler err (VStr eventName) data with
          | Some escaped => (Some escaped, em1, result1, published ++ [report])
          | None =>
              let '(escaped, em2, result2, trace) :=
                emit_local handler eventName data rest em1 (mark_failed result1) in
              (escaped, em2, result2, published ++ report :: trace)
          end
      end
  end.

Definition request_of (t : Target) (eventName : string) (data : JSValue)
  : Request :=
  {| req_url := url t;
     req_method := "POST";
     req_headers := headers t ∪ {[ "Content-Type" := "application/json" ]};
     req_body := JSON_stringify platform
                   (VObj [("eventName", VStr eventName); ("data", data)]) |}.

(** The [catch] block of the callback given to [externalTargets.map].
    When the error handler throws here the callback's promise
    rejects, which [Promise.allSettled] absorbs. *)
Definition remote_catch (handler : ErrorHandler) (eventName : string)
  (data : JSValue) (t : Target) (caught : Thrown) (result : EmitResult)
  : EmitResult * list Effect :=
  let err := actualError caught in
  let result1 := push_error result (makeError (name t) eventName err) in
  let report := Report err (VStr eventName) data in
  match handler err (VStr eventName) data with
  | Some _ => (result1, [report])
  | None => (mark_failed result1, [report])
  end.

(** What the callback does once its [await fetch(...)] is over. *)
Definition after_fetch (handler : ErrorHandler) (eventName : string)
  (data : JSValue) (t : Target) (o : FetchOutcome) (result : EmitResult)
  : EmitResult * list Effect :=
  match o with
  | Failed reason => remote_catch handler eventName data t reason result
  | Responded status statusText =>
      if ok status then (result, [])
      else
        let httpError := http_error status statusText in
        let result1 := push_error result (makeError (name t) eventName httpError) in
        let report := Report httpError (VStr eventName) data in
        match handler httpError (VStr eventName) data with
        | None => (mark_failed result1, [report])
        | Some caught =>
            let '(result2, trace) :=
              remote_catch handler eventName data t caught result1 in
            (result2, report :: trace)
        end
  end.

(** The synchronous part of [externalTargets.map]: every callback
    runs up to its [await], so the requests leave in registry order. *)
Fixpoint issue (net : Network) (eventName : string) (data : JSValue)
  (index : nat) (externalTargets : list Target)
  : list (nat * Target * Request * Reply) :=
  match externalTargets with
  | [] => []
  | t :: rest =>
      let request := request_of t eventName data in
      (index, t, request, net index request)
        :: issue net eventName data (S index) rest
  end.

(** The callbacks resume as the replies arrive, until
    [Promise.allSettled] has seen every one of them. *)
Fixpoint settle_all (handler : ErrorHandler) (eventName : string)
  (data : JSValue) (arrivals : list (nat * Target * Request * Reply))
  (result : EmitResult) : EmitResult * list Effect :=
  match arrivals with
  | [] => (result, [])
  | (index, t, _, reply) :: rest =>
      let '(result1, trace1) :=
        after_fetch handler eventName data t (outcome reply) result in
      let '(result2, trace2) :=
        settle_all handler eventName data rest result1 in
      (result2, trace1 ++ Settle index :: trace2)
  end.

Definition is_local (t : Target) : bool := negb (truthy (url t)).
Definition is_external (t : Target) : bool := truthy (url t).

(** [async emit(eventName, data)] *)
Definition emit (self : MikroEvent) (net : Network) (eventName : string)
  (data : JSValue) : Completion EmitResult * MikroEvent * list Effect :=
  let result := {| success := true; errors := [] |} in
  let handler := errorHandler (options self) in
  let matched := resolveTargets eventName (targets self) in
  let '(escaped, em, result1, trace1) :=
    emit_local handler eventName data (List.filter is_local matched)
      (emitter self) result in
  match escaped with
  | Some thrown => (Rejects thrown, with_emitter self em, trace1)
  | None =>
      let externalTargets := List.filter is_external matched in
      let issued := issue net eventName data 0 externalTargets in
      let '(result2, trace2) :=
        settle_all handler eventName data (completion_order issued) result1 in
      (Resolves result2, with_emitter self em,
       trace1 ++ map (fun r => Fetch (fst (fst (fst r))) (snd (fst r))) issued
              ++ trace2)
  end.

(** ** Inbound adapter *)

(** [value[key]] for the two keys the adapter reads; only a plain
    object can own them. *)
Definition property (key : string) (v : JSValue) : JSValue :=
  match v with
  | VObj props => or_default (JSObject.get key props) VUndefined
  | _ => VUndefined
  end.

(** [const { eventName, data } = value] *)
Definition destructure (v : JSValue) : Thrown + (JSValue * JSValue) :=
  match v with
  | VUndefined | VNull =>
      inl (ThrownError
             {| err_name := "TypeError";
                message := "Cannot destructure property 'eventName'" |})
  | _ => inr (property "eventName" v, property "data" v)
  end.

(** A callback handed to [process.nextTick], by the values it closes
    over. *)
Record Deferred := {
  deferred_eventName : JSValue;
  deferred_data : JSValue
}.

(** [async handleIncomingEvent(body)] *)
Definition handleIncomingEvent (self : MikroEvent) (body : JSValue)
  : Completion unit * list Deferred * list Effect :=
  let parsed : Thrown + JSValue :=
    match body with
    | VStr text =>
        match JSON_parse platform text with
        | inl syntaxError => inl (ThrownError syntaxError)
        | inr v => inr v
        end
    | _ => inr body
    end in
  match (match parsed with inl e => inl e | inr v => destructure v end) with
  | inr (eventName, data) =>
      (Resolves tt,
       [{| deferred_eventName := eventName; deferred_data := data |}], [])
  | inl caught =>
      let err := actualError caught in
      let report := Report err (VStr "parse_event") VUndefined in
      match errorHandler (options self) err (VStr "parse_event") VUndefined with
      | Some escaped => (Rejects escaped, [], [report])
      | None => (Rejects caught, [], [report])
      end
  end.

(** The deferred callback: the event is published under the key
    its name converts to.  The notifier compares the name itself with
    ['error'], so only the string is the error event.  What the error
    handler throws here is caught by nobody. *)
Definition run_deferred (self : MikroEvent) (d : Deferred)
  : option Thrown * MikroEvent * list Effect :=
  let key := ToString (deferred_eventName d) in
  let '(em, calls, thrown) :=
    match deferred_eventName d with
    | VStr eventName => EventEmitter_emit eventName (deferred_data d) (emitter self)
    | _ => call_listeners key (deferred_data d) (emitter self)
    end in
  let published := Publish key (deferred_data d) :: calls in
  match thrown with
  | None => (None, with_emitter self em, published)
  | Some caught =>
      let err := actualError caught in
      (errorHandler (options self) err (deferred_eventName d) (deferred_data d),
       with_emitter self em,
       published ++ [Report err (deferred_eventName d) (deferred_data d)])
  end.

End Dispatch.

(** ** Definitions used to state the properties *)

(** The object literal [addTarget] stores for an accepted entry. *)
Definition stored (t : NewTarget) : Target :=
  {| name := new_name t;
     url := new_url t;
     headers := or_default (new_headers t) ∅;
     events := or_default (new_events t) [] |}.

(** [addEventToTarget(n, e)] called [k] times in a row. *)
Definition add_repeatedly (realm : Realm) (k : nat) (n e : string)
  (reg : Targets) : Targets :=
  Nat.iter k (fun r => registry_of (addEventToTarget realm n [e] r)) reg.

(** How often an event name occurs in a list. *)
Definition occurrences (e : string) (evs : list string) : nat :=
  count_occ String.string_dec evs e.

(** Kinds of effects, to count them in a trace. *)
Definition is_publish (e : Effect) : bool :=
  match e with Publish _ _ => true | _ => false end.
Definition is_invoke (e : Effect) : bool :=
  match e with Invoke _ _ => true | _ => false end.
Definition is_report (e : Effect) : bool :=
  match e with Report _ _ _ => true | _ => false end.
Definition is_fetch (e : Effect) : bool :=
  match e with Fetch _ _ => true | _ => false end.
Definition is_settle (e : Effect) : bool :=
  match e with Settle _ => true | _ => false end.

Definition count (kind : Effect -> bool) (trace : list Effect) : nat :=
  length (List.filter kind trace).

(** A remote delivery fails on a response outside 200..299 and on a
    request that does not complete. *)
Definition failed (o : FetchOutcome) : bool :=
  match o with
  | Responded status _ => negb (ok status)
  | Failed _ => true
  end.

(** The matched targets of an emit, by kind. *)
Definition local_targets (eventName : string) (self : MikroEvent) : list Target :=
  List.filter is_local (resolveTargets eventName (targets self)).

Definition remote_targets (eventName : string) (self : MikroEvent) : list Target :=
  List.filter is_external (resolveTargets eventName (targets self)).

(** M: how many of the remote targets of an emit fail. *)
Definition remote_failures (platform : Platform) (net : Network)
  (eventName : string) (data : JSValue) (self : MikroEvent) : nat :=
  length (List.filter (fun r => failed (outcome (snd r)))
            (issue platform net eventName data 0 (remote_targets eventName self))).

(** How many of [k] publishes in a row throw. *)
Fixpoint failing_publishes (platform : Platform) (eventName : string)
  (data : JSValue) (k : nat) (em : EventEmitter) : nat :=
  match k with
  | 0 => 0
  | S k' =>
      let '(em1, _, thrown) := EventEmitter_emit platform eventName data em in
      (match thrown with Some _ => 1 | None => 0 end)
        + failing_publishes platform eventName data k' em1
  end.

(** L: how many of the local deliveries of an emit fail. *)
Definition local_failures (platform : Platform) (eventName : string)
  (data : JSValue) (self : MikroEvent) : nat :=
  failing_publishes platform eventName data
    (length (local_targets eventName self)) (emitter self).

Definition only_calls (trace : list Effect) : Prop :=
  Forall (fun e => is_invoke e = true) trace.

(** What is left of the listeners after a publish that ran through. *)
Definition after_publish (eventName : string) (ls : list Listener) : list Listener :=
  List.filter (fun l => negb (String.eqb eventName (on_event l) && is_once l)) ls.

(** Effects of the local phase, and of the remote phase. *)
Definition local_effect (e : Effect) : Prop :=
  is_fetch e = false /\ is_settle e = false.

Definition remote_effect (e : Effect) : Prop :=
  is_publish e = false /\ is_invoke e = false.

(** The parts of an issued request. *)
Definition index_of (r : nat * Target * Request * Reply) : nat := fst (fst (fst r)).
Definition target_of (r : nat * Target * Request * Reply) : Target := snd (fst (fst r)).

(** The error a failed delivery is recorded with. *)
Definition delivery_error (o : FetchOutcome) : JSError :=
  match o with
  | Responded status statusText => http_error status statusText
  | Failed reason => actualError reason
  end.

(** A body that is already an object (arrays included), as opposed to
    text. *)
Definition structured (body : JSValue) : bool :=
  match body with
  | VObj _ | VArr _ => true
  | _ => false
  end.

(** What one publish leaves in the trace when it calls [ls]. *)
Definition one_publish (eventName : string) (data : JSValue)
  (ls : list Listener) : list Effect :=
  Publish eventName data :: map (invoke data) ls.

Definition persistent (l : Listener) : bool := negb (is_once l).

(** [k] publishes in a row when no listener throws: the first calls
    every listener of the event, the later ones those added with [on]. *)
Definition quiet_publishes (eventName : string) (data : JSValue)
  (em : EventEmitter) (k : nat) : list Effect :=
  match k with
  | 0 => []
  | S k' =>
      one_publish eventName data (listeners_of eventName em)
        ++ concat (repeat
                     (one_publish eventName data
                        (List.filter persistent (listeners_of eventName em)))
                     k')
  end.

Definition trace_of {A : Type} (r : A * MikroEvent * list Effect) : list Effect :=
  snd r.

(** An error handler that returns normally whatever it is given. *)
Definition returns_normally (handler : ErrorHandler) : Prop :=
  forall err eventName data, handler err eventName data = None.

(** The listeners a publish calls, of those registered for the event
    in the order of their registration: all up to the first that
    throws, that one included. *)
Fixpoint up_to_first_throw (data : JSValue) (ls : list Listener) : list Listener :=
  match ls with
  | [] => []
  | l :: rest =>
      match run (listener l) data with
      | Some _ => [l]
      | None => l :: up_to_first_throw data rest
      end
  end.

(** What the first listener that throws throws. *)
Fixpoint first_thrown (data : JSValue) (ls : list Listener) : option Thrown :=
  match ls with
  | [] => None
  | l :: rest =>
      match run (listener l) data with
      | Some thrown => Some thrown
      | None => first_thrown data rest
      end
  end.

(** What a publish to the listeners [ls] of the event throws:
    ['error'] without a listener is an error of its own. *)
Definition publish_throws (platform : Platform) (eventName : string)
  (data : JSValue) (ls : list Listener) : option Thrown :=
  match ls with
  | [] =>
      if String.eqb eventName "error"
      then Some (ThrownError (unhandled_error platform data))
      else None
  | _ => first_thrown data ls
  end.

(** The listeners of the event that are registered after the publish:
    of those it called the ones added with [on], and all it did not
    reach. *)
Definition left_listening (data : JSValue) (ls : list Listener) : list Listener :=
  List.filter persistent (up_to_first_throw data ls)
    ++ skipn (length (up_to_first_throw data ls)) ls.

(** The local phase for [k] local targets when the error handler
    returns normally, from the listeners [ls] of the event on: every
    publish with the calls it makes and the report of what it
    throws. *)
Fixpoint local_publishes (platform : Platform) (eventName : string)
  (data : JSValue) (k : nat) (ls : list Listener) : list Effect :=
  match k with
  | 0 => []
  | S k' =>
      one_publish eventName data (up_to_first_throw data ls)
        ++ match publish_throws platform eventName data ls with
           | Some caught => [Report (actualError caught) (VStr eventName) data]
           | None => []
           end
        ++ local_publishes platform eventName data k' (left_listening data ls)
  end.

(** The entries the failed local deliveries leave: one for every
    local target whose publish throws, with what it threw. *)
Fixpoint local_entries (platform : Platform) (eventName : string)
  (data : JSValue) (locals : list Target) (ls : list Listener) : list EmitError :=
  match locals with
  | [] => []
  | t :: rest =>
      match publish_throws platform eventName data ls with
      | Some caught => [makeError (name t) eventName (actualError caught)]
      | None => []
      end
        ++ local_entries platform eventName data rest (left_listening data ls)
  end.

(** ** Inputs to evaluate the model on *)

Definition unexpected_token : JSError :=
  {| err_name := "SyntaxError"; message := "Unexpected token" |}.

(** A platform whose parser knows two documents and rejects every
    other text, and whose printers render every value alike. *)
Definition small_platform : Platform :=
  {| inspect := fun _ => "[value]";
     JSON_parse := fun text =>
       if String.eqb text "null" then inr VNull
       else if String.eqb text "{}" then inr (VObj [])
       else inl unexpected_token;
     JSON_stringify := fun _ => "{}" |}.

Definition local_target (n : string) (evs : list string) : NewTarget :=
  {| new_name := n; new_url := None; new_headers := None; new_events := Some evs |}.

Definition remote_target (n u : string) (evs : list string) : NewTarget :=
  {| new_name := n; new_url := Some u; new_headers := None; new_events := Some evs |}.

(** [addTarget] as a method of the dispatcher, in a realm nothing
    has been written to. *)
Definition register (batch : list NewTarget) (self : MikroEvent) : MikroEvent :=
  {| emitter := emitter self;
     targets := registry_of (addTarget pristine batch (targets self));
     options := options self |}.

Definition throwing_handler : ErrorHandler :=
  fun _ _ _ => Some (ThrownOther "handler failed").

Definition failing_listener : Handler :=
  {| handler_id := 1; run := fun _ => Some (ThrownError (new_Error "Handler error")) |}.

Definition recording_listener : Handler :=
  {| handler_id := 2; run := fun _ => None |}.

(** A server that answers 500 under [/error] and 200 elsewhere,
    later requests being answered later. *)
Definition test_server : Network :=
  fun index request =>
    {| outcome :=
         match req_url request with
         | Some "http://localhost/error" => Responded 500 "Internal Server Error"
         | _ => Responded 200 "OK"
         end;
       latency := index |}.

(** Two remote targets and a local one on the same event, with a
    listener that records. *)
Definition partial_failures : MikroEvent :=
  on "test.event" recording_listener
    (register [remote_target "success_target" "http://localhost/success" ["test.event"];
               remote_target "failing_target" "http://localhost/error" ["test.event"];
               local_target "internal_target" ["test.event"]]
       (new_MikroEvent None)).

(** One local target whose only listener throws. *)
Definition local_failure (handler : option ErrorHandler) : MikroEvent :=
  on "x" failing_listener
    (register [local_target "a" ["x"]] (new_MikroEvent handler)).

(** One remote target, and an error handler that throws. *)
Definition remote_failure : MikroEvent :=
  register [remote_target "b" "http://localhost/error" ["x"]]
    (new_MikroEvent (Some throwing_handler)).

(** Two local targets on one event; the first listener throws, the
    second would record. *)
Definition two_locals (handler : option ErrorHandler) : MikroEvent :=
  on "x" recording_listener
    (on "x" failing_listener
       (register [local_target "a" ["x"]; local_target "b" ["*"]]
          (new_MikroEvent handler))).

(** Two local targets on one event, a [once] listener and an [on]
    listener, neither of which throws. *)
Definition two_locals_quiet : MikroEvent :=
  on "x" recording_listener
    (once "x" {| handler_id := 3; run := fun _ => None |}
       (register [local_target "a" ["x"]; local_target "b" ["*"]]
          (new_MikroEvent None))).

(** A target registered with the same event name twice. *)
Definition duplicated : Targets :=
  registry_of (addTarget pristine [local_target "t" ["a"; "a"]] []).

Definition system_a : Targets :=
  registry_of
    (addTarget pristine
       [{| new_name := "system_a";
           new_url := Some "http://localhost:8000";
           new_headers := Some {[ "Authorization" := "my-token"; "X-Trace" := "1" ]};
           new_events := Some ["user.created"] |}] []).

(** ** Request/response middleware *)

(** A value used as a condition. *)
Definition truthy_value (v : JSValue) : bool :=
  match v with
  | VUndefined | VNull => false
  | VBool b => b
  | VNum rendering => negb (String.eqb rendering "0" || String.eqb rendering "NaN")
  | VStr s => negb (String.eqb s "")
  | VArr _ | VObj _ => true
  end.

(** What the middleware reads of [req]: its method, its [body]
    ([undefined] when the host has not materialized one) and, for a
    body still to be read, the chunks the ['data'] events deliver
    before ['end'], each as [chunk.toString()] gives it. *)
Record IncomingRequest := {
  incoming_method : string;
  incoming_body : JSValue;
  incoming_chunks : list string
}.

(** What the middleware does to [res] and [next], and what
    [handleIncomingEvent] did on its behalf.  Assignments to [res]
    and calls of [res.end] and [next] are taken to return. *)
Inductive Reaction : Type :=
| Next (error : option Thrown)
| StatusCode (code : N)
| End (text : option string)
| Inbound (e : Effect).

(** [JSON.stringify({ error: 'Invalid event format' })] *)
Definition invalid_event_format (platform : Platform) : string :=
  JSON_stringify platform (VObj [("error", VStr "Invalid event format")]).

(** The [try]/[catch] around [await this.handleIncomingEvent(...)],
    the same in both branches. *)
Definition answer (platform : Platform) (self : MikroEvent) (body : JSValue)
  (has_next : bool) : list Reaction * list Deferred :=
  let '(completion, deferred, effects) := handleIncomingEvent platform self body in
  match completion with
  | Resolves _ =>
      (map Inbound effects ++ [StatusCode 202; End None], deferred)
  | Rejects error =>
      (map Inbound effects
         ++ [StatusCode 400; End (Some (invalid_event_format platform))]
         ++ (if has_next then [Next (Some error)] else []),
       deferred)
  end.

(** [body += chunk.toString()] over the chunks, from [''] *)
Definition accumulate (chunks : list string) : string :=
  fold_left String.append chunks "".

(** The function [createMiddleware()] returns, applied to a request
    whose stream ends; [has_next] tells whether [next] was given. *)
Definition middleware (platform : Platform) (self : MikroEvent)
  (req : IncomingRequest) (has_next : bool) : list Reaction * list Deferred :=
  if negb (String.eqb (incoming_method req) "POST") then
    (if has_next then [Next None] else [], [])
  else if truthy_value (incoming_body req) then
    answer platform self (incoming_body req) has_next
  else
    answer platform self (VStr (accumulate (incoming_chunks req))) has_next.

(** ** Definitions used to state further properties *)

(** A registry as the methods build it: no name twice, and every
    target stored under its own name. *)
Definition well_formed (reg : Targets) : Prop :=
  NoDup (JSObject.keys reg) /\
  Forall (fun entry => name (snd entry) = fst entry) reg.

(** The order in which JavaScript enumerates the keys of an object:
    array indices first, in ascending order, then the other keys. *)
Definition enumerates_before (k1 k2 : string) : Prop :=
  match JSObject.array_index k1, JSObject.array_index k2 with
  | Some i, Some j => (i <= j)%N
  | Some _, None => True
  | None, Some _ => False
  | None, None => True
  end.

Definition enumeration_order (reg : Targets) : Prop :=
  StronglySorted enumerates_before (JSObject.keys reg).

(** The entry [addTarget] writes for a target. *)
Definition entry_of (t : NewTarget) : string * Target := (new_name t, stored t).

(** The method calls that change the registry. *)
Inductive RegistryCall : Type :=
| CallAddTarget (batch : list NewTarget)
| CallUpdateTarget (n : string) (update : TargetUpdate)
| CallRemoveTarget (n : string)
| CallAddEventToTarget (n : string) (eventsArray : list string).

Definition perform (realm : Realm) (call : RegistryCall) (reg : Targets)
  : MethodResult :=
  match call with
  | CallAddTarget batch => addTarget realm batch reg
  | CallUpdateTarget n update => updateTarget realm n update reg
  | CallRemoveTarget n => removeTarget realm n reg
  | CallAddEventToTarget n eventsArray => addEventToTarget realm n eventsArray reg
  end.

(** A sequence of calls, each in the realm it finds, from a registry
    on; a call that throws leaves the registry it found. *)
Definition perform_all (calls : list (Realm * RegistryCall)) (reg : Targets)
  : Targets :=
  fold_left (fun r call => registry_of (perform (fst call) (snd call) r)) calls reg.

(** One update that does what two updates in a row do. *)
Definition combine_updates (first second : TargetUpdate) : TargetUpdate :=
  {| update_url :=
       match update_url second with
       | Some u => Some u
       | None => update_url first
       end;
     update_headers :=
       match update_headers second, update_headers first with
       | Some h2, Some h1 => Some (h2 ∪ h1)
       | Some h2, None => Some h2
       | None, h1 => h1
       end;
     update_events :=
       match update_events second with
       | Some es => Some es
       | None => update_events first
       end |}.

(** The requests an emit sends: one per remote target, numbered in
    registry order. *)
Definition expected_requests (platform : Platform) (eventName : string)
  (data : JSValue) (remotes : list Target) : list Effect :=
  map (fun p => Fetch (fst p) (request_of platform (snd p) eventName data))
    (combine (seq 0 (length remotes)) remotes).

(** The dispatcher an emit leaves behind. *)
Definition state_after {A : Type} (r : A * MikroEvent * list Effect) : MikroEvent :=
  snd (fst r).

(** The entry a failed remote delivery leaves in [errors]. *)
Definition remote_entry (eventName : string)
  (arrival : nat * Target * Request * Reply) : EmitError :=
  makeError (name (target_of arrival)) eventName
    (delivery_error (outcome (snd arrival))).

Definition arrival_failed (arrival : nat * Target * Request * Reply) : bool :=
  failed (outcome (snd arrival)).

(** The replies to the requests of an emit, in the order in which
    they arrive. *)
Definition arrivals (platform : Platform) (net : Network) (eventName : string)
  (data : JSValue) (self : MikroEvent) : list (nat * Target * Request * Reply) :=
  completion_order
    (issue platform net eventName data 0 (remote_targets eventName self)).

(** What one publish leaves in the trace when the listener [l] throws
    after the listeners [before] have returned, and the failure is
    reported. *)
Definition failed_publish (eventName : string) (data : JSValue) (err : JSError)
  (before : list Listener) (l : Listener) : list Effect :=
  one_publish eventName data (before ++ [l]) ++ [Report err (VStr eventName) data].

(** [k] such publishes in a row: after the first, the [once]
    listeners before [l] are gone. *)
Definition failed_publishes (eventName : string) (data : JSValue) (err : JSError)
  (before : list Listener) (l : Listener) (k : nat) : list Effect :=
  match k with
  | 0 => []
  | S k' =>
      failed_publish eventName data err before l
        ++ concat (repeat
                     (failed_publish eventName data err
                        (List.filter persistent before) l)
                     k')
  end.

(** The result once the targets [failing] have been recorded as
    failed with one and the same error. *)
Definition record_failures (result : EmitResult) (eventName : string)
  (err : JSError) (failing : list Target) : EmitResult :=
  {| success := match failing with [] => success result | _ => false end;
     errors := errors result
                 ++ map (fun t => makeError (name t) eventName err) failing |}.

(** ** Further inputs *)

(** Names that are array indices registered after an ordinary name. *)
Definition numbered_calls : list (Realm * RegistryCall) :=
  [(pristine, CallAddTarget [local_target "b" ["x"]; local_target "10" ["x"]]);
   (pristine, CallAddTarget [local_target "9" ["x"]])].

(** A target that lists the event twice and the wildcard as well. *)
Definition repeated_subscription : list (Realm * RegistryCall) :=
  [(pristine,
    CallAddTarget [remote_target "hook" "http://localhost/success" ["x"; "x"; "*"]]);
   (pristine, CallAddEventToTarget "hook" ["y"])].

Definition user_created_envelope : list (string * JSValue) :=
  [("eventName", VStr "user.created");
   ("data", VObj [("id", VStr "123")])].

Definition listening (h : Handler) : MikroEvent :=
  on "user.created" h (new_MikroEvent None).

(** * Properties *)

(** ** Plain objects *)

Module JSObjectFacts.
Import JSObject.

Section WithValue.
Context {V : Type}.
Implicit Types (o : t V) (v w : V) (key k : string).

Lemma has_true key o : has key o = true <-> exists v, get key o = Some v.
Proof.
  unfold has. destruct (get key o) as [v|]; split; intros H.
  - eauto.
  - reflexivity.
  - discriminate.
  - destruct H as [v H]. discriminate.
Qed.

Lemma has_false key o : has key o = false <-> get key o = None.
Proof. unfold has. destruct (get key o); split; congruence. Qed.

Lemma get_replace_eq key v w o :
  get key o = Some w -> get key (replace key v o) = Some v.
Proof.
  induction o as [|[k x] o IH]; simpl; [discriminate|].
  destruct (String.eqb_spec key k) as [->|Hne]; simpl.
  - intros _. now rewrite String.eqb_refl.
  - intros H. apply String.eqb_neq in Hne. rewrite Hne. auto.
Qed.

Lemma get_replace_ne key k v o :
  k <> key -> get k (replace key v o) = get k o.
Proof.
  intros Hne. induction o as [|[k' x] o IH]; simpl; [reflexivity|].
  destruct (String.eqb_spec key k') as [->|Hk]; simpl.
  - apply String.eqb_neq in Hne. now rewrite Hne.
  - now rewrite IH.
Qed.

Lemma replace_absent key v o : get key o = None -> replace key v o = o.
Proof.
  induction o as [|[k x] o IH]; simpl; [reflexivity|].
  destruct (String.eqb key k); [discriminate|].
  intros H. now rewrite IH.
Qed.

Lemma replace_replace key v w o :
  replace key v (replace key w o) = replace key v o.
Proof.
  induction o as [|[k x] o IH]; simpl; [reflexivity|].
  destruct (String.eqb key k) eqn:E; simpl; rewrite E; [reflexivity|].
  now rewrite IH.
Qed.

Lemma keys_replace key v o : keys (replace key v o) = keys o.
Proof.
  induction o as [|[k x] o IH]; simpl; [reflexivity|].
  destruct (String.eqb key k); simpl; [reflexivity|].
  f_equal. exact IH.
Qed.

Lemma get_app key o o' :
  get key (o ++ o') = match get key o with Some v => Some v | None => get key o' end.
Proof.
  induction o as [|[k x] o IH]; simpl; [reflexivity|].
  now destruct (String.eqb key k).
Qed.

Lemma get_place_index_eq i key v o :
  get key o = None -> get key (place_index i key v o) = Some v.
Proof.
  induction o as [|[k x] o IH]; simpl.
  - now rewrite String.eqb_refl.
  - destruct (String.eqb key k) eqn:E; [discriminate|]. intros H.
    destruct (array_index k) as [j|]; [destruct (i <? j)%N|];
      simpl; rewrite ?String.eqb_refl, ?E; auto.
Qed.

Lemma get_place_index_ne i key k v o :
  k <> key -> get k (place_index i key v o) = get k o.
Proof.
  intros Hne. apply String.eqb_neq in Hne.
  induction o as [|[k' x] o IH]; simpl.
  - now rewrite Hne.
  - destruct (array_index k') as [j|]; [destruct (i <? j)%N|];
      simpl; rewrite ?Hne; try reflexivity.
    now rewrite IH.
Qed.

Lemma get_define_eq key v o :
  get key o = None -> get key (define key v o) = Some v.
Proof.
  intros H. unfold define. destruct (array_index key).
  - now apply get_place_index_eq.
  - rewrite get_app, H. simpl. now rewrite String.eqb_refl.
Qed.

Lemma get_define_ne key k v o :
  k <> key -> get k (define key v o) = get k o.
Proof.
  intros Hne. unfold define. destruct (array_index key).
  - now apply get_place_index_ne.
  - rewrite get_app. simpl. apply String.eqb_neq in Hne. rewrite Hne.
    now destruct (get k o).
Qed.

Lemma get_set_eq key v o : get key (set key v o) = Some v.
Proof.
  unfold set. destruct (has key o) eqn:E.
  - apply has_true in E as [w E]. eapply get_replace_eq, E.
  - apply has_false in E. now apply get_define_eq.
Qed.

Lemma get_set_ne key k v o : k <> key -> get k (set key v o) = get k o.
Proof.
  intros Hne. unfold set. destruct (has key o).
  - now apply get_replace_ne.
  - now apply get_define_ne.
Qed.

Lemma get_delete_eq key o : get key (delete key o) = None.
Proof.
  induction o as [|[k x] o IH]; simpl; [reflexivity|].
  destruct (String.eqb key k) eqn:E; simpl; [assumption|].
  now rewrite E.
Qed.

Lemma get_delete_ne key k o : k <> key -> get k (delete key o) = get k o.
Proof.
  intros Hne. induction o as [|[k' x] o IH]; simpl; [reflexivity|].
  destruct (String.eqb_spec key k') as [->|Hk]; simpl.
  - apply String.eqb_neq in Hne. now rewrite Hne.
  - now rewrite IH.
Qed.

Lemma get_In key v o : get key o = Some v -> In v (values o).
Proof.
  induction o as [|[k x] o IH]; simpl; [discriminate|].
  destruct (String.eqb key k); [intros [= ->]; now left|auto].
Qed.

End WithValue.
End JSObjectFacts.

Import JSObjectFacts.

(** ** Target registry *)

Lemma includes_In (xs : list string) (x : string) :
  includes xs x = true <-> In x xs.
Proof.
  unfold includes. rewrite existsb_exists. split.
  - intros [y [Hy E]]. apply String.eqb_eq in E. now subst.
  - intros H. exists x. split; [assumption | apply String.eqb_refl].
Qed.

Lemma includes_false (xs : list string) (x : string) :
  includes xs x = false <-> ~ In x xs.
Proof.
  rewrite <- includes_In. destruct (includes xs x); split; congruence.
Qed.

Lemma matches_spec (eventName : string) (t : Target) :
  matches eventName t = true <-> In eventName (events t) \/ In "*" (events t).
Proof.
  unfold matches. now rewrite orb_true_iff, !includes_In.
Qed.

Lemma filter_sublist {A : Type} (p : A -> bool) (l : list A) :
  sublist (List.filter p l) l.
Proof.
  induction l as [|x l IH]; simpl.
  - constructor.
  - destruct (p x); now constructor.
Qed.

(** C7.  The targets an emit addresses are the stored targets whose
    [events] hold the emitted name or ["*"]: nothing else is selected,
    nothing matching is left out, and they come in the order in which
    the registry enumerates them.  A target listing ["*"] is therefore
    selected for every event name, also one that no target lists. *)
Theorem resolveTargets_selects (eventName : string) (reg : Targets) :
  (forall t : Target,
      In t (resolveTargets eventName reg) <->
      In t (JSObject.values reg) /\
      (In eventName (events t) \/ In "*" (events t))) /\
  sublist (resolveTargets eventName reg) (JSObject.values reg) /\
  (forall t : Target,
      In t (JSObject.values reg) -> In "*" (events t) ->
      forall anyName : string, In t (resolveTargets anyName reg)) /\
  (forall before t after,
      JSObject.values reg = before ++ t :: after ->
      resolveTargets eventName reg =
        List.filter (matches eventName) before
          ++ (if matches eventName t then [t] else [])
          ++ List.filter (matches eventName) after).
Proof.
  unfold resolveTargets. split; [|split; [|split]].
  - intros t. rewrite filter_In, matches_spec. reflexivity.
  - apply filter_sublist.
  - intros t Hin Hstar anyName. apply filter_In. split; [assumption|].
    apply matches_spec. now right.
  - intros before t after ->. rewrite filter_app. simpl.
    now destruct (matches eventName t).
Qed.

Lemma apply_update_fields (update : TargetUpdate) (t : Target) :
  name (apply_update update t) = name t /\
  url (apply_update update t) =
    match update_url update with Some u => Some u | None => url t end /\
  headers (apply_update update t) =
    match update_headers update with
    | Some h => h ∪ headers t
    | None => headers t
    end /\
  events (apply_update update t) =
    match update_events update with Some es => es | None => events t end.
Proof.
  unfold apply_update.
  destruct (update_url update), (update_headers update), (update_events update);
    simpl; auto.
Qed.

(** *** Names the registry inherits *)

Lemma inherited_member (realm : Realm) (n : string) :
  In n Object_prototype -> is_inherited (inherited realm n) = true.
Proof.
  intros H. unfold inherited. apply includes_In in H. rewrite H.
  now destruct (realm n).
Qed.

Lemma inherited_pristine (n : string) :
  inherited pristine n =
    if includes Object_prototype n then InheritedObject None else NotInherited.
Proof. reflexivity. Qed.

Lemma is_inherited_false (found : Inherited) :
  is_inherited found = false <-> found = NotInherited.
Proof. destruct found; simpl; split; congruence. Qed.

(** *** [updateTarget] *)

Lemma updateTarget_held (realm : Realm) (n : string) (update : TargetUpdate)
  (reg : Targets) (t : Target) :
  JSObject.get n reg = Some t ->
  updateTarget realm n update reg =
    (Returns true, JSObject.replace n (apply_update update t) reg, [], []).
Proof. intros H. unfold updateTarget. now rewrite H. Qed.

Lemma updateTarget_not_held (realm : Realm) (n : string) (update : TargetUpdate)
  (reg : Targets) :
  JSObject.get n reg = None ->
  registry_of (updateTarget realm n update reg) = reg.
Proof.
  intros H. unfold updateTarget. rewrite H.
  destruct (inherited realm n); [reflexivity| |reflexivity].
  now destruct (first_assigned update).
Qed.

(** C4, at a name the registry inherits.  On a new dispatcher, which
    holds no target at all, [updateTarget('hasOwnProperty',
    {events: ['x']})] returns true, prints nothing and assigns the
    events to the member of [Object.prototype] it found under that
    name; the claim has it return false and change nothing. *)
Theorem updateTarget_inherited_name :
  let update := {| update_url := None; update_headers := None;
                   update_events := Some ["x"] |} in
  JSObject.get "hasOwnProperty" ([] : Targets) = None /\
  updateTarget pristine "hasOwnProperty" update []
    = (Returns true, [], [], [WriteEvents "hasOwnProperty" ["x"]]).
Proof. split; reflexivity. Qed.

(** X24.  [updateTarget] on a name the registry neither holds nor
    inherits returns false, says so and leaves the registry as it
    was; on no name that the registry does not hold does it change
    the registry.  On a held name it returns true and writes nothing
    outside the registry; the stored target keeps its name and its
    place, its url is the supplied one when one is supplied, each
    header is the supplied one when the update has that key and the
    old one otherwise, its events are the supplied list when one is
    supplied; a field the update omits is the old one, and no other
    target changes. *)
Theorem updateTarget_fields (realm : Realm) (n : string) (update : TargetUpdate)
  (reg : Targets) :
  (JSObject.get n reg = None -> inherited realm n = NotInherited ->
     updateTarget realm n update reg = (Returns false, reg, [does_not_exist n], [])) /\
  (JSObject.get n reg = None ->
     registry_of (updateTarget realm n update reg) = reg) /\
  (forall t : Target, JSObject.get n reg = Some t ->
     exists (reg' : Targets) (t' : Target),
       updateTarget realm n update reg = (Returns true, reg', [], []) /\
       JSObject.get n reg' = Some t' /\
       name t' = name t /\
       url t' = match update_url update with
                | Some u => Some u
                | None => url t
                end /\
       (forall key : string,
           headers t' !! key =
             match update_headers update with
             | Some h =>
                 match h !! key with
                 | Some v => Some v
                 | None => headers t !! key
                 end
             | None => headers t !! key
             end) /\
       (update_headers update = None -> headers t' = headers t) /\
       events t' = match update_events update with
                   | Some es => es
                   | None => events t
                   end /\
       (forall other : string, other <> n ->
           JSObject.get other reg' = JSObject.get other reg) /\
       JSObject.keys reg' = JSObject.keys reg).
Proof.
  split; [|split].
  - intros Hget Hup. unfold updateTarget. now rewrite Hget, Hup.
  - apply updateTarget_not_held.
  - intros t Ht. rewrite (updateTarget_held realm n update reg t Ht).
    destruct (apply_update_fields update t) as (Hn & Hu & Hh & He).
    exists (JSObject.replace n (apply_update update t) reg), (apply_update update t).
    repeat split; auto.
    + eapply get_replace_eq, Ht.
    + intros key. rewrite Hh. destruct (update_headers update) as [h|]; [|reflexivity].
      rewrite lookup_union. destruct (h !! key), (headers t !! key); reflexivity.
    + intros E. now rewrite Hh, E.
    + intros other Hne. now apply get_replace_ne.
    + apply keys_replace.
Qed.

(** *** [addTarget] *)

Lemma addTarget_one_held (realm : Realm) (t : NewTarget) (reg : Targets)
  (old : Target) :
  JSObject.get (new_name t) reg = Some old ->
  addTarget_one realm t reg = (false, reg, [already_exists (new_name t)]).
Proof.
  intros H. unfold addTarget_one.
  assert (JSObject.has (new_name t) reg = true) as -> by (apply has_true; eauto).
  reflexivity.
Qed.

Lemma addTarget_one_inherited (realm : Realm) (t : NewTarget) (reg : Targets) :
  inherited realm (new_name t) <> NotInherited ->
  addTarget_one realm t reg = (false, reg, [already_exists (new_name t)]).
Proof.
  intros H. unfold addTarget_one.
  destruct (is_inherited (inherited realm (new_name t))) eqn:E.
  - now rewrite orb_true_r.
  - now apply is_inherited_false in E.
Qed.

Lemma addTarget_one_fresh (realm : Realm) (t : NewTarget) (reg : Targets) :
  JSObject.get (new_name t) reg = None ->
  inherited realm (new_name t) = NotInherited ->
  addTarget_one realm t reg = (true, JSObject.set (new_name t) (stored t) reg, []).
Proof.
  intros H Hup. unfold addTarget_one.
  assert (JSObject.has (new_name t) reg = false) as -> by now apply has_false.
  now rewrite Hup.
Qed.

(** The callback either rejects the entry or stores it under a name
    that was free. *)
Lemma addTarget_one_cases (realm : Realm) (t : NewTarget) (reg : Targets) :
  addTarget_one realm t reg = (false, reg, [already_exists (new_name t)]) \/
  JSObject.get (new_name t) reg = None /\
  inherited realm (new_name t) = NotInherited /\
  addTarget_one realm t reg = (true, JSObject.set (new_name t) (stored t) reg, []).
Proof.
  destruct (JSObject.get (new_name t) reg) as [old|] eqn:E.
  - left. eapply addTarget_one_held, E.
  - destruct (is_inherited (inherited realm (new_name t))) eqn:Hup.
    + left. apply addTarget_one_inherited. intros H. now rewrite H in Hup.
    + apply is_inherited_false in Hup. right.
      split; [reflexivity|]. split; [exact Hup|]. now apply addTarget_one_fresh.
Qed.

Lemma addTarget_one_keeps (realm : Realm) (t : NewTarget) (reg : Targets)
  (n : string) (old : Target) :
  JSObject.get n reg = Some old ->
  JSObject.get n (snd (fst (addTarget_one realm t reg))) = Some old.
Proof.
  intros H. destruct (addTarget_one_cases realm t reg) as [->|(E & _ & ->)].
  - exact H.
  - simpl. rewrite get_set_ne; [assumption|]. congruence.
Qed.

Lemma addTarget_map_cons (realm : Realm) (t : NewTarget) (rest : list NewTarget)
  (reg : Targets) :
  addTarget_map realm (t :: rest) reg =
    (fst (fst (addTarget_one realm t reg))
       :: fst (fst (addTarget_map realm rest (snd (fst (addTarget_one realm t reg))))),
     snd (fst (addTarget_map realm rest (snd (fst (addTarget_one realm t reg))))),
     snd (addTarget_one realm t reg)
       ++ snd (addTarget_map realm rest (snd (fst (addTarget_one realm t reg))))).
Proof.
  simpl.
  destruct (addTarget_one realm t reg) as [[r reg1] out1]. simpl.
  now destruct (addTarget_map realm rest reg1) as [[rs reg2] out2].
Qed.

Lemma addTarget_map_keeps (realm : Realm) (batch : list NewTarget) :
  forall (reg : Targets) (n : string) (old : Target),
    JSObject.get n reg = Some old ->
    JSObject.get n (snd (fst (addTarget_map realm batch reg))) = Some old.
Proof.
  induction batch as [|t rest IH]; intros reg n old H.
  - exact H.
  - rewrite addTarget_map_cons. simpl. apply IH. now apply addTarget_one_keeps.
Qed.

(** No entry is ever stored under a name the registry inherits. *)
Lemma addTarget_map_inherited (realm : Realm) (batch : list NewTarget) :
  forall (reg : Targets) (n : string),
    inherited realm n <> NotInherited ->
    JSObject.get n reg = None ->
    JSObject.get n (snd (fst (addTarget_map realm batch reg))) = None.
Proof.
  induction batch as [|t rest IH]; intros reg n Hup H.
  - exact H.
  - rewrite addTarget_map_cons. simpl. apply IH; [exact Hup|].
    destruct (addTarget_one_cases realm t reg) as [->|(_ & Hfree & ->)].
    + exact H.
    + simpl. rewrite get_set_ne; [exact H|]. intros ->. contradiction.
Qed.

Lemma addTarget_registry (realm : Realm) (batch : list NewTarget) (reg : Targets) :
  registry_of (addTarget realm batch reg) = snd (fst (addTarget_map realm batch reg)).
Proof.
  unfold addTarget, registry_of.
  now destruct (addTarget_map realm batch reg) as [[rs reg'] out].
Qed.

Lemma addTarget_returned (realm : Realm) (batch : list NewTarget) (reg : Targets) :
  returned (addTarget realm batch reg) =
    Returns (forallb (fun r => Bool.eqb r true)
               (fst (fst (addTarget_map realm batch reg)))).
Proof.
  unfold addTarget, returned.
  now destruct (addTarget_map realm batch reg) as [[rs reg'] out].
Qed.

Lemma addTarget_printed (realm : Realm) (batch : list NewTarget) (reg : Targets) :
  printed (addTarget realm batch reg) = snd (addTarget_map realm batch reg).
Proof.
  unfold addTarget, printed.
  now destruct (addTarget_map realm batch reg) as [[rs reg'] out].
Qed.

Lemma addTarget_written (realm : Realm) (batch : list NewTarget) (reg : Targets) :
  written (addTarget realm batch reg) = [].
Proof.
  unfold addTarget, written.
  now destruct (addTarget_map realm batch reg) as [[rs reg'] out].
Qed.

Lemma addTarget_map_app (realm : Realm) (pre post : list NewTarget) :
  forall reg : Targets,
    addTarget_map realm (pre ++ post) reg =
      (fst (fst (addTarget_map realm pre reg))
         ++ fst (fst (addTarget_map realm post
                        (snd (fst (addTarget_map realm pre reg))))),
       snd (fst (addTarget_map realm post (snd (fst (addTarget_map realm pre reg))))),
       snd (addTarget_map realm pre reg)
         ++ snd (addTarget_map realm post (snd (fst (addTarget_map realm pre reg))))).
Proof.
  induction pre as [|t pre IH]; intros reg.
  - simpl. now destruct (addTarget_map realm post reg) as [[rs reg'] out].
  - rewrite <- app_comm_cons, !addTarget_map_cons, IH. simpl.
    now rewrite app_assoc.
Qed.

(** The batch succeeds as a whole exactly when its names are pairwise
    distinct and none of them is held already or inherited. *)
Lemma addTarget_map_all_true (realm : Realm) (batch : list NewTarget) :
  forall reg : Targets,
    forallb (fun r => Bool.eqb r true) (fst (fst (addTarget_map realm batch reg)))
      = true <->
    NoDup (map new_name batch) /\
    (forall u, In u batch ->
               JSObject.get (new_name u) reg = None /\
               inherited realm (new_name u) = NotInherited).
Proof.
  induction batch as [|t rest IH]; intros reg.
  - simpl. split; [intros _; split; [constructor | intros u []] | reflexivity].
  - rewrite addTarget_map_cons. cbn [fst snd forallb map].
    rewrite andb_true_iff, IH.
    destruct (addTarget_one_cases realm t reg) as [Hrej|(E & Hup & Hacc)].
    + rewrite Hrej. cbn [fst snd]. split.
      * intros [[=] _].
      * intros [_ H]. destruct (H t (or_introl eq_refl)) as [Hget Hfree].
        rewrite (addTarget_one_fresh _ _ _ Hget Hfree) in Hrej. discriminate.
    + rewrite Hacc. cbn [fst snd]. split.
      * intros [_ [Hnd Hfresh]]. split.
        -- constructor; [|assumption]. intros Hin. apply in_map_iff in Hin as [u [Hu Hin]].
           destruct (Hfresh u Hin) as [Hget _]. rewrite Hu, get_set_eq in Hget.
           discriminate.
        -- intros u [<-|Hin]; [now split|].
           destruct (Hfresh u Hin) as [Hget Hfree]. split; [|exact Hfree].
           destruct (String.eqb_spec (new_name u) (new_name t)) as [Heq|Hne].
           ++ rewrite Heq, get_set_eq in Hget. discriminate.
           ++ now rewrite get_set_ne in Hget.
      * intros [Hnd Hfresh]. inversion Hnd as [|? ? Hnotin Hnd']; subst.
        split; [reflexivity|]. split; [assumption|].
        intros u Hin. destruct (Hfresh u (or_intror Hin)) as [Hget Hfree].
        split; [|exact Hfree]. rewrite get_set_ne; [exact Hget|].
        intros Heq. apply Hnotin. apply in_map_iff. eauto.
Qed.
(** C3, at a name the registry inherits.  On a new dispatcher, which
    holds no target at all, [addTarget({name: 'toString', events:
    ['user.created']})] prints that the target already exists, returns
    false and stores nothing; the claim has a target with a fresh name
    stored and the call return true. *)
Theorem addTarget_inherited_name :
  let call := addTarget pristine [local_target "toString" ["user.created"]] [] in
  JSObject.get "toString" ([] : Targets) = None /\
  call = (Returns false, [], [already_exists "toString"], []) /\
  JSObject.get "toString" (registry_of call) = None.
Proof. repeat split. Qed.

(** X23.  For an entry [t] of a batch, with [pre] the entries before
    it and [post] those after it: when its name is held by the time it
    is reached, the call returns false, says so on the console and the
    held target stays as it is; when its name is not held but
    inherited, the call returns false, says the same and the name
    stays free; when its name is neither, the target is stored under
    it with [headers] and [events] defaulted to the empty object and
    the empty array, whatever happens to the other entries; nothing
    held before the call or registered by an earlier entry is changed
    or lost; the call returns true exactly when every entry was
    accepted, that is when the names of the batch are pairwise
    distinct and none was held before the call or is inherited; and
    nothing is written outside the registry. *)
Theorem addTarget_batch (realm : Realm) (pre post : list NewTarget) (t : NewTarget)
  (reg : Targets) :
  let before := registry_of (addTarget realm pre reg) in
  let call := addTarget realm (pre ++ t :: post) reg in
  (forall old : Target,
      JSObject.get (new_name t) before = Some old ->
      returned call = Returns false /\
      In (already_exists (new_name t)) (printed call) /\
      JSObject.get (new_name t) (registry_of call) = Some old) /\
  (JSObject.get (new_name t) before = None ->
   inherited realm (new_name t) <> NotInherited ->
      returned call = Returns false /\
      In (already_exists (new_name t)) (printed call) /\
      JSObject.get (new_name t) (registry_of call) = None) /\
  (JSObject.get (new_name t) before = None ->
   inherited realm (new_name t) = NotInherited ->
      JSObject.get (new_name t) (registry_of call) =
        Some {| name := new_name t;
                url := new_url t;
                headers := match new_headers t with Some h => h | None => ∅ end;
                events := match new_events t with Some es => es | None => [] end |}) /\
  (forall (n : string) (held : Target),
      JSObject.get n reg = Some held \/ JSObject.get n before = Some held ->
      JSObject.get n (registry_of call) = Some held) /\
  (returned call = Returns true <->
     NoDup (map new_name (pre ++ t :: post)) /\
     (forall u, In u (pre ++ t :: post) ->
                JSObject.get (new_name u) reg = None /\
                inherited realm (new_name u) = NotInherited)) /\
  written call = [].
Proof.
  intros before call. subst before call.
  rewrite !addTarget_registry, addTarget_returned, addTarget_printed, addTarget_written.
  rewrite addTarget_map_app. cbn [fst snd].
  set (mid := snd (fst (addTarget_map realm pre reg))).
  rewrite addTarget_map_cons. cbn [fst snd].
  split; [|split; [|split; [|split; [|split]]]].
  - intros old H. rewrite (addTarget_one_held _ _ _ _ H). cbn [fst snd].
    split; [|split].
    + rewrite forallb_app. simpl. now rewrite andb_false_r.
    + apply in_or_app. right. now left.
    + now apply addTarget_map_keeps.
  - intros H Hup. rewrite (addTarget_one_inherited _ _ _ Hup). cbn [fst snd].
    split; [|split].
    + rewrite forallb_app. simpl. now rewrite andb_false_r.
    + apply in_or_app. right. now left.
    + now apply addTarget_map_inherited.
  - intros H Hup. rewrite (addTarget_one_fresh _ _ _ H Hup). cbn [fst snd].
    apply addTarget_map_keeps. apply get_set_eq.
  - intros n held [H|H].
    + apply addTarget_map_keeps, addTarget_one_keeps.
      subst mid. now apply addTarget_map_keeps.
    + now apply addTarget_map_keeps, addTarget_one_keeps.
  - etransitivity; [|apply (addTarget_map_all_true realm (pre ++ t :: post) reg)].
    rewrite addTarget_map_app, addTarget_map_cons. cbn [fst snd].
    split; [intros [= H]; exact H | intros H; f_equal; exact H].
  - reflexivity.
Qed.

(** *** [addEventToTarget] *)

Lemma occurrences_includes (evs : list string) (e : string) :
  includes evs e = false <-> occurrences e evs = 0.
Proof.
  unfold occurrences. rewrite includes_false. apply count_occ_not_In.
Qed.

Lemma occurrences_push (evs : list string) (x e : string) :
  occurrences e (if includes evs x then evs else evs ++ [x]) =
    if String.eqb x e then Nat.max 1 (occurrences e evs) else occurrences e evs.
Proof.
  unfold occurrences. destruct (includes evs x) eqn:Hx.
  - destruct (String.eqb_spec x e) as [->|Hne]; [|reflexivity].
    apply includes_In in Hx. apply (count_occ_In String.string_dec) in Hx. lia.
  - rewrite count_occ_app. simpl.
    destruct (String.eqb_spec x e) as [->|Hne].
    + apply occurrences_includes in Hx. unfold occurrences in Hx. rewrite Hx.
      destruct (String.string_dec e e); [reflexivity|congruence].
    + destruct (String.string_dec x e); [congruence|lia].
Qed.

Lemma occurrences_push_missing (eventsArray : list string) :
  forall (evs : list string) (e : string),
    occurrences e (push_missing eventsArray evs) =
      if includes eventsArray e then Nat.max 1 (occurrences e evs)
      else occurrences e evs.
Proof.
  induction eventsArray as [|x rest IH]; intros evs e; simpl; [reflexivity|].
  rewrite IH, occurrences_push. rewrite (String.eqb_sym e x).
  destruct (String.eqb x e), (includes rest e); simpl; lia.
Qed.

Lemma push_missing_present (eventsArray : list string) :
  forall evs : list string,
    (forall e, In e eventsArray -> In e evs) ->
    push_missing eventsArray evs = evs.
Proof.
  induction eventsArray as [|x rest IH]; intros evs H; simpl; [reflexivity|].
  assert (includes evs x = true) as -> by (apply includes_In, H; now left).
  apply IH. intros e He. apply H. now right.
Qed.

Lemma push_missing_one (evs : list string) (e : string) :
  push_missing [e] evs = if includes evs e then evs else evs ++ [e].
Proof. reflexivity. Qed.

Lemma addEventToTarget_held (realm : Realm) (n : string) (eventsArray : list string)
  (reg : Targets) (t : Target) :
  JSObject.get n reg = Some t ->
  let t' := {| name := name t; url := url t; headers := headers t;
               events := push_missing eventsArray (events t) |} in
  addEventToTarget realm n eventsArray reg
    = (Returns true, JSObject.replace n t' reg, [], []) /\
  JSObject.get n (registry_of (addEventToTarget realm n eventsArray reg)) = Some t'.
Proof.
  intros H t'. unfold addEventToTarget. rewrite H. split; [reflexivity|].
  unfold registry_of. simpl. eapply get_replace_eq, H.
Qed.

Lemma addEventToTarget_not_held (realm : Realm) (n : string)
  (eventsArray : list string) (reg : Targets) :
  JSObject.get n reg = None ->
  registry_of (addEventToTarget realm n eventsArray reg) = reg.
Proof.
  intros H. unfold addEventToTarget. rewrite H.
  destruct (inherited realm n) as [|described [evs|]|[evs|]], eventsArray; reflexivity.
Qed.

(** Once the name is there, adding it again changes nothing at all. *)
Lemma add_again (realm : Realm) (n e : string) (reg : Targets) (t : Target) :
  JSObject.get n reg = Some t -> In e (events t) ->
  registry_of (addEventToTarget realm n [e] reg) = reg.
Proof.
  intros H Hin. unfold addEventToTarget, registry_of. rewrite H. simpl.
  apply includes_In in Hin. rewrite Hin.
  clear Hin. induction reg as [|[k x] reg IH]; simpl in *; [discriminate|].
  destruct (String.eqb n k).
  - injection H as ->. now destruct t.
  - now rewrite IH.
Qed.

Lemma add_repeatedly_S (realm : Realm) (k : nat) (n e : string) (reg : Targets)
  (t : Target) :
  JSObject.get n reg = Some t ->
  add_repeatedly realm (S k) n e reg = registry_of (addEventToTarget realm n [e] reg).
Proof.
  intros H. induction k as [|k IH].
  - reflexivity.
  - change (add_repeatedly realm (S (S k)) n e reg)
      with (registry_of
              (addEventToTarget realm n [e] (add_repeatedly realm (S k) n e reg))).
    rewrite IH.
    destruct (addEventToTarget_held realm n [e] reg t H) as [_ Hget].
    eapply add_again; [exact Hget|]. simpl.
    destruct (includes (events t) e) eqn:E.
    + now apply includes_In.
    + apply in_or_app. right. now left.
Qed.

(** C6, as the code has it.  On a name the registry neither holds nor
    inherits, [addEventToTarget] returns false and leaves the registry
    as it was.  On a held target it returns true and appends the event
    name only when the list lacks it: after adding the same name once
    or more, the list holds it as often as before, and once when it
    was absent, so exactly once whenever it occurred at most once
    before the first call; every further call returns true and changes
    nothing. *)
Theorem addEventToTarget_repeated (realm : Realm) (k : nat) (n e : string)
  (reg : Targets) :
  (JSObject.get n reg = None -> inherited realm n = NotInherited ->
     forall eventsArray : list string,
       addEventToTarget realm n eventsArray reg
         = (Returns false, reg, [does_not_exist n], [])) /\
  (forall t : Target, JSObject.get n reg = Some t ->
     returned (addEventToTarget realm n [e] reg) = Returns true /\
     exists t' : Target,
       JSObject.get n (add_repeatedly realm (S k) n e reg) = Some t' /\
       name t' = name t /\ url t' = url t /\ headers t' = headers t /\
       events t' = (if includes (events t) e then events t else events t ++ [e]) /\
       occurrences e (events t') = Nat.max 1 (occurrences e (events t)) /\
       (occurrences e (events t) <= 1 -> occurrences e (events t') = 1) /\
       returned (addEventToTarget realm n [e] (add_repeatedly realm (S k) n e reg))
         = Returns true /\
       add_repeatedly realm (S (S k)) n e reg = add_repeatedly realm (S k) n e reg).
Proof.
  split.
  - intros H Hup eventsArray. unfold addEventToTarget. now rewrite H, Hup.
  - intros t H.
    destruct (addEventToTarget_held realm n [e] reg t H) as [Hcall Hget].
    split; [now rewrite Hcall|].
    eexists. rewrite (add_repeatedly_S realm k n e reg t H).
    split; [exact Hget|]. cbn [name url headers events].
    rewrite push_missing_one.
    assert (Hocc : occurrences e (if includes (events t) e then events t
                                  else events t ++ [e])
                   = Nat.max 1 (occurrences e (events t))).
    { rewrite occurrences_push. now rewrite String.eqb_refl. }
    repeat (split; [reflexivity|]).
    split; [exact Hocc|]. split; [lia|].
    set (reg1 := registry_of (addEventToTarget realm n [e] reg)) in *.
    destruct (addEventToTarget_held realm n [e] reg1 _ Hget) as [Hcall1 _].
    split; [now rewrite Hcall1|].
    change (add_repeatedly realm (S (S k)) n e reg)
      with (registry_of
              (addEventToTarget realm n [e] (add_repeatedly realm (S k) n e reg))).
    rewrite (add_repeatedly_S realm k n e reg t H). fold reg1.
    eapply add_again; [exact Hget|]. cbn [events]. rewrite push_missing_one.
    destruct (includes (events t) e) eqn:E.
    + now apply includes_In.
    + apply in_or_app. right. now left.
Qed.

(** ** Local notifier *)

Lemma count_app (kind : Effect -> bool) (a b : list Effect) :
  count kind (a ++ b) = count kind a + count kind b.
Proof. unfold count. now rewrite filter_app, length_app. Qed.

Lemma count_cons (kind : Effect -> bool) (e : Effect) (a : list Effect) :
  count kind (e :: a) = (if kind e then 1 else 0) + count kind a.
Proof. unfold count. simpl. now destruct (kind e). Qed.

Lemma count_none (kind : Effect -> bool) (a : list Effect) :
  Forall (fun e => kind e = false) a -> count kind a = 0.
Proof.
  induction 1 as [|e a He _ IH]; [reflexivity|].
  rewrite count_cons, He, IH. reflexivity.
Qed.

Lemma call_listeners_only_calls (eventName : string) (data : JSValue)
  (ls : list Listener) :
  only_calls (snd (fst (call_listeners eventName data ls))).
Proof.
  induction ls as [|l rest IH]; simpl; [constructor|].
  destruct (call_listeners eventName data rest) as [[rest' calls] thrown].
  destruct (String.eqb eventName (on_event l)); [|exact IH].
  destruct (run (listener l) data); simpl.
  - repeat constructor.
  - constructor; [reflexivity | exact IH].
Qed.

Lemma call_listeners_quiet (eventName : string) (data : JSValue)
  (ls : list Listener) :
  (forall l, In l (listeners_of eventName ls) -> run (listener l) data = None) ->
  call_listeners eventName data ls =
    (after_publish eventName ls,
     map (invoke data) (listeners_of eventName ls), None).
Proof.
  unfold listeners_of, after_publish.
  induction ls as [|l rest IH]; intros Hq; simpl; [reflexivity|].
  simpl in Hq. destruct (String.eqb eventName (on_event l)) eqn:E.
  - rewrite (Hq l (or_introl eq_refl)).
    rewrite IH by (intros l' Hl'; apply Hq; now right).
    now destruct (is_once l).
  - rewrite IH by exact Hq. reflexivity.
Qed.

Lemma listeners_of_after_publish (eventName : string) (ls : list Listener) :
  listeners_of eventName (after_publish eventName ls) =
    List.filter persistent (listeners_of eventName ls).
Proof.
  unfold listeners_of, after_publish, persistent.
  induction ls as [|l rest IH]; simpl; [reflexivity|].
  destruct (String.eqb eventName (on_event l)) eqn:E, (is_once l) eqn:O;
    simpl; rewrite ?E, ?O; simpl; now rewrite IH.
Qed.

Lemma after_publish_steady (eventName : string) (ls : list Listener) :
  Forall (fun l => persistent l = true) (listeners_of eventName ls) ->
  after_publish eventName ls = ls.
Proof.
  unfold listeners_of, after_publish, persistent.
  induction ls as [|l rest IH]; simpl; [reflexivity|].
  destruct (String.eqb eventName (on_event l)) eqn:E; simpl; intros H.
  - inversion H as [|? ? Hl Hrest]; subst.
    apply negb_true_iff in Hl. rewrite Hl. simpl. now rewrite IH.
  - now rewrite IH.
Qed.

Lemma filter_all {A : Type} (p : A -> bool) (l : list A) :
  Forall (fun x => p x = true) l -> List.filter p l = l.
Proof.
  induction 1 as [|x l Hx _ IH]; simpl; [reflexivity|]. now rewrite Hx, IH.
Qed.

Lemma filter_Forall {A : Type} (p : A -> bool) (l : list A) :
  Forall (fun x => p x = true) (List.filter p l).
Proof.
  apply List.Forall_forall. intros x Hx. now apply filter_In in Hx.
Qed.

Section Notifier.
Context (platform : Platform) (eventName : string) (data : JSValue).

Lemma EventEmitter_emit_only_calls (em : EventEmitter) :
  only_calls (snd (fst (EventEmitter_emit platform eventName data em))).
Proof.
  unfold EventEmitter_emit.
  destruct (String.eqb eventName "error"
            && Nat.eqb (length (listeners_of eventName em)) 0).
  - constructor.
  - apply call_listeners_only_calls.
Qed.

Lemma EventEmitter_emit_quiet (em : EventEmitter) :
  eventName <> "error" ->
  (forall l, In l (listeners_of eventName em) -> run (listener l) data = None) ->
  EventEmitter_emit platform eventName data em =
    (after_publish eventName em,
     map (invoke data) (listeners_of eventName em), None).
Proof.
  intros Hne Hq. unfold EventEmitter_emit.
  apply String.eqb_neq in Hne. rewrite Hne. simpl.
  now apply call_listeners_quiet.
Qed.

End Notifier.

(** ** Dispatch engine *)

Lemma only_calls_filter (kind : Effect -> bool) (calls : list Effect) :
  (forall e, is_invoke e = true -> kind e = false) ->
  only_calls calls -> List.filter kind calls = [].
Proof.
  intros Hk. induction 1 as [|e calls He _ IH]; simpl; [reflexivity|].
  now rewrite (Hk e He).
Qed.

Lemma is_invoke_not_report e : is_invoke e = true -> is_report e = false.
Proof. now destruct e. Qed.
Lemma is_invoke_not_publish e : is_invoke e = true -> is_publish e = false.
Proof. now destruct e. Qed.
Lemma is_invoke_not_fetch e : is_invoke e = true -> is_fetch e = false.
Proof. now destruct e. Qed.
Lemma is_invoke_not_settle e : is_invoke e = true -> is_settle e = false.
Proof. now destruct e. Qed.

Section Local.
Context (platform : Platform) (handler : ErrorHandler)
        (eventName : string) (data : JSValue).

Local Abbreviation local_phase := (emit_local platform handler eventName data).
Local Abbreviation publish := (EventEmitter_emit platform eventName data).

Lemma calls_local (em : EventEmitter) :
  Forall local_effect (snd (fst (publish em))).
Proof.
  eapply Forall_impl; [|apply EventEmitter_emit_only_calls].
  intros e He. split; [now apply is_invoke_not_fetch | now apply is_invoke_not_settle].
Qed.

(** Whatever the error handler does, the local phase neither sends
    nor settles a request, and it is left early only by what the
    error handler throws. *)
Lemma emit_local_shape (locals : list Target) :
  forall em result escaped em' result' trace,
    local_phase locals em result = (escaped, em', result', trace) ->
    Forall local_effect trace /\
    (forall thrown, escaped = Some thrown ->
       exists before err,
         trace = before ++ [Report err (VStr eventName) data] /\
         handler err (VStr eventName) data = Some thrown).
Proof.
  induction locals as [|t rest IH]; intros em result escaped em' result' trace; simpl.
  - intros [= <- <- <- <-]. split; [constructor | discriminate].
  - pose proof (calls_local em) as Hcalls.
    destruct (publish em) as [[em1 calls] thrown]. simpl in Hcalls.
    destruct thrown as [caught|].
    + destruct (handler (actualError caught) (VStr eventName) data) as [esc|] eqn:Eh.
      * intros [= <- <- <- <-]. split.
        -- constructor; [now split|]. apply Forall_app. split; [assumption|].
           repeat constructor.
        -- intros thrown [= <-]. exists (Publish eventName data :: calls). eauto.
      * destruct (local_phase rest em1 _) as [[[esc em2] result2] tr] eqn:Erec.
        intros [= <- <- <- <-]. destruct (IH _ _ _ _ _ _ Erec) as [Hloc Hesc]. split.
        -- constructor; [now split|]. apply Forall_app. split; [assumption|].
           constructor; [now split | assumption].
        -- intros thrown Hth. destruct (Hesc thrown Hth) as (before & err & -> & Hh).
           exists (Publish eventName data
                     :: calls ++ Report (actualError caught) (VStr eventName) data :: before), err.
           split; [|assumption]. simpl. now rewrite <- app_assoc.
    + destruct (local_phase rest em1 _) as [[[esc em2] result2] tr] eqn:Erec.
      intros [= <- <- <- <-]. destruct (IH _ _ _ _ _ _ Erec) as [Hloc Hesc]. split.
      * constructor; [now split|]. apply Forall_app. now split.
      * intros thrown Hth. destruct (Hesc thrown Hth) as (before & err & -> & Hh).
        exists (Publish eventName data :: calls ++ before), err.
        split; [|assumption]. simpl. now rewrite <- app_assoc.
Qed.

Lemma reports_after_publish (calls rest : list Effect) :
  only_calls calls ->
  List.filter is_report (Publish eventName data :: calls ++ rest) =
    List.filter is_report rest.
Proof.
  intros H. change (Publish eventName data :: calls ++ rest)
    with ([Publish eventName data] ++ calls ++ rest).
  rewrite !filter_app.
  now rewrite (only_calls_filter is_report calls is_invoke_not_report H).
Qed.

(** With an error handler that returns normally the local phase
    runs to its end: one publish per local target, one error entry
    and one report per publish that threw, in the order of the
    targets. *)
Lemma emit_local_handled (locals : list Target) :
  returns_normally handler ->
  forall em result escaped em' result' trace,
    local_phase locals em result = (escaped, em', result', trace) ->
    escaped = None /\
    count is_publish trace = length locals /\
    exists new : list EmitError,
      errors result' = errors result ++ new /\
      length new = failing_publishes platform eventName data (length locals) em /\
      sublist (map target new) (map name locals) /\
      Forall (fun x => event x = eventName) new /\
      List.filter is_report trace =
        map (fun x => Report (error x) (VStr eventName) data) new /\
      success result' = success result && Nat.eqb (length new) 0.
Proof.
  intros Hh. induction locals as [|t rest IH];
    intros em result escaped em' result' trace; simpl.
  - intros [= <- <- <- <-]. split; [reflexivity|]. split; [reflexivity|].
    exists []. rewrite app_nil_r, andb_true_r. repeat split; constructor.
  - pose proof (EventEmitter_emit_only_calls platform eventName data em) as Hcalls.
    destruct (publish em) as [[em1 calls] thrown]. simpl in Hcalls.
    pose proof (only_calls_filter is_report calls is_invoke_not_report Hcalls) as Hrep.
    pose proof (only_calls_filter is_publish calls is_invoke_not_publish Hcalls) as Hpub.
    destruct thrown as [caught|].
    + rewrite Hh.
      destruct (local_phase rest em1 _) as [[[esc em2] result2] tr] eqn:Erec.
      intros [= <- <- <- <-].
      destruct (IH _ _ _ _ _ _ Erec) as (-> & Hcount & new & He & Hlen & Hsub & Hev & Hfil & Hs).
      split; [reflexivity|]. split.
      * rewrite count_cons, count_app. unfold count at 1. rewrite Hpub.
        rewrite count_cons. simpl. now rewrite Hcount.
      * exists (makeError (name t) eventName (actualError caught) :: new).
        simpl in He, Hs. split; [now rewrite He, <- app_assoc|].
        split; [simpl; now rewrite Hlen|].
        split; [simpl; now constructor|].
        split; [now constructor|].
        split; [|rewrite Hs; simpl; now rewrite andb_false_r].
        rewrite reports_after_publish by assumption. simpl. now rewrite Hfil.
    + destruct (local_phase rest em1 _) as [[[esc em2] result2] tr] eqn:Erec.
      intros [= <- <- <- <-].
      destruct (IH _ _ _ _ _ _ Erec) as (-> & Hcount & new & He & Hlen & Hsub & Hev & Hfil & Hs).
      split; [reflexivity|]. split.
      * rewrite count_cons, count_app. unfold count at 1. rewrite Hpub.
        simpl. now rewrite Hcount.
      * exists new. split; [assumption|]. split; [assumption|].
        split; [simpl; now constructor|].
        split; [assumption|]. split; [|assumption].
        now rewrite reports_after_publish.
Qed.

End Local.

(** *** Remote phase *)

Lemma arrive_permutation {A : Type} (x : A * Reply) (queue : list (A * Reply)) :
  Permutation (arrive x queue) (x :: queue).
Proof.
  induction queue as [|y rest IH]; simpl; [reflexivity|].
  destruct (Nat.ltb (latency (snd x)) (latency (snd y))); [reflexivity|].
  rewrite IH. apply perm_swap.
Qed.

(** Replies arrive in some order, each of them once. *)
Lemma completion_order_permutation {A : Type} (issued : list (A * Reply)) :
  Permutation (completion_order issued) issued.
Proof.
  induction issued as [|x rest IH]; simpl; [reflexivity|].
  rewrite arrive_permutation. now constructor.
Qed.

Lemma filter_length_permutation {A : Type} (p : A -> bool) (l l' : list A) :
  Permutation l l' -> length (List.filter p l) = length (List.filter p l').
Proof.
  induction 1 as [|x l l' _ IH|x y l|l l' l'' _ IH1 _ IH2]; simpl.
  - reflexivity.
  - destruct (p x); simpl; now rewrite IH.
  - destruct (p x), (p y); reflexivity.
  - now rewrite IH1.
Qed.

Section Remote.
Context (platform : Platform) (handler : ErrorHandler)
        (eventName : string) (data : JSValue).

Lemma issue_indices (net : Network) (externalTargets : list Target) :
  forall index : nat,
    map index_of (issue platform net eventName data index externalTargets)
      = seq index (length externalTargets).
Proof.
  induction externalTargets as [|t rest IH]; intros index; simpl; [reflexivity|].
  now rewrite IH.
Qed.


Lemma issue_length (net : Network) (externalTargets : list Target) (index : nat) :
  length (issue platform net eventName data index externalTargets)
    = length externalTargets.
Proof. now rewrite <- (length_map index_of), issue_indices, length_seq. Qed.

Lemma after_fetch_trace (t : Target) (o : FetchOutcome) (result : EmitResult) :
  Forall (fun e => is_report e = true)
    (snd (after_fetch handler eventName data t o result)).
Proof.
  unfold after_fetch, remote_catch. destruct o as [status statusText|reason].
  - destruct (ok status); [constructor|].
    destruct (handler (http_error status statusText) _ _) as [caught|];
      [destruct (handler (actualError caught) _ _)|]; repeat constructor.
  - destruct (handler (actualError reason) _ _); repeat constructor.
Qed.

Lemma after_fetch_handled (t : Target) (o : FetchOutcome) (result : EmitResult) :
  returns_normally handler ->
  after_fetch handler eventName data t o result =
    if failed o
    then (mark_failed
            (push_error result (makeError (name t) eventName (delivery_error o))),
          [Report (delivery_error o) (VStr eventName) data])
    else (result, []).
Proof.
  intros Hh. unfold after_fetch, remote_catch.
  destruct o as [status statusText|reason]; simpl.
  - destruct (ok status); [reflexivity|]. simpl. now rewrite Hh.
  - now rewrite Hh.
Qed.

(** Whatever the error handler does, the remote phase only reports
    and settles, and it settles every arrival once. *)
Lemma settle_all_shape (arrivals : list (nat * Target * Request * Reply)) :
  forall result,
    let trace := snd (settle_all handler eventName data arrivals result) in
    Forall (fun e => is_publish e = false /\ is_invoke e = false /\ is_fetch e = false) trace /\
    List.filter is_settle trace = map (fun r => Settle (index_of r)) arrivals.
Proof.
  induction arrivals as [|[[[index t] request] reply] rest IH]; intros result; simpl.
  - split; [constructor | reflexivity].
  - pose proof (after_fetch_trace t (outcome reply) result) as Hrep.
    destruct (after_fetch handler eventName data t (outcome reply) result)
      as [result1 trace1]. simpl in Hrep.
    specialize (IH result1).
    destruct (settle_all handler eventName data rest result1) as [result2 trace2].
    simpl in *. destruct IH as [IH1 IH2]. split.
    + apply Forall_app. split.
      * eapply Forall_impl; [|exact Hrep]. intros e He. now destruct e.
      * constructor; [now repeat split | assumption].
    + rewrite filter_app. simpl. rewrite IH2.
      assert (List.filter is_settle trace1 = []) as ->; [|reflexivity].
      clear -Hrep. induction Hrep as [|e l He _ IHl]; simpl; [reflexivity|].
      destruct e; try discriminate. exact IHl.
Qed.

(** With an error handler that returns normally, every failed
    arrival leaves one error entry and one report. *)
Lemma settle_all_handled (arrivals : list (nat * Target * Request * Reply)) :
  returns_normally handler ->
  forall result result' trace,
    settle_all handler eventName data arrivals result = (result', trace) ->
    exists new : list EmitError,
      errors result' = errors result ++ new /\
      length new = length (List.filter (fun r => failed (outcome (snd r))) arrivals) /\
      Forall (fun x => event x = eventName /\
                       In (target x) (map (fun r => name (target_of r)) arrivals)) new /\
      List.filter is_report trace =
        map (fun x => Report (error x) (VStr eventName) data) new /\
      success result' = success result && Nat.eqb (length new) 0.
Proof.
  intros Hh. induction arrivals as [|[[[index t] request] reply] rest IH];
    intros result result' trace; simpl.
  - intros [= <- <-]. exists []. rewrite app_nil_r, andb_true_r.
    repeat split; constructor.
  - rewrite after_fetch_handled by assumption.
    destruct (failed (outcome reply)) eqn:Ef.
    + destruct (settle_all handler eventName data rest _) as [result2 trace2] eqn:Erec.
      intros [= <- <-].
      destruct (IH _ _ _ Erec) as (new & He & Hlen & Hev & Hfil & Hs).
      exists (makeError (name t) eventName (delivery_error (outcome reply)) :: new).
      simpl in He, Hs. split; [now rewrite He, <- app_assoc|].
      split; [simpl; now rewrite Hlen|]. split.
      * constructor; [split; [reflexivity | now left]|].
        eapply Forall_impl; [|exact Hev]. intros x [H1 H2]. split; [assumption | now right].
      * split; [simpl; now rewrite Hfil|].
        rewrite Hs. simpl. now rewrite andb_false_r.
    + destruct (settle_all handler eventName data rest _) as [result2 trace2] eqn:Erec.
      intros [= <- <-].
      destruct (IH _ _ _ Erec) as (new & He & Hlen & Hev & Hfil & Hs).
      exists new. split; [assumption|]. split; [assumption|]. split.
      * eapply Forall_impl; [|exact Hev]. intros x [H1 H2]. split; [assumption | now right].
      * split; [simpl; assumption | assumption].
Qed.

End Remote.

(** *** [emit] *)

(** Name the outcome of the local phase of the emit in the goal. *)
Ltac run_local_phase platform self eventName data Eloc :=
  unfold emit;
  fold (local_targets eventName self); fold (remote_targets eventName self);
  destruct (emit_local platform (errorHandler (options self)) eventName data
              (local_targets eventName self) (emitter self)
              {| success := true; errors := [] |})
    as [[[?escaped ?em] ?result1] ?trace1] eqn:Eloc.

Lemma with_emitter_same (self : MikroEvent) : with_emitter self (emitter self) = self.
Proof. now destruct self. Qed.

Lemma fetches_only (issued : list (nat * Target * Request * Reply)) (kind : Effect -> bool) :
  (forall i r, kind (Fetch i r) = false) ->
  List.filter kind (map (fun r => Fetch (fst (fst (fst r))) (snd (fst r))) issued) = [].
Proof.
  intros Hk. induction issued as [|r rest IH]; simpl; [reflexivity|].
  now rewrite Hk.
Qed.

Lemma fetches_count (issued : list (nat * Target * Request * Reply)) :
  count is_fetch (map (fun r => Fetch (fst (fst (fst r))) (snd (fst r))) issued)
    = length issued.
Proof.
  unfold count. induction issued as [|r rest IH]; simpl; [reflexivity|].
  now rewrite IH.
Qed.

Lemma local_effect_counts (trace : list Effect) :
  Forall local_effect trace ->
  List.filter is_fetch trace = [] /\ List.filter is_settle trace = [].
Proof.
  induction 1 as [|e l [H1 H2] _ [IH1 IH2]]; simpl; [now split|].
  now rewrite H1, H2.
Qed.

(** C8.  When no stored target matches the event name, [emit]
    resolves with [{success: true, errors: []}], leaves the
    dispatcher as it was and has no effect at all: no request is
    sent, the notifier does not publish, the error handler is not
    called. *)
Theorem emit_without_target (platform : Platform) (self : MikroEvent)
  (net : Network) (eventName : string) (data : JSValue) :
  resolveTargets eventName (targets self) = [] ->
  emit platform self net eventName data =
    (Resolves {| success := true; errors := [] |}, self, []).
Proof.
  intros H. unfold emit. rewrite H. simpl. now rewrite with_emitter_same.
Qed.

(** C1, as the code has it.  With an error handler that returns
    normally, an emit for which N remote targets match and M of them
    fail resolves once every one of the N requests has been sent and
    settled; its [errors] hold one entry per failed delivery, local
    ones included: L + M entries, where L counts the local targets
    whose publish threw; [success] is true exactly when L + M is 0 and
    the error handler is called L + M times.  When no local delivery
    fails these are M, (M = 0) and M. *)
Theorem emit_counts_failures (platform : Platform) (self : MikroEvent)
  (net : Network) (eventName : string) (data : JSValue) :
  returns_normally (errorHandler (options self)) ->
  let N := length (remote_targets eventName self) in
  let M := remote_failures platform net eventName data self in
  let L := local_failures platform eventName data self in
  exists (r : EmitResult) (self' : MikroEvent) (trace : list Effect),
    emit platform self net eventName data = (Resolves r, self', trace) /\
    length (errors r) = L + M /\
    success r = Nat.eqb (L + M) 0 /\
    count is_report trace = L + M /\
    count is_fetch trace = N /\
    Permutation (List.filter is_settle trace) (map Settle (seq 0 N)) /\
    M <= N /\
    (L = 0 ->
       length (errors r) = M /\ success r = Nat.eqb M 0 /\
       count is_report trace = M).
Proof.
  intros Hh N M L. run_local_phase platform self eventName data Eloc.
  destruct (emit_local_handled _ _ _ _ _ Hh _ _ _ _ _ _ Eloc)
    as (-> & _ & newL & HeL & HlenL & _ & _ & HrepL & HsL).
  destruct (emit_local_shape _ _ _ _ _ _ _ _ _ _ _ Eloc) as [Hshape _].
  apply local_effect_counts in Hshape as [HfetchL HsettleL].
  set (issued := issue platform net eventName data 0 (remote_targets eventName self)).
  destruct (settle_all _ eventName data (completion_order issued) result1)
    as [result2 trace2] eqn:Erem.
  destruct (settle_all_handled _ _ _ _ Hh _ _ _ Erem)
    as (newR & HeR & HlenR & _ & HrepR & HsR).
  pose proof (settle_all_shape (errorHandler (options self)) eventName data
                (completion_order issued) result1) as [HshapeR HsettleR].
  rewrite Erem in HshapeR, HsettleR. simpl in HshapeR, HsettleR.
  rewrite (filter_length_permutation _ _ _ (completion_order_permutation issued)) in HlenR.
  assert (HM : length newR = M) by exact HlenR.
  assert (HL : length newL = L) by exact HlenL.
  clear HlenL HlenR. simpl in HeL, HsL.
  assert (Hlen : length (errors result2) = L + M)
    by (rewrite HeR, HeL, length_app; lia).
  assert (Hsucc : success result2 = Nat.eqb (L + M) 0).
  { rewrite HsR, HsL, HL, HM. destruct L, M; reflexivity. }
  assert (Hrep : count is_report (trace1 ++ map (fun r => Fetch (fst (fst (fst r))) (snd (fst r))) issued ++ trace2) = L + M).
  { unfold count. rewrite !filter_app, HrepL, HrepR, fetches_only by reflexivity.
    rewrite !length_app, !length_map. simpl. lia. }
  assert (HMN : M <= N).
  { unfold M, N, remote_failures.
    rewrite <- (issue_length platform eventName data net _ 0).
    apply filter_length_le. }
  do 3 eexists. split; [reflexivity|].
  split; [exact Hlen|]. split; [exact Hsucc|]. split; [exact Hrep|]. split.
  - rewrite !count_app, fetches_count. unfold count. rewrite HfetchL.
    assert (List.filter is_fetch trace2 = []) as ->.
    { clear -HshapeR. induction HshapeR as [|e l (_ & _ & He) _ IH]; simpl;
        [reflexivity|]. now rewrite He. }
    unfold issued. rewrite issue_length. simpl. unfold N. lia.
  - split; [|split; [exact HMN|]].
    + rewrite !filter_app, HsettleL, HsettleR, fetches_only by reflexivity. simpl.
      unfold N.
      rewrite <- (issue_indices platform eventName data net
                    (remote_targets eventName self) 0). fold issued.
      rewrite <- (map_map index_of Settle).
      apply Permutation_map, Permutation_map, completion_order_permutation.
    + intros HL0. rewrite HL0 in Hlen, Hsucc, Hrep. simpl in Hlen, Hsucc, Hrep. auto.
Qed.


Lemma fetches_remote (issued : list (nat * Target * Request * Reply)) :
  Forall remote_effect
    (map (fun r => Fetch (fst (fst (fst r))) (snd (fst r))) issued).
Proof.
  apply List.Forall_forall. intros e He. apply in_map_iff in He as [r [<- _]].
  now split.
Qed.

Lemma settle_all_remote (handler : ErrorHandler) (eventName : string)
  (data : JSValue) (arrivals : list (nat * Target * Request * Reply))
  (result : EmitResult) :
  Forall remote_effect (snd (settle_all handler eventName data arrivals result)).
Proof.
  destruct (settle_all_shape handler eventName data arrivals result) as [H _].
  eapply Forall_impl; [|exact H]. intros e (H1 & H2 & _). now split.
Qed.

Lemma settle_all_errors (handler : ErrorHandler) (eventName : string)
  (data : JSValue) (arrived : list (nat * Target * Request * Reply)) :
  returns_normally handler ->
  forall result,
    errors (fst (settle_all handler eventName data arrived result))
      = errors result
          ++ map (remote_entry eventName) (List.filter arrival_failed arrived).
Proof.
  intros Hh. induction arrived as [|[[[index t] request] reply] rest IH];
    intros result; simpl.
  - now rewrite app_nil_r.
  - rewrite after_fetch_handled by assumption. unfold arrival_failed at 1. simpl.
    destruct (failed (outcome reply)).
    + specialize (IH (mark_failed
                        (push_error result
                           (makeError (name t) eventName
                              (delivery_error (outcome reply)))))).
      destruct (settle_all handler eventName data rest _) as [result2 trace2].
      simpl in *. now rewrite IH, <- app_assoc.
    + specialize (IH result).
      destruct (settle_all handler eventName data rest result) as [result2 trace2].
      simpl in *. exact IH.
Qed.

(** *** What a publish calls *)

Lemma call_listeners_calls (eventName : string) (data : JSValue) (em : EventEmitter) :
  snd (fst (call_listeners eventName data em))
    = map (invoke data) (up_to_first_throw data (listeners_of eventName em)) /\
  snd (call_listeners eventName data em)
    = first_thrown data (listeners_of eventName em) /\
  listeners_of eventName (fst (fst (call_listeners eventName data em)))
    = left_listening data (listeners_of eventName em).
Proof.
  unfold left_listening, listeners_of, persistent.
  induction em as [|l rest (IHcalls & IHthrown & IHleft)]; simpl; [now repeat split|].
  destruct (call_listeners eventName data rest) as [[rest' calls] thrown].
  simpl in IHcalls, IHthrown, IHleft.
  destruct (String.eqb eventName (on_event l)) eqn:E; simpl.
  - destruct (run (listener l) data) as [caught|]; simpl.
    + split; [reflexivity|]. split; [reflexivity|].
      destruct (is_once l); simpl; now rewrite ?E.
    + split; [now rewrite IHcalls|]. split; [exact IHthrown|].
      destruct (is_once l); simpl; rewrite ?E; now rewrite IHleft.
  - rewrite E. now repeat split.
Qed.

(** The notifier calls the listeners of the event in the order of
    their registration up to the first that throws, throws what that
    one threw, and keeps the listeners it did not call and those it
    called that were added with [on]. *)
Lemma EventEmitter_emit_calls (platform : Platform) (eventName : string)
  (data : JSValue) (em : EventEmitter) :
  snd (fst (EventEmitter_emit platform eventName data em))
    = map (invoke data) (up_to_first_throw data (listeners_of eventName em)) /\
  snd (EventEmitter_emit platform eventName data em)
    = publish_throws platform eventName data (listeners_of eventName em) /\
  listeners_of eventName (fst (fst (EventEmitter_emit platform eventName data em)))
    = left_listening data (listeners_of eventName em).
Proof.
  unfold EventEmitter_emit, publish_throws.
  destruct (call_listeners_calls eventName data em) as (Hcalls & Hthrown & Hleft).
  destruct (listeners_of eventName em) as [|l ls] eqn:E.
  - destruct (String.eqb eventName "error"); simpl.
    + rewrite E. now repeat split.
    + now repeat split.
  - rewrite andb_false_r. now repeat split.
Qed.

(** With an error handler that returns normally the local phase is
    one publish after the other: its trace and the entries it leaves
    are those of the publishes. *)
Lemma emit_local_publishes_all (platform : Platform) (handler : ErrorHandler)
  (eventName : string) (data : JSValue) (locals : list Target) :
  returns_normally handler ->
  forall em result,
    snd (emit_local platform handler eventName data locals em result)
      = local_publishes platform eventName data (length locals)
          (listeners_of eventName em) /\
    errors (snd (fst (emit_local platform handler eventName data locals em result)))
      = errors result
          ++ local_entries platform eventName data locals (listeners_of eventName em).
Proof.
  intros Hh. induction locals as [|t rest IH]; intros em result; simpl.
  - now rewrite app_nil_r.
  - destruct (EventEmitter_emit_calls platform eventName data em)
      as (Hcalls & Hthrown & Hleft).
    destruct (EventEmitter_emit platform eventName data em) as [[em1 calls] thrown].
    simpl in Hcalls, Hthrown, Hleft. rewrite <- Hthrown, <- Hleft, <- Hcalls.
    unfold one_publish. destruct thrown as [caught|].
    + rewrite Hh.
      destruct (IH em1 (mark_failed
                          (push_error result
                             (makeError (name t) eventName (actualError caught)))))
        as [IHtrace IHerrors].
      destruct (emit_local platform handler eventName data rest em1 _)
        as [[[esc em2] result2] tr].
      simpl in *. rewrite IHtrace, IHerrors, <- !app_assoc. now split.
    + destruct (IH em1 result) as [IHtrace IHerrors].
      destruct (emit_local platform handler eventName data rest em1 result)
        as [[[esc em2] result2] tr].
      simpl in *. rewrite IHtrace, IHerrors. now split.
Qed.

Lemma up_to_first_throw_quiet (data : JSValue) (ls : list Listener) :
  (forall l, In l ls -> run (listener l) data = None) ->
  up_to_first_throw data ls = ls /\
  first_thrown data ls = None /\
  left_listening data ls = List.filter persistent ls.
Proof.
  intros Hq. assert (H : up_to_first_throw data ls = ls /\ first_thrown data ls = None).
  { induction ls as [|l rest IH]; simpl; [now split|].
    rewrite (Hq l (or_introl eq_refl)).
    destruct IH as [IH1 IH2]; [intros x Hx; apply Hq; now right|].
    now rewrite IH1, IH2. }
  destruct H as [H1 H2]. split; [exact H1|]. split; [exact H2|].
  unfold left_listening. rewrite H1, skipn_all. apply app_nil_r.
Qed.

Lemma up_to_first_throw_stops (data : JSValue) (before after : list Listener)
  (l : Listener) (caught : Thrown) :
  (forall b, In b before -> run (listener b) data = None) ->
  run (listener l) data = Some caught ->
  up_to_first_throw data (before ++ l :: after) = before ++ [l] /\
  first_thrown data (before ++ l :: after) = Some caught /\
  left_listening data (before ++ l :: after)
    = List.filter persistent (before ++ [l]) ++ after.
Proof.
  intros Hq Hl.
  assert (H : up_to_first_throw data (before ++ l :: after) = before ++ [l] /\
              first_thrown data (before ++ l :: after) = Some caught).
  { induction before as [|b rest IH]; simpl.
    - now rewrite Hl.
    - rewrite (Hq b (or_introl eq_refl)).
      destruct IH as [IH1 IH2]; [intros x Hx; apply Hq; now right|].
      now rewrite IH1, IH2. }
  destruct H as [H1 H2]. split; [exact H1|]. split; [exact H2|].
  unfold left_listening. rewrite H1. f_equal.
  change (l :: after) with ([l] ++ after). rewrite app_assoc.
  now rewrite skipn_app, skipn_all, Nat.sub_diag.
Qed.


(** *** Local deliveries *)

Section Quiet.
Context (platform : Platform) (handler : ErrorHandler)
        (eventName : string) (data : JSValue).
Hypothesis not_error : eventName <> "error".

Lemma emit_local_steady (locals : list Target) (em : EventEmitter)
  (result : EmitResult) :
  (forall l, In l (listeners_of eventName em) -> run (listener l) data = None) ->
  Forall (fun l => persistent l = true) (listeners_of eventName em) ->
  emit_local platform handler eventName data locals em result =
    (None, em, result,
     concat (repeat (one_publish eventName data (listeners_of eventName em))
               (length locals))).
Proof using not_error.
  intros Hq Hp. induction locals as [|t rest IH]; simpl; [reflexivity|].
  rewrite EventEmitter_emit_quiet by assumption.
  rewrite after_publish_steady by assumption. now rewrite IH.
Qed.

Lemma emit_local_quiet (locals : list Target) (em : EventEmitter)
  (result : EmitResult) :
  (forall l, In l (listeners_of eventName em) -> run (listener l) data = None) ->
  emit_local platform handler eventName data locals em result =
    (None,
     match locals with [] => em | _ => after_publish eventName em end,
     result,
     quiet_publishes eventName data em (length locals)).
Proof using not_error.
  intros Hq. destruct locals as [|t rest]; [reflexivity|].
  cbn [emit_local]. rewrite EventEmitter_emit_quiet by assumption.
  rewrite emit_local_steady.
  - rewrite listeners_of_after_publish. reflexivity.
  - rewrite listeners_of_after_publish. intros l Hl.
    apply filter_In in Hl as [Hl _]. now apply Hq.
  - rewrite listeners_of_after_publish. apply filter_Forall.
Qed.

End Quiet.

Lemma emit_local_publishes (platform : Platform) (handler : ErrorHandler)
  (eventName : string) (data : JSValue) (locals : list Target) :
  forall em result,
    Forall (fun e => is_publish e = true -> e = Publish eventName data)
      (snd (emit_local platform handler eventName data locals em result)).
Proof.
  induction locals as [|t rest IH]; intros em result; simpl; [constructor|].
  pose proof (EventEmitter_emit_only_calls platform eventName data em) as Hcalls.
  destruct (EventEmitter_emit platform eventName data em) as [[em1 calls] thrown].
  simpl in Hcalls.
  assert (Hc : Forall (fun e => is_publish e = true -> e = Publish eventName data) calls).
  { eapply Forall_impl; [|exact Hcalls]. intros e He Hp.
    apply is_invoke_not_publish in He. congruence. }
  destruct thrown as [caught|].
  - destruct (handler (actualError caught) (VStr eventName) data).
    + simpl. constructor; [reflexivity|]. apply Forall_app. split; [assumption|].
      constructor; [discriminate | constructor].
    + specialize (IH em1 (mark_failed
                            (push_error result
                               (makeError (name t) eventName (actualError caught))))).
      destruct (emit_local platform handler eventName data rest em1 _)
        as [[[esc em2] result2] tr].
      simpl in *. constructor; [reflexivity|]. apply Forall_app. split; [assumption|].
      constructor; [discriminate | assumption].
  - specialize (IH em1 result).
    destruct (emit_local platform handler eventName data rest em1 result)
      as [[[esc em2] result2] tr].
    simpl in *. constructor; [reflexivity|]. apply Forall_app. now split.
Qed.

(** C5, as the code has it.  In every emit the effects of the local
    phase (publishes, listener calls, reports) come before anything
    of the remote phase (requests, their reports and settlements),
    and every publish is for the emitted name and payload.  With an
    error handler that returns normally the notifier publishes once
    per matched local target, k times for k of them and so more than
    once when k >= 2, and the local error entries come first in
    [errors], in the registry order of their targets.  When none of
    the listeners throws (and the event is not ['error']), the first
    publish calls every listener of the event and each of the k - 1
    later ones calls every listener added with [on], those added with
    [once] being gone.  In general, with an error handler that returns
    normally, every publish calls the listeners then registered for
    the event in the order of their registration up to the first one
    that throws, that one included and none after it, and what it
    threw is reported before the next publish; the next publish finds
    the listeners that were not reached and, of those called, the
    ones added with [on].  That is what a publish does in whatever
    state the notifier is, and whatever the error handler does
    afterwards. *)
Theorem emit_local_deliveries (platform : Platform) (self : MikroEvent)
  (net : Network) (eventName : string) (data : JSValue) :
  let call := emit platform self net eventName data in
  let k := length (local_targets eventName self) in
  (exists local remote : list Effect,
     trace_of call = local ++ remote /\
     Forall local_effect local /\ Forall remote_effect remote /\
     Forall (fun e => is_publish e = true -> e = Publish eventName data) local) /\
  (returns_normally (errorHandler (options self)) ->
     count is_publish (trace_of call) = k /\
     (2 <= k -> 1 < count is_publish (trace_of call)) /\
     exists (r : EmitResult) (localErrors remoteErrors : list EmitError),
       fst (fst call) = Resolves r /\
       errors r = localErrors ++ remoteErrors /\
       sublist (map target localErrors) (map name (local_targets eventName self)) /\
       length localErrors = local_failures platform eventName data self) /\
  (eventName <> "error" ->
   (forall l, In l (listeners_of eventName (emitter self)) ->
              run (listener l) data = None) ->
     exists remote : list Effect,
       trace_of call = quiet_publishes eventName data (emitter self) k ++ remote /\
       Forall remote_effect remote) /\
  (returns_normally (errorHandler (options self)) ->
     exists remote : list Effect,
       trace_of call =
         local_publishes platform eventName data k
           (listeners_of eventName (emitter self)) ++ remote /\
       Forall remote_effect remote) /\
  (forall (before after : list Listener) (l : Listener) (caught : Thrown),
      (forall b, In b before -> run (listener b) data = None) ->
      run (listener l) data = Some caught ->
      up_to_first_throw data (before ++ l :: after) = before ++ [l] /\
      publish_throws platform eventName data (before ++ l :: after) = Some caught /\
      left_listening data (before ++ l :: after)
        = List.filter persistent (before ++ [l]) ++ after) /\
  (forall ls : list Listener,
      (forall l, In l ls -> run (listener l) data = None) ->
      up_to_first_throw data ls = ls /\
      left_listening data ls = List.filter persistent ls /\
      (eventName <> "error" -> publish_throws platform eventName data ls = None)) /\
  (forall em : EventEmitter,
      let publish := EventEmitter_emit platform eventName data em in
      snd (fst publish)
        = map (invoke data) (up_to_first_throw data (listeners_of eventName em)) /\
      snd publish = publish_throws platform eventName data (listeners_of eventName em) /\
      listeners_of eventName (fst (fst publish))
        = left_listening data (listeners_of eventName em)).
Proof.
  intros call k. subst call k. unfold emit, trace_of.
  fold (local_targets eventName self). fold (remote_targets eventName self).
  set (issued := issue platform net eventName data 0 (remote_targets eventName self)).
  split; [|split; [|split; [|split; [|split; [|split]]]]].
  - pose proof (emit_local_publishes platform (errorHandler (options self))
                  eventName data (local_targets eventName self) (emitter self)
                  {| success := true; errors := [] |}) as Hpub.
    destruct (emit_local platform _ eventName data (local_targets eventName self)
                (emitter self) _) as [[[escaped em] result1] trace1] eqn:Eloc.
    destruct (emit_local_shape _ _ _ _ _ _ _ _ _ _ _ Eloc) as [Hshape _].
    simpl in Hpub. destruct escaped as [esc|].
    + exists trace1, []. simpl. rewrite app_nil_r. repeat split; auto.
    + pose proof (settle_all_remote (errorHandler (options self)) eventName data
                    (completion_order issued) result1) as Hrem.
      destruct (settle_all _ eventName data (completion_order issued) result1)
        as [result2 trace2]. simpl in *.
      eexists trace1, _. split; [reflexivity|]. split; [assumption|].
      split; [|assumption]. apply Forall_app. split; [apply fetches_remote | assumption].
  - intros Hh.
    destruct (emit_local platform _ eventName data (local_targets eventName self)
                (emitter self) _) as [[[escaped em] result1] trace1] eqn:Eloc.
    destruct (emit_local_handled _ _ _ _ _ Hh _ _ _ _ _ _ Eloc)
      as (-> & Hcount & newL & HeL & HlenL & HsubL & _).
    pose proof (settle_all_shape (errorHandler (options self)) eventName data
                  (completion_order issued) result1) as [HshapeR _].
    destruct (settle_all _ eventName data (completion_order issued) result1)
      as [result2 trace2] eqn:Erem.
    destruct (settle_all_handled _ _ _ _ Hh _ _ _ Erem) as (newR & HeR & _).
    simpl in *.
    assert (Hk : count is_publish
                   (trace1 ++ map (fun r => Fetch (fst (fst (fst r))) (snd (fst r))) issued
                           ++ trace2)
                 = length (local_targets eventName self)).
    { rewrite !count_app, Hcount. unfold count at 1.
      rewrite fetches_only by reflexivity. rewrite count_none; [simpl; lia|].
      eapply Forall_impl; [|exact HshapeR]. now intros e (H1 & _). }
    split; [exact Hk|]. split; [rewrite Hk; lia|].
    exists result2, newL, newR. split; [reflexivity|].
    split; [now rewrite HeR, HeL|]. split; assumption.
  - intros Hne Hq. rewrite (emit_local_quiet platform _ eventName data Hne) by assumption.
    pose proof (settle_all_remote (errorHandler (options self)) eventName data
                  (completion_order issued) {| success := true; errors := [] |}) as Hrem.
    destruct (settle_all _ eventName data (completion_order issued) _)
      as [result2 trace2]. simpl in *.
    eexists. split; [reflexivity|].
    apply Forall_app. split; [apply fetches_remote | assumption].
  - intros Hh.
    destruct (emit_local_publishes_all platform (errorHandler (options self))
                eventName data (local_targets eventName self) Hh (emitter self)
                {| success := true; errors := [] |}) as [Htrace _].
    destruct (emit_local platform _ eventName data (local_targets eventName self)
                (emitter self) _) as [[[escaped em] result1] trace1] eqn:Eloc.
    destruct (emit_local_handled _ _ _ _ _ Hh _ _ _ _ _ _ Eloc) as (-> & _).
    pose proof (settle_all_remote (errorHandler (options self)) eventName data
                  (completion_order issued) result1) as Hrem.
    destruct (settle_all _ eventName data (completion_order issued) result1)
      as [result2 trace2]. simpl in *. rewrite Htrace.
    eexists. split; [reflexivity|].
    apply Forall_app. split; [apply fetches_remote | assumption].
  - intros before after l caught Hq Hl.
    destruct (up_to_first_throw_stops data before after l caught Hq Hl)
      as (Hcalled & Hthrown & Hleft).
    split; [exact Hcalled|]. split; [|exact Hleft].
    unfold publish_throws. rewrite Hthrown. now destruct before.
  - intros ls Hq.
    destruct (up_to_first_throw_quiet data ls Hq) as (Hcalled & Hthrown & Hleft).
    split; [exact Hcalled|]. split; [exact Hleft|].
    intros Hne. unfold publish_throws. rewrite Hthrown.
    apply String.eqb_neq in Hne. rewrite Hne. now destruct ls.
  - intros em. apply EventEmitter_emit_calls.
Qed.

(** ** Inbound adapter *)

(** C9, as the code has it.  For a text body that [JSON.parse]
    rejects, [handleIncomingEvent] calls the error handler once, with
    the parse error and the event name ['parse_event'], schedules no
    delivery and rejects: with the parse error itself when the error
    handler returns normally, with what the error handler threw when
    it throws. *)
Theorem handleIncomingEvent_invalid_text (platform : Platform)
  (self : MikroEvent) (text : string) (syntaxError : JSError) :
  JSON_parse platform text = inl syntaxError ->
  handleIncomingEvent platform self (VStr text) =
    (Rejects
       match errorHandler (options self) syntaxError (VStr "parse_event") VUndefined with
       | Some escaped => escaped
       | None => ThrownError syntaxError
       end,
     [],
     [Report syntaxError (VStr "parse_event") VUndefined]).
Proof.
  intros H. unfold handleIncomingEvent. rewrite H. simpl.
  now destruct (errorHandler (options self) syntaxError (VStr "parse_event") VUndefined).
Qed.

(** C10.  For a body that is already an object, whatever its shape,
    [handleIncomingEvent] resolves, does not call the error handler
    and schedules one delivery of whatever the object holds under
    [eventName] and [data], [undefined] for a field it lacks; it
    never rejects, so among the bodies the signature admits only text
    can be rejected.  The scheduled delivery checks nothing either:
    it publishes under the name the value converts to. *)
Theorem handleIncomingEvent_structured (platform : Platform)
  (self : MikroEvent) (body : JSValue) :
  structured body = true ->
  let d := {| deferred_eventName := property "eventName" body;
              deferred_data := property "data" body |} in
  handleIncomingEvent platform self body = (Resolves tt, [d], []) /\
  (forall thrown ds trace,
      handleIncomingEvent platform self body <> (Rejects thrown, ds, trace)) /\
  (forall props, body = VObj props ->
      (JSObject.get "eventName" props = None -> deferred_eventName d = VUndefined) /\
      (JSObject.get "data" props = None -> deferred_data d = VUndefined)) /\
  (exists calls,
      snd (run_deferred platform self d) =
        Publish (ToString (deferred_eventName d)) (deferred_data d) :: calls).
Proof.
  intros Hs d.
  assert (Hcall : handleIncomingEvent platform self body = (Resolves tt, [d], []))
    by (destruct body; try discriminate; reflexivity).
  split; [exact Hcall|]. split; [|split].
  - intros thrown ds trace. rewrite Hcall. discriminate.
  - intros props ->. subst d. simpl. split; intros ->; reflexivity.
  - unfold run_deferred.
    set (published := match deferred_eventName d with
                      | VStr eventName =>
                          EventEmitter_emit platform eventName (deferred_data d)
                            (emitter self)
                      | _ => call_listeners (ToString (deferred_eventName d))
                               (deferred_data d) (emitter self)
                      end).
    destruct published as [[em calls] thrown].
    destruct thrown; simpl; eauto.
Qed.

(** * The properties on concrete inputs *)

(** ** Registry *)

(** A batch whose third entry repeats the name of the first and whose
    fourth is named after a member of the prototype: the call returns
    false, the first and second entries are registered, the first is as
    it was registered, the fourth is not. *)
Lemma addTarget_batch_witness :
  let first := remote_target "system_a" "http://localhost:8000" ["user.created"] in
  let second := {| new_name := "system_b"; new_url := None;
                   new_headers := None; new_events := None |} in
  let third := local_target "system_a" ["user.updated"] in
  let fourth := local_target "valueOf" ["user.updated"] in
  let call := addTarget pristine [first; second; third; fourth] [] in
  returned call = Returns false /\
  JSObject.get "system_a" (registry_of call) = Some (stored first) /\
  JSObject.get "system_b" (registry_of call) =
    Some {| name := "system_b"; url := None; headers := ∅; events := [] |} /\
  JSObject.get "valueOf" (registry_of call) = None /\
  (returned (addTarget pristine [first; second] []) = Returns true <->
     NoDup ["system_a"; "system_b"] /\
     (forall u, In u [first; second] ->
                JSObject.get (new_name u) ([] : Targets) = None /\
                inherited pristine (new_name u) = NotInherited)).
Proof.
  intros first second third fourth call.
  destruct (addTarget_batch pristine [first; second] [fourth] third [])
    as (Hheld & _ & _ & _ & _ & _).
  destruct (Hheld (stored first) eq_refl) as (Hfalse & _ & Hkept).
  destruct (addTarget_batch pristine [first] [third; fourth] second [])
    as (_ & _ & Hfresh & _ & _ & _).
  destruct (addTarget_batch pristine [first; second; third] [] fourth [])
    as (_ & Hup & _ & _ & _ & _).
  destruct (addTarget_batch pristine [first] [] second []) as (_ & _ & _ & _ & Hall & _).
  split; [exact Hfalse|]. split; [exact Hkept|].
  split; [exact (Hfresh eq_refl eq_refl)|].
  split; [|exact Hall].
  apply (Hup eq_refl). discriminate.
Defined.

Lemma updateTarget_fields_witness :
  let update := {| update_url := None;
                   update_headers := Some {[ "X-Trace" := "2" ]};
                   update_events := Some ["user.updated"] |} in
  updateTarget pristine "missing" update system_a
    = (Returns false, system_a, [does_not_exist "missing"], []) /\
  registry_of (updateTarget pristine "valueOf" update system_a) = system_a /\
  exists reg' t',
    updateTarget pristine "system_a" update system_a = (Returns true, reg', [], []) /\
    JSObject.get "system_a" reg' = Some t' /\
    name t' = "system_a" /\
    url t' = Some "http://localhost:8000" /\
    headers t' !! "Authorization" = Some "my-token" /\
    headers t' !! "X-Trace" = Some "2" /\
    events t' = ["user.updated"].
Proof.
  intros update.
  destruct (updateTarget_fields pristine "missing" update system_a) as (Hmissing & _ & _).
  destruct (updateTarget_fields pristine "valueOf" update system_a) as (_ & Hup & _).
  destruct (updateTarget_fields pristine "system_a" update system_a) as (_ & _ & Hheld).
  destruct (Hheld _ eq_refl) as (reg' & t' & Hcall & Hget & Hn & Hu & Hh & _ & He & _).
  split; [exact (Hmissing eq_refl eq_refl)|]. split; [exact (Hup eq_refl)|].
  exists reg', t'. split; [exact Hcall|]. split; [exact Hget|].
  split; [exact Hn|]. split; [exact Hu|].
  split; [exact (Hh "Authorization")|]. split; [exact (Hh "X-Trace")|]. exact He.
Defined.

(** The claim of C6 fails on a target registered with a name twice:
    adding that name once more succeeds and leaves two occurrences. *)
Lemma addEventToTarget_keeps_duplicates :
  exists t t' : Target,
    JSObject.get "t" duplicated = Some t /\
    returned (addEventToTarget pristine "t" ["a"] duplicated) = Returns true /\
    JSObject.get "t" (add_repeatedly pristine 1 "t" "a" duplicated) = Some t' /\
    occurrences "a" (events t') = 2 /\
    occurrences "a" (events t') <> 1.
Proof.
  do 2 eexists. split; [reflexivity|]. split; [reflexivity|].
  split; [reflexivity|]. split; [reflexivity | discriminate].
Defined.

Lemma addEventToTarget_repeated_witness :
  let reg := registry_of
               (addTarget pristine [local_target "system_a" ["user.created"]] []) in
  addEventToTarget pristine "system_b" ["user.updated"] reg
    = (Returns false, reg, [does_not_exist "system_b"], []) /\
  exists t' : Target,
    JSObject.get "system_a" (add_repeatedly pristine 3 "system_a" "user.created" reg)
      = Some t' /\
    occurrences "user.created" (events t') = 1 /\
    add_repeatedly pristine 4 "system_a" "user.created" reg
      = add_repeatedly pristine 3 "system_a" "user.created" reg.
Proof.
  intros reg.
  destruct (addEventToTarget_repeated pristine 2 "system_b" "user.updated" reg)
    as [Hmissing _].
  destruct (addEventToTarget_repeated pristine 2 "system_a" "user.created" reg)
    as [_ Hheld].
  destruct (Hheld _ eq_refl)
    as (_ & t' & Hget & _ & _ & _ & _ & _ & Hone & _ & Hagain).
  split; [exact (Hmissing eq_refl eq_refl _)|].
  exists t'. split; [exact Hget|]. split; [|exact Hagain].
  apply Hone. apply Nat.le_refl.
Defined.

(** A wildcard target is selected for a name no target lists. *)
Lemma resolveTargets_selects_witness :
  let reg := registry_of
               (addTarget pristine [local_target "internal" ["user.created"];
                                    local_target "all" ["*"]] []) in
  let wildcard := {| name := "all"; url := None; headers := ∅; events := ["*"] |} in
  In wildcard (resolveTargets "something.else" reg) /\
  sublist (resolveTargets "user.created" reg) (JSObject.values reg).
Proof.
  intros reg wildcard.
  destruct (resolveTargets_selects "user.created" reg) as (_ & Hsub & Hwild & _).
  split; [|exact Hsub].
  apply (Hwild wildcard); [right; left; reflexivity | left; reflexivity].
Defined.

(** ** Dispatch *)

Lemma emit_without_target_witness :
  resolveTargets "user.deleted" (targets partial_failures) = [] /\
  emit small_platform partial_failures test_server "user.deleted" VNull
    = (Resolves {| success := true; errors := [] |}, partial_failures, []).
Proof.
  split; [reflexivity|]. apply emit_without_target. reflexivity.
Defined.

(** The claim of C1 fails in two ways.  A local target whose listener
    throws adds an entry although no remote target matches (N = M =
    0).  And when the error handler throws, one failing remote target
    (M = 1) leaves two entries, two calls of the error handler and
    [success] true. *)
Lemma emit_errors_differ_from_remote_failures :
  (remote_targets "x" (local_failure None) = [] /\
   remote_failures small_platform test_server "x" VNull (local_failure None) = 0 /\
   exists r self' trace,
     emit small_platform (local_failure None) test_server "x" VNull
       = (Resolves r, self', trace) /\
     length (errors r) = 1 /\ success r = false /\ count is_report trace = 1) /\
  (length (remote_targets "x" remote_failure) = 1 /\
   remote_failures small_platform test_server "x" VNull remote_failure = 1 /\
   exists r self' trace,
     emit small_platform remote_failure test_server "x" VNull
       = (Resolves r, self', trace) /\
     length (errors r) = 2 /\ success r = true /\ count is_report trace = 2).
Proof.
  split.
  - split; [reflexivity|]. split; [reflexivity|].
    do 3 eexists. split; [reflexivity|]. repeat split.
  - split; [reflexivity|]. split; [reflexivity|].
    do 3 eexists. split; [reflexivity|]. repeat split.
Defined.

(** The emit of the unit test on partial failures: two remote
    targets of which one answers 500, and a local target. *)
Lemma emit_counts_failures_witness :
  returns_normally (errorHandler (options partial_failures)) /\
  local_failures small_platform "test.event" VNull partial_failures = 0 /\
  remote_failures small_platform test_server "test.event" VNull partial_failures = 1 /\
  exists r self' trace,
    emit small_platform partial_failures test_server "test.event" VNull
      = (Resolves r, self', trace) /\
    length (errors r) = 1 /\
    success r = false /\
    count is_report trace = 1 /\
    count is_fetch trace = 2 /\
    Permutation (List.filter is_settle trace) [Settle 0; Settle 1].
Proof.
  assert (Hh : returns_normally (errorHandler (options partial_failures)))
    by (intros err eventName data; reflexivity).
  split; [exact Hh|]. split; [reflexivity|]. split; [reflexivity|].
  destruct (emit_counts_failures small_platform partial_failures test_server
              "test.event" VNull Hh)
    as (r & self' & trace & Hcall & Hlen & Hs & Hrep & Hfetch & Hsettle & _).
  exists r, self', trace. repeat split; assumption.
Defined.



(** The claim of C5 fails in two ways, each with two local targets
    on the event.  When the first listener throws, the notifier
    publishes twice but never calls the second listener.  When the
    error handler throws as well, the notifier publishes once. *)
Lemma emit_publish_stops_early :
  (length (local_targets "x" (two_locals None)) = 2 /\
   In recording_listener (map listener (listeners_of "x" (emitter (two_locals None)))) /\
   let trace := trace_of (emit small_platform (two_locals None) test_server "x" VNull) in
   count is_publish trace = 2 /\
   ~ In (Invoke (handler_id recording_listener) VNull) trace) /\
  (length (local_targets "x" (two_locals (Some throwing_handler))) = 2 /\
   count is_publish
     (trace_of (emit small_platform (two_locals (Some throwing_handler))
                  test_server "x" VNull)) = 1).
Proof.
  split.
  - split; [reflexivity|]. split; [right; left; reflexivity|].
    split; [reflexivity|].
    intros H. vm_compute in H. intuition discriminate.
  - split; reflexivity.
Defined.

Lemma emit_local_deliveries_witness :
  let call := emit small_platform two_locals_quiet test_server "x" VNull in
  length (local_targets "x" two_locals_quiet) = 2 /\
  count is_publish (trace_of call) = 2 /\
  (exists remote : list Effect,
     trace_of call =
       [Publish "x" VNull; Invoke 3 VNull; Invoke 2 VNull;
        Publish "x" VNull; Invoke 2 VNull] ++ remote /\
     Forall remote_effect remote) /\
  (exists remote : list Effect,
     trace_of (emit small_platform (two_locals None) test_server "x" VNull) =
       [Publish "x" VNull; Invoke 1 VNull;
        Report (new_Error "Handler error") (VStr "x") VNull;
        Publish "x" VNull; Invoke 1 VNull;
        Report (new_Error "Handler error") (VStr "x") VNull] ++ remote /\
     Forall remote_effect remote) /\
  up_to_first_throw VNull (listeners_of "x" (emitter (two_locals None)))
    = [{| on_event := "x"; listener := failing_listener; is_once := false |}].
Proof.
  intros call.
  destruct (emit_local_deliveries small_platform (two_locals None) test_server "x" VNull)
    as (_ & _ & _ & Hall & Hstops & _).
  destruct (Hstops [] [{| on_event := "x"; listener := recording_listener;
                          is_once := false |}]
              {| on_event := "x"; listener := failing_listener; is_once := false |}
              (ThrownError (new_Error "Handler error"))
              (fun b (H : In b []) => match H with end) eq_refl) as (Hcalled & _).
  destruct (emit_local_deliveries small_platform two_locals_quiet test_server "x" VNull)
    as (_ & Hcount & Hquiet & _).
  destruct (Hcount (fun _ _ _ => eq_refl)) as (Hk & _).
  split; [reflexivity|]. split; [exact Hk|].
  assert (Hne : "x" <> "error") by discriminate.
  assert (Hq : forall l, In l (listeners_of "x" (emitter two_locals_quiet)) ->
                         run (listener l) VNull = None).
  { intros l [<-|[<-|[]]]; reflexivity. }
  split; [exact (Hquiet Hne Hq)|].
  split; [exact (Hall (fun _ _ _ => eq_refl)) | exact Hcalled].
Defined.

(** ** Inbound *)

(** The claim of C9 fails when the error handler throws: the caller
    gets what the handler threw, not the parse error. *)
Lemma handleIncomingEvent_rejects_with_handler_error :
  JSON_parse small_platform "not json" = inl unexpected_token /\
  handleIncomingEvent small_platform (new_MikroEvent (Some throwing_handler))
    (VStr "not json")
    = (Rejects (ThrownOther "handler failed"), [],
       [Report unexpected_token (VStr "parse_event") VUndefined]) /\
  ThrownOther "handler failed" <> ThrownError unexpected_token.
Proof.
  split; [reflexivity|]. split; [reflexivity | discriminate].
Defined.

Lemma handleIncomingEvent_invalid_text_witness :
  JSON_parse small_platform "{ invalid json }" = inl unexpected_token /\
  handleIncomingEvent small_platform (new_MikroEvent None) (VStr "{ invalid json }")
    = (Rejects (ThrownError unexpected_token), [],
       [Report unexpected_token (VStr "parse_event") VUndefined]).
Proof.
  split; [reflexivity|].
  exact (handleIncomingEvent_invalid_text small_platform (new_MikroEvent None)
           "{ invalid json }" unexpected_token eq_refl).
Defined.

Lemma handleIncomingEvent_structured_witness :
  let body := VObj [("event", VStr "user.created")] in
  structured body = true /\
  handleIncomingEvent small_platform (new_MikroEvent None) body
    = (Resolves tt,
       [{| deferred_eventName := VUndefined; deferred_data := VUndefined |}], []).
Proof.
  intros body. split; [reflexivity|].
  destruct (handleIncomingEvent_structured small_platform (new_MikroEvent None)
              body eq_refl) as (Hcall & _).
  exact Hcall.
Defined.

(** * Further properties *)

(** ** Plain objects: order and membership of keys *)

Module JSObjectOrder.
Import JSObject.

Section WithValue.
Context {V : Type}.
Implicit Types (o : t V) (v w : V) (key k : string).

Lemma get_None_keys key o : get key o = None <-> ~ In key (keys o).
Proof.
  induction o as [|[k x] o IH]; simpl.
  - split; [intros _ [] | reflexivity].
  - destruct (String.eqb_spec key k) as [->|Hne].
    + split; [discriminate | intros H; exfalso; apply H; now left].
    + rewrite IH. split.
      * intros H [Heq|Hin]; [congruence | contradiction].
      * intros H Hin. apply H. now right.
Qed.

Lemma get_Some_In key v o : get key o = Some v -> In (key, v) o.
Proof.
  induction o as [|[k x] o IH]; simpl; [discriminate|].
  destruct (String.eqb_spec key k) as [->|Hne].
  - intros [= ->]. now left.
  - intros H. right. now apply IH.
Qed.

Lemma place_index_permutation i key v o :
  Permutation (place_index i key v o) ((key, v) :: o).
Proof.
  induction o as [|[k x] o IH]; simpl; [reflexivity|].
  destruct (array_index k) as [j|]; [destruct (i <? j)%N|]; try reflexivity.
  rewrite IH. apply perm_swap.
Qed.

Lemma define_permutation key v o : Permutation (define key v o) ((key, v) :: o).
Proof.
  unfold define. destruct (array_index key).
  - apply place_index_permutation.
  - symmetry. apply Permutation_cons_append.
Qed.

Lemma delete_absent key o : get key o = None -> delete key o = o.
Proof.
  induction o as [|[k x] o IH]; simpl; [reflexivity|].
  destruct (String.eqb key k); [discriminate|]. simpl.
  intros H. now rewrite IH.
Qed.

Lemma delete_place_index i key v o :
  get key o = None -> delete key (place_index i key v o) = o.
Proof.
  induction o as [|[k x] o IH]; simpl.
  - now rewrite String.eqb_refl.
  - destruct (String.eqb key k) eqn:E; [discriminate|]. intros H.
    destruct (array_index k) as [j|]; [destruct (i <? j)%N|]; simpl;
      rewrite ?String.eqb_refl, ?E; simpl.
    + now rewrite (delete_absent key o H).
    + now rewrite IH.
    + now rewrite (delete_absent key o H).
Qed.

(** Deleting a key just defined gives the object back. *)
Lemma delete_define key v o : get key o = None -> delete key (define key v o) = o.
Proof.
  intros H. unfold define. destruct (array_index key).
  - now apply delete_place_index.
  - unfold delete. rewrite filter_app. simpl. rewrite String.eqb_refl. simpl.
    rewrite app_nil_r. now apply delete_absent.
Qed.

Lemma keys_delete key o :
  keys (delete key o) = List.filter (fun k => negb (String.eqb key k)) (keys o).
Proof.
  induction o as [|[k x] o IH]; simpl; [reflexivity|].
  destruct (String.eqb key k); simpl; [exact IH | f_equal; exact IH].
Qed.

Lemma delete_sublist key o : sublist (delete key o) o.
Proof. apply filter_sublist. Qed.

Lemma replace_Forall (P : string * V -> Prop) key v o :
  Forall P o -> P (key, v) -> Forall P (replace key v o).
Proof.
  intros Ho Hv. induction Ho as [|[k x] o Hx Ho IH]; simpl; [constructor|].
  destruct (String.eqb_spec key k) as [->|Hne]; now constructor.
Qed.

End WithValue.
End JSObjectOrder.

Import JSObjectOrder.

(** ** Registry: removing, invariants, order *)

Lemma values_sublist (reg reg' : Targets) :
  sublist reg' reg -> sublist (JSObject.values reg') (JSObject.values reg).
Proof.
  induction 1 as [|x l1 l2 _ IH|x l1 l2 _ IH]; simpl; now constructor.
Qed.

(** X1.  [removeTarget] on a name the registry neither holds nor
    inherits returns false, says so and changes nothing; on a name it
    does not hold but inherits it returns true, says nothing and
    changes nothing.  On a held name it returns true; the name is no
    longer held, every other target is as it was and in the same
    order; from then on, as long as the name is not inherited,
    [updateTarget] and [addEventToTarget] fail on it and [addTarget]
    accepts it again. *)
Theorem removeTarget_removes (realm : Realm) (n : string) (reg : Targets) :
  (JSObject.get n reg = None -> inherited realm n = NotInherited ->
     removeTarget realm n reg = (Returns false, reg, [does_not_exist n], [])) /\
  (JSObject.get n reg = None -> inherited realm n <> NotInherited ->
     removeTarget realm n reg = (Returns true, reg, [], [])) /\
  (forall t : Target, JSObject.get n reg = Some t ->
     exists reg' : Targets,
       removeTarget realm n reg = (Returns true, reg', [], []) /\
       JSObject.get n reg' = None /\
       (forall other : string, other <> n ->
           JSObject.get other reg' = JSObject.get other reg) /\
       sublist (JSObject.values reg') (JSObject.values reg) /\
       (forall later update, inherited later n = NotInherited ->
           returned (updateTarget later n update reg') = Returns false) /\
       (forall later eventsArray, inherited later n = NotInherited ->
           returned (addEventToTarget later n eventsArray reg') = Returns false) /\
       (forall later nt, inherited later n = NotInherited -> new_name nt = n ->
           JSObject.get n (registry_of (addTarget later [nt] reg')) = Some (stored nt))).
Proof.
  unfold removeTarget. split; [|split].
  - intros H Hup. apply has_false in H. now rewrite H, Hup.
  - intros H Hup. apply has_false in H. rewrite H.
    destruct (is_inherited (inherited realm n)) eqn:E; [reflexivity|].
    now apply is_inherited_false in E.
  - intros t H.
    assert (JSObject.has n reg = true) as -> by (apply has_true; eauto).
    exists (JSObject.delete n reg).
    pose proof (get_delete_eq n reg) as Hgone.
    split; [reflexivity|]. split; [exact Hgone|]. split.
    { intros other Hne. now apply get_delete_ne. }
    split; [apply values_sublist, delete_sublist|]. split; [|split].
    + intros later update Hup. unfold updateTarget. now rewrite Hgone, Hup.
    + intros later eventsArray Hup. unfold addEventToTarget. now rewrite Hgone, Hup.
    + intros later nt Hup <-. rewrite addTarget_registry. simpl.
      rewrite (addTarget_one_fresh _ _ _ Hgone Hup). simpl. apply get_set_eq.
Qed.

Lemma addTarget_one_well_formed (realm : Realm) (t : NewTarget) (reg : Targets) :
  well_formed reg -> well_formed (snd (fst (addTarget_one realm t reg))).
Proof.
  intros [Hnd Hname].
  destruct (addTarget_one_cases realm t reg) as [->|(E & _ & ->)].
  - now split.
  - simpl. unfold JSObject.set.
    assert (JSObject.has (new_name t) reg = false) as -> by now apply has_false.
    pose proof (define_permutation (new_name t) (stored t) reg) as Hperm.
    split.
    + unfold JSObject.keys. eapply Permutation_NoDup.
      * symmetry. apply Permutation_map, Hperm.
      * simpl. constructor; [now apply get_None_keys | exact Hnd].
    + eapply Permutation_Forall; [symmetry; exact Hperm|].
      constructor; [reflexivity | exact Hname].
Qed.

Lemma addTarget_map_well_formed (realm : Realm) (batch : list NewTarget) :
  forall reg, well_formed reg ->
              well_formed (snd (fst (addTarget_map realm batch reg))).
Proof.
  induction batch as [|t rest IH]; intros reg H; [exact H|].
  rewrite addTarget_map_cons. simpl. now apply IH, addTarget_one_well_formed.
Qed.

Lemma replace_well_formed (n : string) (t t' : Target) (reg : Targets) :
  well_formed reg -> JSObject.get n reg = Some t -> name t' = name t ->
  well_formed (JSObject.replace n t' reg).
Proof.
  intros [Hnd Hname] Hget Hsame. split.
  - now rewrite keys_replace.
  - apply replace_Forall; [exact Hname|]. simpl. rewrite Hsame.
    apply get_Some_In in Hget.
    rewrite List.Forall_forall in Hname. exact (Hname _ Hget).
Qed.

Lemma NoDup_filter_bool {A : Type} (p : A -> bool) (l : list A) :
  NoDup l -> NoDup (List.filter p l).
Proof.
  induction 1 as [|x l Hx _ IH]; simpl; [constructor|].
  destruct (p x); [|exact IH]. constructor; [|exact IH].
  intros Hin. apply filter_In in Hin. tauto.
Qed.

Lemma Forall_filter_bool {A : Type} (P : A -> Prop) (p : A -> bool) (l : list A) :
  Forall P l -> Forall P (List.filter p l).
Proof.
  induction 1 as [|x l Hx _ IH]; simpl; [constructor|].
  destruct (p x); [now constructor | exact IH].
Qed.

Lemma removeTarget_not_held (realm : Realm) (n : string) (reg : Targets) :
  JSObject.has n reg = false -> registry_of (removeTarget realm n reg) = reg.
Proof.
  intros H. unfold removeTarget. rewrite H.
  now destruct (is_inherited (inherited realm n)).
Qed.

Lemma perform_well_formed (realm : Realm) (call : RegistryCall) (reg : Targets) :
  well_formed reg -> well_formed (registry_of (perform realm call reg)).
Proof.
  intros H. destruct call as [batch|n update|n|n eventsArray]; simpl.
  - rewrite addTarget_registry. now apply addTarget_map_well_formed.
  - destruct (JSObject.get n reg) as [t|] eqn:E.
    + rewrite (updateTarget_held _ _ _ _ _ E).
      unfold registry_of. simpl. eapply replace_well_formed; eauto.
      apply apply_update_fields.
    + now rewrite updateTarget_not_held.
  - destruct (JSObject.has n reg) eqn:E; [|now rewrite removeTarget_not_held].
    unfold removeTarget. rewrite E.
    unfold registry_of. simpl. destruct H as [Hnd Hname]. split.
    + rewrite keys_delete. now apply NoDup_filter_bool.
    + now apply Forall_filter_bool.
  - destruct (JSObject.get n reg) as [t|] eqn:E.
    + destruct (addEventToTarget_held realm n eventsArray reg t E) as [-> _].
      unfold registry_of. simpl. eapply replace_well_formed; eauto.
    + now rewrite addEventToTarget_not_held.
Qed.

Lemma perform_all_well_formed (calls : list (Realm * RegistryCall)) :
  well_formed (perform_all calls []).
Proof.
  unfold perform_all. assert (Hempty : well_formed []) by (split; constructor).
  revert Hempty. generalize ([] : Targets) as reg.
  induction calls as [|[realm call] rest IH]; intros reg Hreg; [exact Hreg|].
  simpl. now apply IH, perform_well_formed.
Qed.

Lemma well_formed_names (reg : Targets) :
  well_formed reg -> map name (JSObject.values reg) = JSObject.keys reg.
Proof.
  intros [_ Hname]. unfold JSObject.values, JSObject.keys. rewrite map_map.
  apply map_ext_Forall. exact Hname.
Qed.

(** X2.  Whatever registry calls are made on a new dispatcher, and in
    whatever order, the registry holds no name twice and every stored
    target carries the name it is stored under; in particular no two
    stored targets have the same name. *)
Theorem registry_well_formed (calls : list (Realm * RegistryCall)) :
  well_formed (perform_all calls []) /\
  NoDup (map name (JSObject.values (perform_all calls []))).
Proof.
  pose proof (perform_all_well_formed calls) as H.
  split; [exact H|]. rewrite (well_formed_names _ H). apply H.
Qed.

Lemma StronglySorted_snoc {A : Type} (R : A -> A -> Prop) (l : list A) (x : A) :
  StronglySorted R l -> Forall (fun y => R y x) l -> StronglySorted R (l ++ [x]).
Proof.
  induction 1 as [|y l Hl IH Hy]; intros Hx; simpl.
  - repeat constructor.
  - inversion Hx as [|? ? Hyx Hlx]; subst. constructor; [now apply IH|].
    apply Forall_app. split; [exact Hy | now constructor].
Qed.

Lemma StronglySorted_filter_bool {A : Type} (R : A -> A -> Prop) (p : A -> bool)
  (l : list A) :
  StronglySorted R l -> StronglySorted R (List.filter p l).
Proof.
  induction 1 as [|y l Hl IH Hy]; simpl; [constructor|].
  destruct (p y); [|exact IH]. constructor; [exact IH|].
  now apply Forall_filter_bool.
Qed.

Lemma StronglySorted_pairwise {A : Type} (R : A -> A -> Prop) (l1 l2 l3 : list A)
  (x y : A) :
  StronglySorted R (l1 ++ x :: l2 ++ y :: l3) -> R x y.
Proof.
  induction l1 as [|z l1 IH]; simpl; intros H; inversion H as [|? ? Hs Hall]; subst.
  - rewrite List.Forall_forall in Hall. apply Hall.
    apply in_or_app. right. now left.
  - now apply IH.
Qed.

Lemma enumerates_before_index (key k : string) (i : N) :
  JSObject.array_index key = Some i ->
  enumerates_before key k <->
  match JSObject.array_index k with Some j => (i <= j)%N | None => True end.
Proof. intros H. unfold enumerates_before. now rewrite H. Qed.

Lemma place_index_order (i : N) (key : string) (v : Target) (reg : Targets) :
  JSObject.array_index key = Some i ->
  enumeration_order reg ->
  enumeration_order (JSObject.place_index i key v reg).
Proof.
  intros Hkey. unfold enumeration_order.
  induction reg as [|[k w] reg IH]; simpl; intros Hs.
  - repeat constructor.
  - inversion Hs as [|? ? Hs' Hall]; subst.
    destruct (JSObject.array_index k) as [j|] eqn:Hk.
    + destruct (i <? j)%N eqn:Hij; simpl.
      * apply N.ltb_lt in Hij. constructor; [exact Hs|]. constructor.
        -- apply (enumerates_before_index _ _ _ Hkey). rewrite Hk. lia.
        -- eapply Forall_impl; [|exact Hall]. intros x Hx.
           apply (enumerates_before_index _ _ _ Hkey).
           apply (enumerates_before_index _ _ _ Hk) in Hx.
           destruct (JSObject.array_index x); [lia | exact I].
      * apply N.ltb_ge in Hij. constructor; [now apply IH|].
        eapply Permutation_Forall.
        -- symmetry. apply Permutation_map, place_index_permutation.
        -- simpl. constructor; [|exact Hall].
           apply (enumerates_before_index _ _ _ Hk). now rewrite Hkey.
    + simpl. constructor; [exact Hs|]. constructor.
      * apply (enumerates_before_index _ _ _ Hkey). now rewrite Hk.
      * eapply Forall_impl; [|exact Hall]. intros x Hx.
        apply (enumerates_before_index _ _ _ Hkey).
        unfold enumerates_before in Hx. rewrite Hk in Hx.
        destruct (JSObject.array_index x); [contradiction | exact I].
Qed.

Lemma define_order (key : string) (v : Target) (reg : Targets) :
  enumeration_order reg -> enumeration_order (JSObject.define key v reg).
Proof.
  intros Hs. unfold JSObject.define.
  destruct (JSObject.array_index key) as [i|] eqn:Hkey.
  - now apply place_index_order.
  - unfold enumeration_order, JSObject.keys. rewrite map_app. simpl.
    apply StronglySorted_snoc; [exact Hs|].
    apply List.Forall_forall. intros x _. unfold enumerates_before.
    rewrite Hkey. now destruct (JSObject.array_index x).
Qed.

Lemma addTarget_map_order (realm : Realm) (batch : list NewTarget) :
  forall reg, enumeration_order reg ->
              enumeration_order (snd (fst (addTarget_map realm batch reg))).
Proof.
  induction batch as [|t rest IH]; intros reg H; [exact H|].
  rewrite addTarget_map_cons. simpl. apply IH.
  destruct (addTarget_one_cases realm t reg) as [->|(E & _ & ->)]; [exact H|].
  simpl. unfold JSObject.set.
  assert (JSObject.has (new_name t) reg = false) as -> by now apply has_false.
  now apply define_order.
Qed.

Lemma perform_order (realm : Realm) (call : RegistryCall) (reg : Targets) :
  enumeration_order reg -> enumeration_order (registry_of (perform realm call reg)).
Proof.
  intros H. destruct call as [batch|n update|n|n eventsArray]; simpl.
  - rewrite addTarget_registry. now apply addTarget_map_order.
  - destruct (JSObject.get n reg) as [t|] eqn:E.
    + rewrite (updateTarget_held _ _ _ _ _ E).
      unfold registry_of, enumeration_order. simpl. now rewrite keys_replace.
    + now rewrite updateTarget_not_held.
  - destruct (JSObject.has n reg) eqn:E; [|now rewrite removeTarget_not_held].
    unfold removeTarget. rewrite E.
    unfold registry_of, enumeration_order. simpl. rewrite keys_delete.
    now apply StronglySorted_filter_bool.
  - destruct (JSObject.get n reg) as [t|] eqn:E.
    + destruct (addEventToTarget_held realm n eventsArray reg t E) as [-> _].
      unfold registry_of, enumeration_order. simpl. now rewrite keys_replace.
    + now rewrite addEventToTarget_not_held.
Qed.

(** X3.  Whatever registry calls are made on a new dispatcher, the
    registry enumerates its targets, and so [emit] addresses them,
    with the names that are array indices first, in ascending
    numeric order, and the other names after them: of two names, the
    one enumerated later is never an array index smaller than the
    earlier one, nor an array index when the earlier one is none. *)
Theorem registry_enumeration_order (calls : list (Realm * RegistryCall)) :
  enumeration_order (perform_all calls []) /\
  (forall before k1 between k2 after,
      JSObject.keys (perform_all calls []) = before ++ k1 :: between ++ k2 :: after ->
      match JSObject.array_index k1, JSObject.array_index k2 with
      | Some i, Some j => (i <= j)%N
      | None, Some _ => False
      | _, None => True
      end).
Proof.
  assert (H : enumeration_order (perform_all calls [])).
  { unfold perform_all. assert (Hempty : enumeration_order []) by constructor.
    revert Hempty. generalize ([] : Targets) as reg.
    induction calls as [|[realm call] rest IH]; intros reg Hreg; [exact Hreg|].
    simpl. now apply IH, perform_order. }
  split; [exact H|]. intros before k1 between k2 after Hkeys.
  unfold enumeration_order in H. rewrite Hkeys in H.
  apply StronglySorted_pairwise in H. unfold enumerates_before in H.
  destruct (JSObject.array_index k1), (JSObject.array_index k2); auto.
Qed.

Lemma addTarget_map_in_order (realm : Realm) (batch : list NewTarget) :
  forall reg : Targets,
    Forall (fun t => JSObject.array_index (new_name t) = None) batch ->
    NoDup (map new_name batch) ->
    (forall t, In t batch ->
               JSObject.get (new_name t) reg = None /\
               inherited realm (new_name t) = NotInherited) ->
    addTarget_map realm batch reg =
      (repeat true (length batch), reg ++ map entry_of batch, []).
Proof.
  induction batch as [|t rest IH]; intros reg Hidx Hnd Hfresh; simpl.
  - now rewrite app_nil_r.
  - inversion Hidx as [|? ? Ht Hrest]; subst.
    inversion Hnd as [|? ? Hnotin Hnd']; subst.
    destruct (Hfresh t (or_introl eq_refl)) as [Hget Hfree].
    rewrite (addTarget_one_fresh _ _ _ Hget Hfree).
    unfold JSObject.set.
    assert (JSObject.has (new_name t) reg = false) as -> by now apply has_false.
    unfold JSObject.define. rewrite Ht.
    rewrite (IH (reg ++ [(new_name t, stored t)])); try assumption.
    + unfold entry_of at 2. now rewrite <- app_assoc.
    + intros u Hu. destruct (Hfresh u (or_intror Hu)) as [Hgetu Hfreeu].
      split; [|exact Hfreeu]. rewrite get_app, Hgetu. simpl.
      destruct (String.eqb_spec (new_name u) (new_name t)) as [Heq|Hne]; [|reflexivity].
      exfalso. apply Hnotin. rewrite <- Heq. now apply in_map.
Qed.

(** X4.  A batch of targets with pairwise distinct names, none of
    them held, inherited or an array index, is accepted as a whole,
    prints nothing and is stored behind the targets already there, in
    the order of the batch: such targets are enumerated, and addressed
    by [emit], in the order in which they were registered. *)
Theorem addTarget_registration_order (realm : Realm) (batch : list NewTarget)
  (reg : Targets) :
  Forall (fun t => JSObject.array_index (new_name t) = None) batch ->
  NoDup (map new_name batch) ->
  (forall t, In t batch ->
             JSObject.get (new_name t) reg = None /\
             inherited realm (new_name t) = NotInherited) ->
  addTarget realm batch reg = (Returns true, reg ++ map entry_of batch, [], []) /\
  JSObject.values (registry_of (addTarget realm batch reg))
    = JSObject.values reg ++ map stored batch.
Proof.
  intros Hidx Hnd Hfresh.
  assert (Hcall : addTarget realm batch reg
                  = (Returns true, reg ++ map entry_of batch, [], [])).
  { unfold addTarget. rewrite addTarget_map_in_order by assumption.
    f_equal. f_equal. f_equal. f_equal. clear. induction batch; simpl; auto. }
  split; [exact Hcall|]. rewrite Hcall. unfold registry_of, JSObject.values. simpl.
  now rewrite map_app, map_map.
Qed.

(** X5.  Registering a target under a name that is neither held nor
    inherited and then removing that name gives back the registry as
    it was, at every position; both calls return true. *)
Theorem addTarget_removeTarget_round_trip (realm later : Realm) (t : NewTarget)
  (reg : Targets) :
  JSObject.get (new_name t) reg = None ->
  inherited realm (new_name t) = NotInherited ->
  returned (addTarget realm [t] reg) = Returns true /\
  removeTarget later (new_name t) (registry_of (addTarget realm [t] reg))
    = (Returns true, reg, [], []).
Proof.
  intros H Hup. rewrite addTarget_registry, addTarget_returned. simpl.
  rewrite (addTarget_one_fresh _ _ _ H Hup). simpl. split; [reflexivity|].
  unfold removeTarget.
  assert (JSObject.has (new_name t) (JSObject.set (new_name t) (stored t) reg) = true)
    as -> by (apply has_true; eexists; apply get_set_eq).
  unfold JSObject.set.
  assert (JSObject.has (new_name t) reg = false) as -> by now apply has_false.
  now rewrite delete_define.
Qed.

(** ** Registry: updates and subscriptions *)

Lemma apply_update_compose (first second : TargetUpdate) (t : Target) :
  apply_update second (apply_update first t)
    = apply_update (combine_updates first second) t.
Proof.
  unfold apply_update, combine_updates.
  destruct first as [u1 h1 e1], second as [u2 h2 e2]; simpl.
  destruct u1, h1, e1, u2, h2, e2; simpl; try reflexivity;
    now rewrite (assoc_L (∪)).
Qed.

(** X6.  Two [updateTarget] calls in a row on one name leave the
    registry as the single call with the combined update does: of a
    url or an event list supplied twice the later one stays, and the
    headers of both are merged, the later ones winning.  A call
    repeated with the same update changes nothing the second time. *)
Theorem updateTarget_twice (realm1 realm2 realm : Realm) (n : string)
  (first second : TargetUpdate) (reg : Targets) :
  registry_of (updateTarget realm2 n second
                 (registry_of (updateTarget realm1 n first reg)))
    = registry_of (updateTarget realm n (combine_updates first second) reg) /\
  registry_of (updateTarget realm2 n first
                 (registry_of (updateTarget realm1 n first reg)))
    = registry_of (updateTarget realm n first reg).
Proof.
  assert (Hgen : forall a b,
    registry_of (updateTarget realm2 n b (registry_of (updateTarget realm1 n a reg)))
      = registry_of (updateTarget realm n (combine_updates a b) reg)).
  { intros a b. destruct (JSObject.get n reg) as [t|] eqn:E.
    - rewrite (updateTarget_held realm1 _ _ _ _ E),
        (updateTarget_held realm _ _ _ _ E).
      unfold registry_of at 2 3. cbn [fst snd].
      rewrite (updateTarget_held realm2 n b _ (apply_update a t))
        by (eapply get_replace_eq, E).
      unfold registry_of. cbn [fst snd].
      now rewrite replace_replace, apply_update_compose.
    - rewrite (updateTarget_not_held realm1 _ _ _ E).
      now rewrite !updateTarget_not_held. }
  split; [apply Hgen|]. rewrite Hgen.
  destruct (JSObject.get n reg) as [t|] eqn:E;
    [|now rewrite !updateTarget_not_held].
  rewrite !(updateTarget_held realm _ _ _ _ E).
  unfold registry_of. simpl. f_equal.
  rewrite <- apply_update_compose. unfold apply_update.
  destruct first as [u h e]; simpl. destruct u, h, e; simpl; try reflexivity;
    now rewrite (assoc_L (∪)), (idemp_L (∪)).
Qed.

Lemma push_missing_appends (eventsArray : list string) :
  forall evs : list string,
    exists added : list string,
      push_missing eventsArray evs = evs ++ added /\
      NoDup added /\
      (forall e, In e added <-> In e eventsArray /\ ~ In e evs).
Proof.
  induction eventsArray as [|x rest IH]; intros evs; simpl.
  - exists []. rewrite app_nil_r. split; [reflexivity|]. split; [constructor|].
    intros e. simpl. tauto.
  - destruct (includes evs x) eqn:Hx.
    + destruct (IH evs) as (added & Heq & Hnd & Hin). exists added.
      split; [exact Heq|]. split; [exact Hnd|]. intros e. rewrite Hin.
      apply includes_In in Hx. split.
      * intros [H1 H2]. split; [now right | exact H2].
      * intros [[<-|H1] H2]; [contradiction | now split].
    + destruct (IH (evs ++ [x])) as (added & Heq & Hnd & Hin).
      apply includes_false in Hx. exists (x :: added).
      split; [now rewrite Heq, <- app_assoc|]. split.
      * constructor; [|exact Hnd]. intros H. apply Hin in H as [_ H].
        apply H, in_or_app. right. now left.
      * intros e. simpl. rewrite Hin. split.
        -- intros [<-|[H1 H2]]; [split; [now left | exact Hx]|].
           split; [now right|]. intros H. apply H2, in_or_app. now left.
        -- intros [[<-|H1] H2]; [now left|].
           destruct (String.string_dec x e) as [<-|Hne]; [now left|]. right.
           split; [exact H1|]. intros H. apply in_app_or in H as [H|[H|[]]]; congruence.
Qed.

Lemma NoDup_append_disjoint {A : Type} (l k : list A) :
  NoDup l -> NoDup k -> (forall x, In x k -> ~ In x l) -> NoDup (l ++ k).
Proof.
  intros Hl Hk Hdis. induction Hl as [|y l Hy _ IH]; simpl; [exact Hk|].
  constructor.
  - intros H. apply in_app_or in H as [H|H]; [contradiction|].
    apply (Hdis y H). now left.
  - apply IH. intros x Hx Hin. apply (Hdis x Hx). now right.
Qed.

(** X7.  [addEventToTarget] with an array of names keeps the events
    the target has, in their order, and appends behind them exactly
    the names of the array that the target lacks, each once even when
    the array repeats it.  So a list without duplicates stays without
    duplicates, every name of the array is subscribed afterwards, and
    no event the target matched is lost. *)
Theorem addEventToTarget_appends (realm : Realm) (n : string)
  (eventsArray : list string) (reg : Targets) (t : Target) :
  JSObject.get n reg = Some t ->
  exists (added : list string) (t' : Target),
    JSObject.get n (registry_of (addEventToTarget realm n eventsArray reg)) = Some t' /\
    events t' = events t ++ added /\
    NoDup added /\
    (forall e, In e added <-> In e eventsArray /\ ~ In e (events t)) /\
    (forall e, In e eventsArray -> In e (events t')) /\
    (NoDup (events t) -> NoDup (events t')) /\
    (forall eventName, matches eventName t = true -> matches eventName t' = true).
Proof.
  intros H. destruct (addEventToTarget_held realm n eventsArray reg t H) as [_ Hget].
  destruct (push_missing_appends eventsArray (events t)) as (added & Heq & Hnd & Hin).
  eexists added, _. split; [exact Hget|]. cbn [events].
  split; [exact Heq|]. split; [exact Hnd|]. split; [exact Hin|].
  rewrite Heq. split; [|split].
  - intros e He. apply in_or_app.
    destruct (in_dec String.string_dec e (events t)) as [Hold|Hnew]; [now left|].
    right. apply Hin. now split.
  - intros Hold. apply NoDup_append_disjoint; try assumption.
    intros x Hx. now apply Hin in Hx.
  - intros eventName Hm. apply matches_spec in Hm. apply matches_spec.
    destruct Hm as [Hm|Hm]; [left | right]; apply in_or_app; now left.
Qed.

(** X8.  The url an update supplies decides how the target is
    addressed from then on: the empty string makes it a local target,
    which gets publishes and no request; any other string makes it a
    remote one.  An update without a url leaves the kind as it was,
    and no update takes a stored url back to [undefined]. *)
Theorem updateTarget_kind (realm : Realm) (n : string) (update : TargetUpdate)
  (reg : Targets) (t : Target) :
  JSObject.get n reg = Some t ->
  exists t' : Target,
    JSObject.get n (registry_of (updateTarget realm n update reg)) = Some t' /\
    is_external t' =
      match update_url update with
      | Some u => negb (String.eqb u "")
      | None => is_external t
      end /\
    is_local t' = negb (is_external t') /\
    (url t' = None -> url t = None /\ update_url update = None).
Proof.
  intros H. unfold updateTarget. rewrite H. unfold registry_of. simpl.
  exists (apply_update update t). split; [eapply get_replace_eq, H|].
  destruct (apply_update_fields update t) as (_ & Hu & _).
  unfold is_external, is_local. rewrite Hu.
  destruct (update_url update) as [u|]; simpl.
  - split; [reflexivity|]. split; [reflexivity | discriminate].
  - split; [reflexivity|]. split; [reflexivity | auto].
Qed.

(** ** Registry: names found up the prototype chain *)

Lemma pushed_appended (eventsArray evs added : list string) :
  push_missing eventsArray evs = evs ++ added -> pushed eventsArray evs = added.
Proof.
  intros H. unfold pushed. rewrite H.
  now rewrite skipn_app, skipn_all, Nat.sub_diag.
Qed.

(** X25.  Under a name the registry does not hold but finds up the
    prototype chain as an object or a function, which every member of
    [Object.prototype] is in every realm, the guards of all four
    methods take the value found for a target.  [addTarget] says the
    target already exists, returns false and stores nothing.
    [removeTarget] returns true, says nothing and removes nothing.
    [updateTarget] returns true, says nothing, leaves the registry as
    it was and makes its assignments on the value found.
    [addEventToTarget] returns true without a word for an empty array;
    for any other array it throws a [TypeError] when the value found
    has no [events], and otherwise pushes the missing names onto
    those events and returns true; the registry is as it was in each
    case. *)
Theorem registry_inherited_names (realm : Realm) (n : string) (reg : Targets)
  (its_events : option (list string)) :
  JSObject.get n reg = None ->
  inherited realm n = InheritedObject its_events ->
  (forall t : NewTarget, new_name t = n ->
     addTarget realm [t] reg = (Returns false, reg, [already_exists n], [])) /\
  removeTarget realm n reg = (Returns true, reg, [], []) /\
  (forall update : TargetUpdate,
     updateTarget realm n update reg = (Returns true, reg, [], update_writes n update)) /\
  addEventToTarget realm n [] reg = (Returns true, reg, [], []) /\
  (forall (e : string) (rest : list string),
     match its_events with
     | None =>
         exists typeError : JSError,
           err_name typeError = "TypeError" /\
           addEventToTarget realm n (e :: rest) reg
             = (Throws (ThrownError typeError), reg, [], [])
     | Some evs =>
         exists added : list string,
           push_missing (e :: rest) evs = evs ++ added /\
           addEventToTarget realm n (e :: rest) reg
             = (Returns true, reg, [], map (PushEvent n) added)
     end) /\
  (forall (member : string) (anyRealm : Realm),
     In member Object_prototype -> inherited anyRealm member <> NotInherited).
Proof.
  intros Hget Hup. split; [|split; [|split; [|split; [|split]]]].
  - intros t <-. unfold addTarget. simpl.
    rewrite addTarget_one_inherited by (rewrite Hup; discriminate). reflexivity.
  - unfold removeTarget. apply has_false in Hget. now rewrite Hget, Hup.
  - intros update. unfold updateTarget. now rewrite Hget, Hup.
  - unfold addEventToTarget. now rewrite Hget, Hup.
  - intros e rest. unfold addEventToTarget. rewrite Hget, Hup.
    destruct its_events as [evs|].
    + destruct (push_missing_appends (e :: rest) evs) as (added & Heq & _).
      exists added. split; [exact Heq|]. now rewrite (pushed_appended _ _ _ Heq).
    + eexists. split; [|reflexivity]. reflexivity.
  - intros member anyRealm Hin Hnone.
    pose proof (inherited_member anyRealm member Hin) as H.
    now rewrite Hnone in H.
Qed.

(** ** Dispatch: what an emit sends and what it leaves behind *)

Lemma issued_requests (platform : Platform) (net : Network) (eventName : string)
  (data : JSValue) (remotes : list Target) :
  forall index : nat,
    map (fun r => Fetch (fst (fst (fst r))) (snd (fst r)))
      (issue platform net eventName data index remotes)
    = map (fun p => Fetch (fst p) (request_of platform (snd p) eventName data))
        (combine (seq index (length remotes)) remotes).
Proof.
  induction remotes as [|t rest IH]; intros index; simpl; [reflexivity|].
  now rewrite IH.
Qed.

Lemma settle_all_no_fetch (handler : ErrorHandler) (eventName : string)
  (data : JSValue) (arrived : list (nat * Target * Request * Reply))
  (result : EmitResult) :
  List.filter is_fetch (snd (settle_all handler eventName data arrived result)) = [].
Proof.
  destruct (settle_all_shape handler eventName data arrived result) as [H _].
  induction H as [|e l (_ & _ & He) _ IH]; simpl; [reflexivity|]. now rewrite He.
Qed.

(** X9.  An emit that resolves has sent exactly one request per
    matched remote target, in registry order, and an emit that
    rejects has sent none.  Each request is a POST to the target's
    url whose body is the JSON text of [{eventName, data}]; it
    carries every header of the target, and [Content-Type:
    application/json] unless the target sets a [Content-Type] of its
    own. *)
Theorem emit_requests (platform : Platform) (self : MikroEvent)
  (net : Network) (eventName : string) (data : JSValue) :
  let call := emit platform self net eventName data in
  let remotes := remote_targets eventName self in
  List.filter is_fetch (trace_of call) =
    match fst (fst call) with
    | Resolves _ => expected_requests platform eventName data remotes
    | Rejects _ => []
    end /\
  (forall t : Target, In t remotes ->
     let request := request_of platform t eventName data in
     req_method request = "POST" /\
     req_url request = url t /\
     (exists u, url t = Some u /\ u <> "") /\
     req_body request =
       JSON_stringify platform (VObj [("eventName", VStr eventName); ("data", data)]) /\
     (forall key value, headers t !! key = Some value ->
                        req_headers request !! key = Some value) /\
     (headers t !! "Content-Type" = None ->
        req_headers request !! "Content-Type" = Some "application/json") /\
     (forall key, key <> "Content-Type" -> headers t !! key = None ->
                  req_headers request !! key = None)).
Proof.
  intros call remotes. subst call remotes. split.
  - unfold trace_of. run_local_phase platform self eventName data Eloc.
    destruct (emit_local_shape _ _ _ _ _ _ _ _ _ _ _ Eloc) as [Hshape _].
    apply local_effect_counts in Hshape as [Hf _].
    destruct escaped as [thrown|]; simpl; [exact Hf|].
    pose proof (settle_all_no_fetch (errorHandler (options self)) eventName data
                  (completion_order (issue platform net eventName data 0
                                       (remote_targets eventName self))) result1) as Hs.
    destruct (settle_all _ eventName data _ result1) as [result2 trace2].
    simpl in *. rewrite !filter_app, Hf, Hs, app_nil_r. simpl.
    rewrite issued_requests. unfold expected_requests.
    generalize (combine (seq 0 (length (remote_targets eventName self)))
                  (remote_targets eventName self)).
    intros l. induction l as [|p l IH]; simpl; [reflexivity|]. now rewrite IH.
  - intros t Hin request. subst request. unfold request_of. simpl.
    split; [reflexivity|]. split; [reflexivity|]. split.
    { apply filter_In in Hin as [_ Hext]. unfold is_external, truthy in Hext.
      destruct (url t) as [u|]; [|discriminate]. exists u. split; [reflexivity|].
      intros ->. discriminate. }
    split; [reflexivity|]. split; [|split].
    + intros key value Hk. rewrite lookup_union, Hk.
      now destruct ({[ "Content-Type" := "application/json" ]} !! key).
    + intros Hk. now rewrite lookup_union, Hk, lookup_singleton_eq.
    + intros key Hne Hk. rewrite lookup_union, Hk, lookup_singleton_ne by congruence.
      reflexivity.
Qed.

Lemma call_listeners_keeps (eventName : string) (data : JSValue) (ls : list Listener) :
  let remaining := fst (fst (call_listeners eventName data ls)) in
  sublist remaining ls /\
  after_publish eventName remaining = after_publish eventName ls.
Proof.
  unfold after_publish. induction ls as [|l rest [IHs IHk]]; simpl.
  - split; [constructor | reflexivity].
  - destruct (call_listeners eventName data rest) as [[rest' calls] thrown].
    simpl in IHs, IHk.
    destruct (String.eqb eventName (on_event l)) eqn:E.
    + destruct (run (listener l) data); destruct (is_once l) eqn:O; simpl;
        rewrite ?E, ?O; simpl; split;
        first [ reflexivity
              | now rewrite IHk
              | apply sublist_skip; first [reflexivity | assumption]
              | now apply sublist_cons ].
    + simpl. rewrite E. simpl. split; [now constructor | now rewrite IHk].
Qed.

Lemma EventEmitter_emit_keeps (platform : Platform) (eventName : string)
  (data : JSValue) (em : EventEmitter) :
  let remaining := fst (fst (EventEmitter_emit platform eventName data em)) in
  sublist remaining em /\
  after_publish eventName remaining = after_publish eventName em.
Proof.
  unfold EventEmitter_emit.
  destruct (String.eqb eventName "error"
            && Nat.eqb (length (listeners_of eventName em)) 0).
  - simpl. split; reflexivity.
  - apply call_listeners_keeps.
Qed.

Lemma emit_local_keeps (platform : Platform) (handler : ErrorHandler)
  (eventName : string) (data : JSValue) (locals : list Target) :
  forall em result,
    let remaining :=
      snd (fst (fst (emit_local platform handler eventName data locals em result))) in
    sublist remaining em /\
    after_publish eventName remaining = after_publish eventName em.
Proof.
  induction locals as [|t rest IH]; intros em result; simpl.
  - split; reflexivity.
  - pose proof (EventEmitter_emit_keeps platform eventName data em) as [Hs Hk].
    destruct (EventEmitter_emit platform eventName data em) as [[em1 calls] thrown].
    simpl in Hs, Hk. destruct thrown as [caught|].
    + destruct (handler (actualError caught) (VStr eventName) data); simpl.
      * now split.
      * specialize (IH em1 (mark_failed
                              (push_error result
                                 (makeError (name t) eventName (actualError caught))))).
        destruct (emit_local platform handler eventName data rest em1 _)
          as [[[esc em2] result2] tr]. simpl in *. destruct IH as [IHs IHk].
        split; [etransitivity; eassumption | congruence].
    + specialize (IH em1 result).
      destruct (emit_local platform handler eventName data rest em1 result)
        as [[[esc em2] result2] tr]. simpl in *. destruct IH as [IHs IHk].
      split; [etransitivity; eassumption | congruence].
Qed.

Lemma after_publish_In (eventName : string) (ls : list Listener) (l : Listener) :
  In l (after_publish eventName ls) <->
  In l ls /\ (on_event l <> eventName \/ is_once l = false).
Proof.
  unfold after_publish. rewrite filter_In, negb_true_iff, andb_false_iff.
  split; intros [H1 H2]; (split; [exact H1|]).
  - destruct H2 as [H2|H2]; [left | now right].
    apply String.eqb_neq in H2. congruence.
  - destruct H2 as [H2|H2]; [left | now right].
    apply String.eqb_neq. congruence.
Qed.

(** X10.  Whatever its outcome, an emit leaves the registry and the
    options as they were, and of the listeners it takes away nothing
    but [once] listeners of the emitted event: every other listener is
    still registered, in the same order. *)
Theorem emit_leaves (platform : Platform) (self : MikroEvent)
  (net : Network) (eventName : string) (data : JSValue) :
  let self' := state_after (emit platform self net eventName data) in
  targets self' = targets self /\
  options self' = options self /\
  sublist (emitter self') (emitter self) /\
  after_publish eventName (emitter self') = after_publish eventName (emitter self) /\
  (forall l : Listener,
      In l (emitter self) ->
      on_event l <> eventName \/ is_once l = false ->
      In l (emitter self')).
Proof.
  intros self'. subst self'. unfold state_after.
  pose proof (emit_local_keeps platform (errorHandler (options self)) eventName data
                (local_targets eventName self) (emitter self)
                {| success := true; errors := [] |}) as Hkeep.
  run_local_phase platform self eventName data Eloc. simpl in Hkeep.
  destruct Hkeep as [Hs Hk].
  assert (Hem : forall A (c : Completion A) tr,
             state_after (c, with_emitter self em, tr) = with_emitter self em)
    by reflexivity.
  assert (Hgoal :
    targets (with_emitter self em) = targets self /\
    options (with_emitter self em) = options self /\
    sublist (emitter (with_emitter self em)) (emitter self) /\
    after_publish eventName (emitter (with_emitter self em))
      = after_publish eventName (emitter self) /\
    (forall l, In l (emitter self) ->
               on_event l <> eventName \/ is_once l = false ->
               In l (emitter (with_emitter self em)))).
  { simpl. repeat (split; [reflexivity || assumption|]).
    intros l Hin Hl.
    assert (In l (after_publish eventName em)) as H
      by (rewrite Hk; now apply after_publish_In).
    now apply after_publish_In in H. }
  destruct escaped as [thrown|]; [exact Hgoal|].
  destruct (settle_all _ eventName data _ result1) as [result2 trace2].
  exact Hgoal.
Qed.

Lemma NoDup_map_filter {A B : Type} (f : A -> B) (p : A -> bool) (l : list A) :
  NoDup (map f l) -> NoDup (map f (List.filter p l)).
Proof.
  induction l as [|x l IH]; simpl; intros H; [constructor|].
  inversion H as [|? ? Hx Hl]; subst. destruct (p x); simpl; [|now apply IH].
  constructor; [|now apply IH]. intros Hin. apply Hx.
  apply in_map_iff in Hin as [y [Hy Hin]]. apply filter_In in Hin as [Hin _].
  apply in_map_iff. eauto.
Qed.

(** X11.  On a registry built by the registry calls, an emit selects
    no target twice: a target whose [events] hold the emitted name
    several times, or hold it next to ["*"], is addressed once, and
    the selected targets, the local ones and the remote ones each have
    pairwise distinct names. *)
Theorem resolveTargets_once (calls : list (Realm * RegistryCall)) (eventName : string)
  (self : MikroEvent) :
  targets self = perform_all calls [] ->
  NoDup (map name (resolveTargets eventName (targets self))) /\
  NoDup (map name (local_targets eventName self)) /\
  NoDup (map name (remote_targets eventName self)).
Proof.
  intros Hreg.
  assert (H : NoDup (map name (resolveTargets eventName (targets self)))).
  { unfold resolveTargets. apply NoDup_map_filter. rewrite Hreg.
    pose proof (perform_all_well_formed calls) as Hwf.
    rewrite (well_formed_names _ Hwf). apply Hwf. }
  split; [exact H|]. split; now apply NoDup_map_filter.
Qed.

Lemma arrive_sorted {A : Type} (x : A * Reply) (queue : list (A * Reply)) :
  StronglySorted (fun a b => latency (snd a) <= latency (snd b)) queue ->
  StronglySorted (fun a b => latency (snd a) <= latency (snd b)) (arrive x queue).
Proof.
  induction 1 as [|y rest Hs IH Hall]; simpl; [repeat constructor|].
  destruct (Nat.ltb (latency (snd x)) (latency (snd y))) eqn:E.
  - apply Nat.ltb_lt in E. constructor; [now constructor|]. constructor; [lia|].
    eapply Forall_impl; [|exact Hall]. simpl. intros a Ha. lia.
  - apply Nat.ltb_ge in E. constructor; [exact IH|].
    eapply Permutation_Forall; [symmetry; apply arrive_permutation|].
    now constructor.
Qed.

Lemma completion_order_sorted {A : Type} (issued : list (A * Reply)) :
  StronglySorted (fun a b => latency (snd a) <= latency (snd b))
    (completion_order issued).
Proof.
  induction issued as [|x rest IH]; simpl; [constructor | now apply arrive_sorted].
Qed.

(** X12.  With an error handler that returns normally, the [errors]
    of an emit are the entries of the failed local deliveries followed
    by one entry per failed remote delivery, in the order in which the
    replies arrive, whatever the registry order of their targets.
    Every request gets its reply once, and replies arrive by
    latency.  The entry of a reply outside 200..299 carries a new
    [Error] with the message [HTTP error! Status: <status>:
    <statusText>]; the entry of a request that did not complete
    carries what was thrown, wrapped in an [Error] if it is none. *)
Theorem emit_remote_errors (platform : Platform) (self : MikroEvent)
  (net : Network) (eventName : string) (data : JSValue) :
  returns_normally (errorHandler (options self)) ->
  let arrived := arrivals platform net eventName data self in
  (exists (r : EmitResult) (localErrors : list EmitError),
     fst (fst (emit platform self net eventName data)) = Resolves r /\
     errors r = localErrors
                  ++ map (remote_entry eventName) (List.filter arrival_failed arrived) /\
     length localErrors = local_failures platform eventName data self) /\
  Permutation arrived
    (issue platform net eventName data 0 (remote_targets eventName self)) /\
  StronglySorted (fun a b => latency (snd a) <= latency (snd b)) arrived /\
  (forall a, In a arrived ->
     target (remote_entry eventName a) = name (target_of a) /\
     event (remote_entry eventName a) = eventName /\
     error (remote_entry eventName a) =
       match outcome (snd a) with
       | Responded status statusText =>
           new_Error ("HTTP error! Status: " +:+ status_text status
                        +:+ ": " +:+ statusText)
       | Failed (ThrownError e) => e
       | Failed (ThrownOther rendered) => new_Error rendered
       end).
Proof.
  intros Hh arrived. subst arrived. unfold arrivals. split; [|split; [|split]].
  - run_local_phase platform self eventName data Eloc.
    destruct (emit_local_handled _ _ _ _ _ Hh _ _ _ _ _ _ Eloc)
      as (-> & _ & newL & HeL & HlenL & _).
    pose proof (settle_all_errors (errorHandler (options self)) eventName data
                  (completion_order (issue platform net eventName data 0
                                       (remote_targets eventName self))) Hh result1)
      as Herr.
    destruct (settle_all _ eventName data _ result1) as [result2 trace2].
    simpl in *. exists result2, newL. split; [reflexivity|].
    split; [now rewrite Herr, HeL | exact HlenL].
  - apply completion_order_permutation.
  - apply completion_order_sorted.
  - intros a _. unfold remote_entry, delivery_error, http_error. simpl.
    split; [reflexivity|]. split; [reflexivity|].
    destruct (outcome (snd a)) as [status statusText|[e|rendered]]; reflexivity.
Qed.

(** ** Listeners *)

(** X13.  An emit in which no listener of the event throws (the
    event not being ['error']) takes the [once] listeners of the event
    out of the notifier as soon as one local target matches, and
    leaves them registered when none does.  After an emit with a
    matching local target, the same event emitted again publishes to
    the listeners added with [on] only. *)
Theorem emit_once_listeners (platform : Platform) (self : MikroEvent)
  (net net' : Network) (eventName : string) (data : JSValue) :
  eventName <> "error" ->
  (forall l, In l (listeners_of eventName (emitter self)) ->
             run (listener l) data = None) ->
  let self' := state_after (emit platform self net eventName data) in
  let k := length (local_targets eventName self) in
  (k = 0 -> emitter self' = emitter self) /\
  (0 < k ->
     emitter self' = after_publish eventName (emitter self) /\
     listeners_of eventName (emitter self')
       = List.filter persistent (listeners_of eventName (emitter self)) /\
     exists remote : list Effect,
       trace_of (emit platform self' net' eventName data)
         = concat (repeat (one_publish eventName data
                             (List.filter persistent
                                (listeners_of eventName (emitter self)))) k)
             ++ remote /\
       Forall remote_effect remote).
Proof.
  intros Hne Hq self' k.
  assert (Hstate : self' = with_emitter self
                     (match local_targets eventName self with
                      | [] => emitter self
                      | _ => after_publish eventName (emitter self)
                      end)).
  { subst self'. unfold state_after, emit.
    fold (local_targets eventName self). fold (remote_targets eventName self).
    rewrite (emit_local_quiet platform _ eventName data Hne) by assumption.
    now destruct (settle_all _ eventName data _ _). }
  split.
  - intros Hk. subst k. rewrite Hstate.
    now destruct (local_targets eventName self).
  - intros Hk. subst k.
    assert (Hem : emitter self' = after_publish eventName (emitter self)).
    { rewrite Hstate. destruct (local_targets eventName self); [simpl in Hk; lia|].
      reflexivity. }
    split; [exact Hem|]. rewrite Hem, listeners_of_after_publish.
    split; [reflexivity|].
    assert (Htargets : targets self' = targets self) by now rewrite Hstate.
    unfold trace_of, emit. rewrite Htargets.
    fold (local_targets eventName self). fold (remote_targets eventName self).
    rewrite Hem.
    rewrite (emit_local_steady platform _ eventName data Hne).
    + rewrite listeners_of_after_publish.
      pose proof (settle_all_remote (errorHandler (options self')) eventName data
                    (completion_order (issue platform net' eventName data 0
                                         (remote_targets eventName self)))
                    {| success := true; errors := [] |}) as Hrem.
      destruct (settle_all _ eventName data _ _) as [result2 trace2]. simpl in *.
      eexists. split; [reflexivity|].
      apply Forall_app. split; [apply fetches_remote | exact Hrem].
    + rewrite listeners_of_after_publish. intros l Hl.
      apply filter_In in Hl as [Hl _]. now apply Hq.
    + rewrite listeners_of_after_publish. apply filter_Forall.
Qed.

Lemma drop_first_absent (eventName : string) (h : Handler) (ls : list Listener) :
  Forall (fun l => registered eventName h l = false) ls ->
  drop_first eventName h ls = ls.
Proof.
  induction 1 as [|l ls Hl _ IH]; simpl; [reflexivity|]. now rewrite Hl, IH.
Qed.

Lemma drop_first_others (eventName : string) (h : Handler) (ls : list Listener) :
  List.filter (fun l => negb (registered eventName h l)) (drop_first eventName h ls)
    = List.filter (fun l => negb (registered eventName h l)) ls.
Proof.
  induction ls as [|l ls IH]; simpl; [reflexivity|].
  destruct (registered eventName h l) eqn:E; simpl; [reflexivity|].
  now rewrite E, IH.
Qed.

Lemma removeListener_others (eventName : string) (h : Handler) (em : EventEmitter) :
  List.filter (fun l => negb (registered eventName h l)) (removeListener eventName h em)
    = List.filter (fun l => negb (registered eventName h l)) em.
Proof.
  unfold removeListener. induction em as [|l ls IH] using rev_ind; [reflexivity|].
  rewrite rev_app_distr. simpl. destruct (registered eventName h l) eqn:E.
  - rewrite rev_involutive, filter_app. simpl. rewrite E. simpl.
    now rewrite app_nil_r.
  - simpl. rewrite !filter_app. simpl. rewrite E. simpl. now rewrite IH.
Qed.

Lemma with_emitter_twice (self : MikroEvent) (em : EventEmitter) :
  with_emitter (with_emitter self em) (emitter self) = self.
Proof. now destruct self. Qed.

(** X14.  [off] undoes the latest [on] or [once] of the same handler
    for the same event: the dispatcher is as before.  [off] for a
    handler that is not registered for the event changes nothing, and
    in every case the listeners of other handlers and other events
    stay as they are, in their order. *)
Theorem off_undoes_on (eventName : string) (h : Handler) (self : MikroEvent) :
  off eventName h (on eventName h self) = self /\
  off eventName h (once eventName h self) = self /\
  (Forall (fun l => registered eventName h l = false) (emitter self) ->
     off eventName h self = self) /\
  List.filter (fun l => negb (registered eventName h l))
    (emitter (off eventName h self))
    = List.filter (fun l => negb (registered eventName h l)) (emitter self).
Proof.
  assert (Hreg : forall flag,
             registered eventName h
               {| on_event := eventName; listener := h; is_once := flag |} = true).
  { intros flag. unfold registered. simpl.
    now rewrite String.eqb_refl, Nat.eqb_refl. }
  assert (Hundo : forall flag,
             removeListener eventName h (addListener flag eventName h (emitter self))
               = emitter self).
  { intros flag. unfold removeListener, addListener. rewrite rev_app_distr. simpl.
    rewrite Hreg. apply rev_involutive. }
  unfold off, on, once. simpl. rewrite !Hundo.
  split; [apply with_emitter_twice|]. split; [apply with_emitter_twice|]. split.
  - intros Habsent. unfold removeListener. rewrite drop_first_absent.
    + rewrite rev_involutive. apply with_emitter_same.
    + apply List.Forall_forall. intros l Hl. rewrite List.Forall_forall in Habsent.
      apply Habsent. now apply in_rev.
  - apply removeListener_others.
Qed.

(** A publish stops at the first listener that throws. *)
Lemma call_listeners_stops (eventName : string) (data : JSValue) (caught : Thrown)
  (l : Listener) (after : list Listener) :
  run (listener l) data = Some caught ->
  forall (ls before : list Listener),
    listeners_of eventName ls = before ++ l :: after ->
    (forall b, In b before -> run (listener b) data = None) ->
    snd (fst (call_listeners eventName data ls))
      = map (invoke data) (before ++ [l]) /\
    snd (call_listeners eventName data ls) = Some caught /\
    listeners_of eventName (fst (fst (call_listeners eventName data ls)))
      = List.filter persistent before
          ++ (if is_once l then [] else [l]) ++ after.
Proof.
  intros Hl. unfold listeners_of.
  induction ls as [|x ls IH]; intros before Heq Hq; simpl in *.
  - now destruct before.
  - destruct (String.eqb eventName (on_event x)) eqn:E.
    + destruct before as [|b before]; simpl in Heq; injection Heq as -> Heq.
      * rewrite Hl. unfold persistent. destruct (is_once l) eqn:O; simpl;
          rewrite ?E; simpl; rewrite Heq; auto.
      * rewrite (Hq b (or_introl eq_refl)).
        destruct (IH before Heq (fun y Hy => Hq y (or_intror Hy))) as (H1 & H2 & H3).
        destruct (call_listeners eventName data ls) as [[rest' calls] thrown].
        simpl in *. subst calls thrown. unfold persistent at 1.
        destruct (is_once b) eqn:O; simpl; rewrite ?E; simpl; rewrite H3; auto.
    + destruct (IH before Heq Hq) as (H1 & H2 & H3).
      destruct (call_listeners eventName data ls) as [[rest' calls] thrown].
      simpl in *. rewrite E. auto.
Qed.

Lemma EventEmitter_emit_stops (platform : Platform) (eventName : string)
  (data : JSValue) (caught : Thrown) (l : Listener) (before after : list Listener)
  (em : EventEmitter) :
  run (listener l) data = Some caught ->
  listeners_of eventName em = before ++ l :: after ->
  (forall b, In b before -> run (listener b) data = None) ->
  exists em',
    EventEmitter_emit platform eventName data em
      = (em', map (invoke data) (before ++ [l]), Some caught) /\
    listeners_of eventName em'
      = List.filter persistent before ++ (if is_once l then [] else [l]) ++ after.
Proof.
  intros Hl Heq Hq. unfold EventEmitter_emit. rewrite Heq.
  assert (Nat.eqb (length (before ++ l :: after)) 0 = false) as ->
    by (rewrite length_app; simpl; apply Nat.eqb_neq; lia).
  rewrite andb_false_r.
  destruct (call_listeners_stops eventName data caught l after Hl em before Heq Hq)
    as (H1 & H2 & H3).
  destruct (call_listeners eventName data em) as [[em' calls] thrown].
  simpl in *. subst. eauto.
Qed.

(** ** Inbound adapter: the deferred delivery *)

(** X15.  An envelope object that names an event and carries a
    payload is delivered, once the deferred callback runs, to every
    listener of that event with that payload, in registration order,
    whether or not a target is registered: the inbound path does not
    look at the registry and sends no request.  The [once] listeners
    of the event are gone afterwards.  (Stated when no listener of
    the event throws and the event is not ['error'].) *)
Theorem inbound_delivery (platform : Platform) (self : MikroEvent)
  (props : list (string * JSValue)) (eventName : string) (payload : JSValue) :
  JSObject.get "eventName" props = Some (VStr eventName) ->
  JSObject.get "data" props = Some payload ->
  eventName <> "error" ->
  (forall l, In l (listeners_of eventName (emitter self)) ->
             run (listener l) payload = None) ->
  exists d : Deferred,
    handleIncomingEvent platform self (VObj props) = (Resolves tt, [d], []) /\
    run_deferred platform self d =
      (None,
       with_emitter self (after_publish eventName (emitter self)),
       one_publish eventName payload (listeners_of eventName (emitter self))).
Proof.
  intros He Hd Hne Hq. eexists. split.
  - unfold handleIncomingEvent. simpl. rewrite He, Hd. reflexivity.
  - unfold run_deferred. simpl.
    now rewrite (EventEmitter_emit_quiet platform eventName payload _ Hne Hq).
Qed.


(** X17.  Text that is valid JSON is still rejected when it denotes
    [null]: the adapter cannot take fields of it, reports a
    [TypeError] under ['parse_event'] and schedules nothing.  Any
    other parsed value is accepted, whatever it is, and schedules a
    delivery of its [eventName] and [data] fields, [undefined] where
    it has none, without a call of the error handler. *)
Theorem handleIncomingEvent_parsed_text (platform : Platform) (self : MikroEvent)
  (text : string) (v : JSValue) :
  JSON_parse platform text = inr v ->
  (v = VNull ->
     exists typeError : JSError,
       err_name typeError = "TypeError" /\
       handleIncomingEvent platform self (VStr text) =
         (Rejects
            match errorHandler (options self) typeError (VStr "parse_event") VUndefined with
            | Some escaped => escaped
            | None => ThrownError typeError
            end,
          [],
          [Report typeError (VStr "parse_event") VUndefined])) /\
  (v <> VNull -> v <> VUndefined ->
     handleIncomingEvent platform self (VStr text) =
       (Resolves tt,
        [{| deferred_eventName := property "eventName" v;
            deferred_data := property "data" v |}],
        [])).
Proof.
  intros H. unfold handleIncomingEvent. rewrite H. split.
  - intros ->. simpl.
    exists {| err_name := "TypeError";
              message := "Cannot destructure property 'eventName'" |}.
    split; [reflexivity|].
    now destruct (errorHandler (options self) _ (VStr "parse_event") VUndefined).
  - intros Hnull Hundef. destruct v; try reflexivity; congruence.
Qed.

(** ** Dispatch: a listener that throws *)

Section Thrower.
Context (platform : Platform) (handler : ErrorHandler)
        (eventName : string) (data : JSValue).
Context (caught : Thrown) (l : Listener) (after : list Listener).
Hypothesis handler_returns : returns_normally handler.
Hypothesis l_throws : run (listener l) data = Some caught.
Hypothesis l_stays : is_once l = false.

Lemma emit_local_thrower_steady (locals : list Target) (before : list Listener) :
  (forall b, In b before -> run (listener b) data = None) ->
  Forall (fun b => persistent b = true) before ->
  forall em result,
    listeners_of eventName em = before ++ l :: after ->
    exists em',
      emit_local platform handler eventName data locals em result =
        (None, em',
         record_failures result eventName (actualError caught) locals,
         concat (repeat (failed_publish eventName data (actualError caught) before l)
                   (length locals))) /\
      listeners_of eventName em' = before ++ l :: after.
Proof using handler_returns l_throws l_stays.
  intros Hq Hp. induction locals as [|t rest IH]; intros em result Heq; simpl.
  - exists em. split; [|exact Heq]. unfold record_failures. simpl.
    rewrite app_nil_r. now destruct result.
  - destruct (EventEmitter_emit_stops platform eventName data caught l before after
                em l_throws Heq Hq) as (em1 & -> & Heq1).
    rewrite l_stays, (filter_all _ _ Hp) in Heq1. simpl in Heq1.
    rewrite handler_returns.
    destruct (IH em1 (mark_failed
                        (push_error result
                           (makeError (name t) eventName (actualError caught)))) Heq1)
      as (em' & -> & Heq').
    exists em'. split; [|exact Heq']. f_equal; [f_equal|].
    + unfold record_failures. simpl. rewrite <- app_assoc. simpl.
      now destruct rest.
    + unfold failed_publish, one_publish. simpl. now rewrite <- app_assoc.
Qed.

Lemma emit_local_thrower (locals : list Target) (before : list Listener)
  (em : EventEmitter) (result : EmitResult) :
  (forall b, In b before -> run (listener b) data = None) ->
  listeners_of eventName em = before ++ l :: after ->
  exists em',
    emit_local platform handler eventName data locals em result =
      (None, em',
       record_failures result eventName (actualError caught) locals,
       failed_publishes eventName data (actualError caught) before l (length locals)).
Proof using handler_returns l_throws l_stays.
  intros Hq Heq. destruct locals as [|t rest]; simpl.
  - exists em. unfold record_failures. simpl. rewrite app_nil_r. now destruct result.
  - destruct (EventEmitter_emit_stops platform eventName data caught l before after
                em l_throws Heq Hq) as (em1 & -> & Heq1).
    rewrite l_stays in Heq1. simpl in Heq1. rewrite handler_returns.
    destruct (emit_local_thrower_steady rest (List.filter persistent before)) with
      (em := em1)
      (result := mark_failed
                   (push_error result
                      (makeError (name t) eventName (actualError caught))))
      as (em' & -> & _).
    + intros b Hb. apply filter_In in Hb as [Hb _]. now apply Hq.
    + apply filter_Forall.
    + exact Heq1.
    + exists em'. f_equal; [f_equal|].
      * unfold record_failures. simpl. rewrite <- app_assoc. simpl.
        now destruct rest.
      * unfold failed_publish, one_publish. simpl. now rewrite <- app_assoc.
Qed.

End Thrower.

(** X18.  When a listener added with [on] throws for the emitted
    event, the listeners before it returning normally, and the error
    handler returns normally, every matched local target is recorded
    as failed with that one error, in registry order and before any
    remote entry, and [success] is false as soon as one local target
    matches.  Each of the publishes calls the listeners up to the one
    that throws and is followed by one call of the error handler; the
    listeners registered after it are called by none of them. *)
Theorem emit_listener_throws (platform : Platform) (self : MikroEvent)
  (net : Network) (eventName : string) (data : JSValue)
  (caught : Thrown) (l : Listener) (before after : list Listener) :
  returns_normally (errorHandler (options self)) ->
  listeners_of eventName (emitter self) = before ++ l :: after ->
  (forall b, In b before -> run (listener b) data = None) ->
  run (listener l) data = Some caught ->
  is_once l = false ->
  let locals := local_targets eventName self in
  exists (r : EmitResult) (self' : MikroEvent) (remote : list Effect),
    emit platform self net eventName data =
      (Resolves r, self',
       failed_publishes eventName data (actualError caught) before l (length locals)
         ++ remote) /\
    Forall remote_effect remote /\
    errors r =
      map (fun t => makeError (name t) eventName (actualError caught)) locals
        ++ map (remote_entry eventName)
             (List.filter arrival_failed (arrivals platform net eventName data self)) /\
    (locals <> [] -> success r = false).
Proof.
  intros Hh Heq Hq Hl Hstay locals. subst locals. unfold emit.
  fold (local_targets eventName self). fold (remote_targets eventName self).
  destruct (emit_local_thrower platform (errorHandler (options self)) eventName data
              caught l after Hh Hl Hstay (local_targets eventName self) before
              (emitter self) {| success := true; errors := [] |} Hq Heq)
    as (em' & ->).
  set (issued := completion_order
                   (issue platform net eventName data 0 (remote_targets eventName self))).
  set (result1 := record_failures _ eventName (actualError caught)
                    (local_targets eventName self)).
  pose proof (settle_all_errors (errorHandler (options self)) eventName data
                issued Hh result1) as Herr.
  pose proof (settle_all_remote (errorHandler (options self)) eventName data
                issued result1) as Hrem.
  destruct (settle_all_handled (errorHandler (options self)) eventName data issued Hh
              result1 (fst (settle_all (errorHandler (options self)) eventName data
                              issued result1))
              (snd (settle_all (errorHandler (options self)) eventName data
                      issued result1)))
    as (newR & _ & _ & _ & _ & Hs).
  { now destruct (settle_all _ eventName data issued result1). }
  destruct (settle_all _ eventName data issued result1) as [result2 trace2].
  simpl in *. do 3 eexists. split; [reflexivity|]. split.
  { apply Forall_app. split; [apply fetches_remote | exact Hrem]. }
  split; [exact Herr|].
  intros Hlocals. rewrite Hs. subst result1. unfold record_failures. simpl.
  now destruct (local_targets eventName self).
Qed.

(** ** Middleware *)

Lemma handleIncomingEvent_cases (platform : Platform) (self : MikroEvent)
  (body : JSValue) :
  (exists d, handleIncomingEvent platform self body = (Resolves tt, [d], [])) \/
  (exists reason err,
      handleIncomingEvent platform self body
        = (Rejects reason, [], [Report err (VStr "parse_event") VUndefined])).
Proof.
  unfold handleIncomingEvent.
  destruct (match body with
            | VStr text =>
                match JSON_parse platform text with
                | inl syntaxError => inl (ThrownError syntaxError)
                | inr v => inr v
                end
            | _ => inr body
            end) as [e|v].
  - right. destruct (errorHandler (options self) _ _ _); eauto.
  - destruct (destructure v) as [e|[eventName data]].
    + right. destruct (errorHandler (options self) _ _ _); eauto.
    + left. eauto.
Qed.

Lemma append_empty (s : string) : s +:+ "" = s.
Proof.
  induction s as [|c s IH]; [reflexivity|].
  change (String c (s +:+ "") = String c s). now rewrite IH.
Qed.

Lemma append_associative (a b c : string) : (a +:+ b) +:+ c = a +:+ (b +:+ c).
Proof.
  induction a as [|x a IH]; [reflexivity|].
  change (String x ((a +:+ b) +:+ c) = String x (a +:+ (b +:+ c))). now rewrite IH.
Qed.

Lemma accumulate_from (chunks : list string) :
  forall start : string,
    fold_left String.append chunks start
      = start +:+ fold_right String.append "" chunks.
Proof.
  induction chunks as [|c rest IH]; intros start; simpl.
  - now rewrite append_empty.
  - now rewrite IH, append_associative.
Qed.

(** X19.  The middleware passes a request whose method is not
    exactly ['POST'] on: it calls [next], if given, once and without
    argument, touches neither the response nor the notifier and calls
    no error handler.  A POST is handed to [handleIncomingEvent], with
    its body when that is truthy and with the text of its stream
    otherwise, and gets one of two answers.  When the call resolves:
    status 202 with an empty end, the delivery it scheduled and [next]
    not called.  When it rejects, which it does after one call of the
    error handler under ['parse_event']: status 400 with the JSON text
    of [{error: 'Invalid event format'}], nothing scheduled and
    [next], if given, called once with the very value the call
    rejected with; for a text body that is not valid JSON that is the
    parse error, or what the error handler threw when it threw.  A
    POST whose body is an object or an array always gets the first
    answer, whatever its fields. *)
Theorem middleware_answers (platform : Platform) (self : MikroEvent)
  (req : IncomingRequest) (has_next : bool) :
  let body := if truthy_value (incoming_body req) then incoming_body req
              else VStr (accumulate (incoming_chunks req)) in
  (incoming_method req <> "POST" ->
     middleware platform self req has_next
       = (if has_next then [Next None] else [], [])) /\
  (incoming_method req = "POST" ->
     (exists d : Deferred,
        handleIncomingEvent platform self body = (Resolves tt, [d], []) /\
        middleware platform self req has_next = ([StatusCode 202; End None], [d])) \/
     (exists (reason : Thrown) (err : JSError),
        handleIncomingEvent platform self body
          = (Rejects reason, [], [Report err (VStr "parse_event") VUndefined]) /\
        middleware platform self req has_next =
          ([Inbound (Report err (VStr "parse_event") VUndefined);
            StatusCode 400;
            End (Some (invalid_event_format platform))]
             ++ (if has_next then [Next (Some reason)] else []),
           []))) /\
  (forall (text : string) (syntaxError : JSError),
     incoming_method req = "POST" ->
     body = VStr text ->
     JSON_parse platform text = inl syntaxError ->
     middleware platform self req has_next =
       ([Inbound (Report syntaxError (VStr "parse_event") VUndefined);
         StatusCode 400;
         End (Some (invalid_event_format platform))]
          ++ (if has_next
              then [Next (Some
                            match errorHandler (options self) syntaxError
                                    (VStr "parse_event") VUndefined with
                            | Some escaped => escaped
                            | None => ThrownError syntaxError
                            end)]
              else []),
        [])) /\
  (incoming_method req = "POST" -> structured (incoming_body req) = true ->
     middleware platform self req has_next =
       ([StatusCode 202; End None],
        [{| deferred_eventName := property "eventName" (incoming_body req);
            deferred_data := property "data" (incoming_body req) |}])).
Proof.
  intros body.
  assert (Hposted : incoming_method req = "POST" ->
                    middleware platform self req has_next
                    = answer platform self body has_next).
  { intros Hm. unfold middleware, body. rewrite Hm. simpl.
    now destruct (truthy_value (incoming_body req)). }
  split; [|split; [|split]].
  - intros H. unfold middleware. apply String.eqb_neq in H. now rewrite H.
  - intros Hm. rewrite (Hposted Hm). unfold answer.
    destruct (handleIncomingEvent_cases platform self body)
      as [[d Hcall]|(reason & err & Hcall)]; rewrite Hcall; simpl; eauto.
  - intros text syntaxError Hm Hbody Hparse. rewrite (Hposted Hm), Hbody.
    unfold answer, handleIncomingEvent. rewrite Hparse. simpl.
    now destruct (errorHandler (options self) syntaxError _ _).
  - intros Hm Hs. unfold middleware. rewrite Hm. simpl. unfold answer.
    destruct (incoming_body req); try discriminate; reflexivity.
Qed.

(** X20.  A POST whose [body] is missing or falsy (the empty string,
    [false], [0], [null]) is answered from the stream: the chunks are
    joined in the order of their arrival and the text is handled as a
    materialized text body would be, so only the joined text counts,
    not how it was cut into chunks.  When the platform's parser
    rejects the empty text, a POST without body and without chunks
    gets status 400. *)
Theorem middleware_stream (platform : Platform) (self : MikroEvent)
  (req : IncomingRequest) (has_next : bool) :
  incoming_method req = "POST" ->
  truthy_value (incoming_body req) = false ->
  let text := fold_right String.append "" (incoming_chunks req) in
  middleware platform self req has_next
    = answer platform self (VStr text) has_next /\
  (text <> "" ->
     forall chunks,
       middleware platform self req has_next =
         middleware platform self
           {| incoming_method := "POST"; incoming_body := VStr text;
              incoming_chunks := chunks |} has_next) /\
  (forall syntaxError,
     incoming_chunks req = [] ->
     JSON_parse platform "" = inl syntaxError ->
     exists reason,
       middleware platform self req has_next =
         ([Inbound (Report syntaxError (VStr "parse_event") VUndefined);
           StatusCode 400;
           End (Some (invalid_event_format platform))]
            ++ (if has_next then [Next (Some reason)] else []),
          [])).
Proof.
  intros Hm Hf text.
  assert (Hcall : middleware platform self req has_next
                  = answer platform self (VStr text) has_next).
  { unfold middleware. rewrite Hm, Hf. simpl. unfold accumulate.
    now rewrite accumulate_from. }
  split; [exact Hcall|]. split.
  - intros Hne chunks. rewrite Hcall. unfold middleware. simpl.
    apply String.eqb_neq in Hne. now rewrite Hne.
  - intros syntaxError Hnone Hparse. rewrite Hcall. subst text. rewrite Hnone. simpl.
    unfold answer, handleIncomingEvent. rewrite Hparse. simpl.
    destruct (errorHandler (options self) syntaxError _ _); simpl; eauto.
Qed.

(** ** Dispatch: the default error handler, and registry calls *)

(** X21.  A dispatcher constructed without an error handler, with
    whatever listeners and targets it is given afterwards, resolves
    every emit: its handler only prints.  [success] is then true
    exactly when [errors] is empty, and the error handler is called
    once per entry. *)
Theorem emit_default_handler (platform : Platform) (self : MikroEvent)
  (net : Network) (eventName : string) (data : JSValue) :
  options self = options (new_MikroEvent None) ->
  exists (r : EmitResult) (self' : MikroEvent) (trace : list Effect),
    emit platform self net eventName data = (Resolves r, self', trace) /\
    (success r = true <-> errors r = []) /\
    count is_report trace = length (errors r).
Proof.
  intros Hopt.
  assert (Hh : returns_normally (errorHandler (options self)))
    by (rewrite Hopt; intros err ev d; reflexivity).
  run_local_phase platform self eventName data Eloc.
  destruct (emit_local_handled _ _ _ _ _ Hh _ _ _ _ _ _ Eloc)
    as (-> & _ & newL & HeL & _ & _ & _ & HrepL & HsL).
  destruct (settle_all _ eventName data _ result1) as [result2 trace2] eqn:Erem.
  destruct (settle_all_handled _ _ _ _ Hh _ _ _ Erem)
    as (newR & HeR & _ & _ & HrepR & HsR).
  simpl in HeL, HsL. do 3 eexists. split; [reflexivity|].
  rewrite HeR, HeL. split.
  - rewrite HsR, HsL. destruct newL, newR; simpl; split; congruence.
  - unfold count. rewrite !filter_app, HrepL, HrepR, fetches_only by reflexivity.
    simpl. now rewrite !length_app, !length_map.
Qed.

(** X22.  On a registry built by the registry calls: once an event
    name has been added to a held target, an emit of that name
    selects that target; once a name has been removed, no emit, of
    whatever event, selects a target of that name. *)
Theorem registry_calls_take_effect (calls : list (Realm * RegistryCall))
  (realm : Realm) (n eventName : string) :
  let reg := perform_all calls [] in
  (forall t : Target, JSObject.get n reg = Some t ->
     exists t' : Target,
       name t' = n /\
       In t' (resolveTargets eventName
                (registry_of (addEventToTarget realm n [eventName] reg)))) /\
  (forall anyEvent : string,
     ~ In n (map name (resolveTargets anyEvent
                         (registry_of (removeTarget realm n reg))))).
Proof.
  intros reg. pose proof (perform_all_well_formed calls) as Hwf. fold reg in Hwf.
  split.
  - intros t Ht.
    destruct (addEventToTarget_held realm n [eventName] reg t Ht) as [_ Hget].
    eexists. split; [|apply filter_In; split; [eapply get_In, Hget|]].
    + simpl. destruct Hwf as [_ Hname]. rewrite List.Forall_forall in Hname.
      exact (Hname _ (get_Some_In _ _ _ Ht)).
    + apply matches_spec. left. cbn [events]. rewrite push_missing_one.
      destruct (includes (events t) eventName) eqn:E.
      * now apply includes_In.
      * apply in_or_app. right. now left.
  - intros anyEvent Hin.
    pose proof (perform_well_formed realm (CallRemoveTarget n) reg Hwf) as Hwf'.
    simpl in Hwf'. set (reg' := registry_of (removeTarget realm n reg)) in *.
    assert (Hgone : JSObject.get n reg' = None).
    { subst reg'. destruct (JSObject.has n reg) eqn:E.
      - unfold removeTarget. rewrite E. apply get_delete_eq.
      - rewrite removeTarget_not_held by exact E. now apply has_false in E. }
    apply get_None_keys in Hgone. apply Hgone.
    rewrite <- (well_formed_names _ Hwf').
    apply in_map_iff in Hin as [t [Hn Hin]]. apply filter_In in Hin as [Hin _].
    apply in_map_iff. eauto.
Qed.

(** * The further properties on concrete inputs *)

Lemma removeTarget_removes_witness :
  removeTarget pristine "missing" system_a
    = (Returns false, system_a, [does_not_exist "missing"], []) /\
  removeTarget pristine "valueOf" system_a = (Returns true, system_a, [], []) /\
  exists reg' : Targets,
    removeTarget pristine "system_a" system_a = (Returns true, reg', [], []) /\
    JSObject.get "system_a" reg' = None /\
    returned (addEventToTarget pristine "system_a" ["user.updated"] reg')
      = Returns false.
Proof.
  destruct (removeTarget_removes pristine "missing" system_a) as (Hmissing & _ & _).
  destruct (removeTarget_removes pristine "valueOf" system_a) as (_ & Hup & _).
  destruct (removeTarget_removes pristine "system_a" system_a) as (_ & _ & Hheld).
  destruct (Hheld _ eq_refl) as (reg' & Hcall & Hgone & _ & _ & _ & Hadd & _).
  split; [exact (Hmissing eq_refl eq_refl)|].
  split; [apply (Hup eq_refl); discriminate|].
  exists reg'. split; [exact Hcall|]. split; [exact Hgone|].
  exact (Hadd pristine _ eq_refl).
Defined.

(** [toString] on a new dispatcher, before and after an update wrote
    events onto it. *)
Lemma registry_inherited_names_witness :
  let written_to : Realm :=
    fun n => if String.eqb n "toString" then InheritedObject (Some ["x"])
             else NotInherited in
  addTarget pristine [local_target "toString" ["x"]] []
    = (Returns false, [], [already_exists "toString"], []) /\
  removeTarget pristine "toString" [] = (Returns true, [], [], []) /\
  updateTarget pristine "toString"
    {| update_url := Some "http://localhost"; update_headers := None;
       update_events := Some ["x"] |} []
    = (Returns true, [], [],
       [WriteUrl "toString" "http://localhost"; WriteEvents "toString" ["x"]]) /\
  (exists typeError : JSError,
     err_name typeError = "TypeError" /\
     addEventToTarget pristine "toString" ["x"] []
       = (Throws (ThrownError typeError), [], [], [])) /\
  (exists added : list string,
     push_missing ["x"; "y"] ["x"] = ["x"] ++ added /\
     addEventToTarget written_to "toString" ["x"; "y"] []
       = (Returns true, [], [], map (PushEvent "toString") added)).
Proof.
  intros written_to.
  destruct (registry_inherited_names pristine "toString" [] None eq_refl eq_refl)
    as (Hadd & Hremove & Hupdate & _ & Hthrows & _).
  destruct (registry_inherited_names written_to "toString" [] (Some ["x"])
              eq_refl eq_refl) as (_ & _ & _ & _ & Hpushes & _).
  split; [exact (Hadd (local_target "toString" ["x"]) eq_refl)|].
  split; [exact Hremove|]. split; [exact (Hupdate _)|].
  split; [exact (Hthrows "x" []) | exact (Hpushes "x" ["y"])].
Defined.

Lemma registry_enumeration_order_witness :
  JSObject.keys (perform_all numbered_calls []) = ["9"; "10"; "b"] /\
  (9 <= 10)%N.
Proof.
  split; [reflexivity|].
  destruct (registry_enumeration_order numbered_calls) as [_ Hpair].
  exact (Hpair [] "9" [] "10" ["b"] eq_refl).
Defined.

Lemma addTarget_registration_order_witness :
  let batch := [remote_target "success_target" "http://localhost/success" ["test.event"];
                local_target "internal_target" ["test.event"]] in
  addTarget pristine batch system_a
    = (Returns true, system_a ++ map entry_of batch, [], []).
Proof.
  intros batch.
  refine (proj1 (addTarget_registration_order pristine batch system_a _ _ _)).
  - repeat constructor.
  - repeat constructor; simpl; intuition discriminate.
  - intros t [<-|[<-|[]]]; split; reflexivity.
Defined.

Lemma addTarget_removeTarget_round_trip_witness :
  JSObject.get "internal" system_a = None /\
  removeTarget pristine "internal"
    (registry_of
       (addTarget pristine [local_target "internal" ["user.created"]] system_a))
    = (Returns true, system_a, [], []).
Proof.
  split; [reflexivity|].
  exact (proj2 (addTarget_removeTarget_round_trip pristine pristine
                  (local_target "internal" ["user.created"]) system_a
                  eq_refl eq_refl)).
Defined.

Lemma addEventToTarget_appends_witness :
  exists t' : Target,
    JSObject.get "system_a"
      (registry_of (addEventToTarget pristine "system_a"
                      ["user.updated"; "user.created"; "user.updated"] system_a))
      = Some t' /\
    NoDup (events t') /\
    In "user.updated" (events t').
Proof.
  destruct (addEventToTarget_appends pristine "system_a"
              ["user.updated"; "user.created"; "user.updated"] system_a _ eq_refl)
    as (added & t' & Hget & _ & _ & _ & Hin & Hnd & _).
  exists t'. split; [exact Hget|]. split.
  - apply Hnd. repeat constructor. intros [].
  - apply Hin. now left.
Defined.

Lemma updateTarget_kind_witness :
  let cleared := {| update_url := Some ""; update_headers := None;
                    update_events := None |} in
  exists t' : Target,
    JSObject.get "system_a"
      (registry_of (updateTarget pristine "system_a" cleared system_a))
      = Some t' /\
    is_external t' = false.
Proof.
  intros cleared.
  destruct (updateTarget_kind pristine "system_a" cleared system_a _ eq_refl)
    as (t' & Hget & Hkind & _).
  exists t'. split; [exact Hget | exact Hkind].
Defined.

Lemma emit_requests_witness :
  let failing :=
    {| name := "failing_target"; url := Some "http://localhost/error";
       headers := ∅; events := ["test.event"] |} in
  In failing (remote_targets "test.event" partial_failures) /\
  count is_fetch
    (trace_of (emit small_platform partial_failures test_server "test.event" VNull)) = 2 /\
  req_headers (request_of small_platform failing "test.event" VNull) !! "Content-Type"
    = Some "application/json".
Proof.
  intros failing.
  assert (Hin : In failing (remote_targets "test.event" partial_failures))
    by (right; left; reflexivity).
  destruct (emit_requests small_platform partial_failures test_server "test.event" VNull)
    as [Hsent Hshape].
  destruct (Hshape failing Hin) as (_ & _ & _ & _ & _ & Hct & _).
  split; [exact Hin|]. split.
  - unfold count. now rewrite Hsent.
  - exact (Hct eq_refl).
Defined.

Lemma emit_leaves_witness :
  let self' := state_after (emit small_platform two_locals_quiet test_server "x" VNull) in
  targets self' = targets two_locals_quiet /\
  In {| on_event := "x"; listener := recording_listener; is_once := false |}
     (emitter self').
Proof.
  intros self'.
  destruct (emit_leaves small_platform two_locals_quiet test_server "x" VNull)
    as (Htargets & _ & _ & _ & Hstay).
  split; [exact Htargets|].
  apply Hstay; [right; left; reflexivity | now right].
Defined.

Lemma resolveTargets_once_witness :
  let self := {| emitter := new_EventEmitter;
                 targets := perform_all repeated_subscription [];
                 options := {| errorHandler := console_error |} |} in
  map name (remote_targets "x" self) = ["hook"] /\
  NoDup (map name (remote_targets "x" self)).
Proof.
  intros self. split; [reflexivity|].
  exact (proj2 (proj2 (resolveTargets_once repeated_subscription "x" self eq_refl))).
Defined.

Lemma emit_remote_errors_witness :
  exists (r : EmitResult) (localErrors : list EmitError),
    fst (fst (emit small_platform partial_failures test_server "test.event" VNull))
      = Resolves r /\
    errors r =
      localErrors
        ++ map (remote_entry "test.event")
             (List.filter arrival_failed
                (arrivals small_platform test_server "test.event" VNull partial_failures)) /\
    length localErrors = 0.
Proof.
  destruct (emit_remote_errors small_platform partial_failures test_server
              "test.event" VNull (fun _ _ _ => eq_refl))
    as ((r & localErrors & Hcall & Herr & Hlen) & _).
  exists r, localErrors. split; [exact Hcall|]. split; [exact Herr | exact Hlen].
Defined.

Lemma emit_once_listeners_witness :
  let self' := state_after (emit small_platform two_locals_quiet test_server "x" VNull) in
  map (fun l => handler_id (listener l)) (listeners_of "x" (emitter two_locals_quiet))
    = [3; 2] /\
  map (fun l => handler_id (listener l)) (listeners_of "x" (emitter self')) = [2].
Proof.
  intros self'. split; [reflexivity|].
  assert (Hne : "x" <> "error") by discriminate.
  assert (Hq : forall l, In l (listeners_of "x" (emitter two_locals_quiet)) ->
                         run (listener l) VNull = None).
  { intros l [<-|[<-|[]]]; reflexivity. }
  destruct (emit_once_listeners small_platform two_locals_quiet test_server test_server
              "x" VNull Hne Hq) as [_ Hsome].
  destruct (Hsome (Nat.lt_0_succ 1)) as (_ & Hlisteners & _).
  subst self'. now rewrite Hlisteners.
Defined.

Lemma off_undoes_on_witness :
  off "user.created" recording_listener (listening recording_listener)
    = new_MikroEvent None /\
  off "user.created" failing_listener (listening recording_listener)
    = listening recording_listener.
Proof.
  destruct (off_undoes_on "user.created" recording_listener (new_MikroEvent None))
    as (Hon & _).
  destruct (off_undoes_on "user.created" failing_listener (listening recording_listener))
    as (_ & _ & Habsent & _).
  split; [exact Hon|]. apply Habsent. repeat constructor.
Defined.

Lemma inbound_delivery_witness :
  exists d : Deferred,
    handleIncomingEvent small_platform (listening recording_listener)
      (VObj user_created_envelope) = (Resolves tt, [d], []) /\
    snd (run_deferred small_platform (listening recording_listener) d)
      = [Publish "user.created" (VObj [("id", VStr "123")]);
         Invoke 2 (VObj [("id", VStr "123")])].
Proof.
  assert (Hne : "user.created" <> "error") by discriminate.
  destruct (inbound_delivery small_platform (listening recording_listener)
              user_created_envelope "user.created" (VObj [("id", VStr "123")])
              eq_refl eq_refl Hne) as (d & Hcall & Hrun).
  { intros l [<-|[]]. reflexivity. }
  exists d. split; [exact Hcall|]. now rewrite Hrun.
Defined.


Lemma handleIncomingEvent_parsed_text_witness :
  JSON_parse small_platform "null" = inr VNull /\
  exists typeError : JSError,
    err_name typeError = "TypeError" /\
    handleIncomingEvent small_platform (new_MikroEvent None) (VStr "null")
      = (Rejects (ThrownError typeError), [],
         [Report typeError (VStr "parse_event") VUndefined]).
Proof.
  split; [reflexivity|].
  destruct (handleIncomingEvent_parsed_text small_platform (new_MikroEvent None)
              "null" VNull eq_refl) as [Hnull _].
  destruct (Hnull eq_refl) as (typeError & Hname & Hcall).
  exists typeError. split; [exact Hname | exact Hcall].
Defined.

Lemma emit_listener_throws_witness :
  exists (r : EmitResult) (self' : MikroEvent) (remote : list Effect),
    emit small_platform (two_locals None) test_server "x" VNull =
      (Resolves r, self',
       [Publish "x" VNull; Invoke 1 VNull;
        Report (new_Error "Handler error") (VStr "x") VNull;
        Publish "x" VNull; Invoke 1 VNull;
        Report (new_Error "Handler error") (VStr "x") VNull] ++ remote) /\
    map target (errors r) = ["a"; "b"] /\
    success r = false.
Proof.
  destruct (emit_listener_throws small_platform (two_locals None) test_server "x" VNull
              (ThrownError (new_Error "Handler error"))
              {| on_event := "x"; listener := failing_listener; is_once := false |}
              []
              [{| on_event := "x"; listener := recording_listener; is_once := false |}]
              (fun _ _ _ => eq_refl) eq_refl)
    as (r & self' & remote & Hcall & _ & Herr & Hs).
  - intros b [].
  - reflexivity.
  - reflexivity.
  - exists r, self', remote. split; [exact Hcall|]. split.
    + now rewrite Herr.
    + apply Hs. discriminate.
Defined.

Lemma middleware_answers_witness :
  middleware small_platform (new_MikroEvent None)
    {| incoming_method := "GET"; incoming_body := VUndefined; incoming_chunks := [] |}
    true = ([Next None], []) /\
  middleware small_platform (new_MikroEvent None)
    {| incoming_method := "POST"; incoming_body := VObj [("bad", VStr "data")];
       incoming_chunks := [] |} true
    = ([StatusCode 202; End None],
       [{| deferred_eventName := VUndefined; deferred_data := VUndefined |}]) /\
  middleware small_platform (new_MikroEvent None)
    {| incoming_method := "POST"; incoming_body := VStr "not json";
       incoming_chunks := [] |} true
    = ([Inbound (Report unexpected_token (VStr "parse_event") VUndefined);
        StatusCode 400;
        End (Some (invalid_event_format small_platform));
        Next (Some (ThrownError unexpected_token))], []) /\
  middleware small_platform (new_MikroEvent (Some throwing_handler))
    {| incoming_method := "POST"; incoming_body := VStr "not json";
       incoming_chunks := [] |} true
    = ([Inbound (Report unexpected_token (VStr "parse_event") VUndefined);
        StatusCode 400;
        End (Some (invalid_event_format small_platform));
        Next (Some (ThrownOther "handler failed"))], []).
Proof.
  split; [|split; [|split]].
  - refine (proj1 (middleware_answers small_platform (new_MikroEvent None) _ true) _).
    discriminate.
  - exact (proj2 (proj2 (proj2 (middleware_answers small_platform (new_MikroEvent None)
                                  {| incoming_method := "POST";
                                     incoming_body := VObj [("bad", VStr "data")];
                                     incoming_chunks := [] |} true)))
             eq_refl eq_refl).
  - exact (proj1 (proj2 (proj2 (middleware_answers small_platform (new_MikroEvent None)
                                  {| incoming_method := "POST";
                                     incoming_body := VStr "not json";
                                     incoming_chunks := [] |} true)))
             "not json" unexpected_token eq_refl eq_refl eq_refl).
  - exact (proj1 (proj2 (proj2 (middleware_answers small_platform
                                  (new_MikroEvent (Some throwing_handler))
                                  {| incoming_method := "POST";
                                     incoming_body := VStr "not json";
                                     incoming_chunks := [] |} true)))
             "not json" unexpected_token eq_refl eq_refl eq_refl).
Defined.

Lemma middleware_stream_witness :
  let streamed := {| incoming_method := "POST"; incoming_body := VUndefined;
                     incoming_chunks := ["{"; "}"] |} in
  let empty := {| incoming_method := "POST"; incoming_body := VStr "";
                  incoming_chunks := [] |} in
  middleware small_platform (new_MikroEvent None) streamed false
    = middleware small_platform (new_MikroEvent None)
        {| incoming_method := "POST"; incoming_body := VStr "{}";
           incoming_chunks := [] |} false /\
  exists reason,
    middleware small_platform (new_MikroEvent None) empty true
      = ([Inbound (Report unexpected_token (VStr "parse_event") VUndefined);
          StatusCode 400;
          End (Some (invalid_event_format small_platform));
          Next (Some reason)], []).
Proof.
  intros streamed empty.
  destruct (middleware_stream small_platform (new_MikroEvent None) streamed false
              eq_refl eq_refl) as (_ & Hsame & _).
  destruct (middleware_stream small_platform (new_MikroEvent None) empty true
              eq_refl eq_refl) as (_ & _ & Hempty).
  split.
  - apply Hsame. discriminate.
  - exact (Hempty unexpected_token eq_refl eq_refl).
Defined.

Lemma emit_default_handler_witness :
  exists (r : EmitResult) (self' : MikroEvent) (trace : list Effect),
    emit small_platform (two_locals None) test_server "x" VNull
      = (Resolves r, self', trace) /\
    count is_report trace = length (errors r).
Proof.
  destruct (emit_default_handler small_platform (two_locals None) test_server "x" VNull
              eq_refl) as (r & self' & trace & Hcall & _ & Hcount).
  exists r, self', trace. split; [exact Hcall | exact Hcount].
Defined.

Lemma registry_calls_take_effect_witness :
  (exists t' : Target,
     name t' = "hook" /\
     In t' (resolveTargets "z"
              (registry_of (addEventToTarget pristine "hook" ["z"]
                              (perform_all
                                 [(pristine,
                                   CallAddTarget [local_target "hook" ["y"]])] []))))) /\
  ~ In "hook"
      (map name (resolveTargets "x"
                   (registry_of (removeTarget pristine "hook"
                                   (perform_all repeated_subscription []))))).
Proof.
  destruct (registry_calls_take_effect
              [(pristine, CallAddTarget [local_target "hook" ["y"]])]
              pristine "hook" "z") as [Hadd _].
  destruct (registry_calls_take_effect repeated_subscription pristine "hook" "x")
    as [_ Hgone].
  split; [exact (Hadd _ eq_refl) | exact (Hgone "x")].
Defined.
